(** * Welshman: the cooperative worker and the publish thunks

    A shallow embedding of [packages/lib/Worker.ts] and
    [packages/app/src/thunk.ts], and the properties of the publication
    pipeline that are stated about them. *)

From stdpp Require Import gmap strings list fin_maps.
From Stdlib Require Import ZArith Lia.

Set Warnings "-clear-no-such-hyp".

(** * Part I: [Worker] ([packages/lib/Worker.ts]) *)

Module Worker.

(** Timer handles returned by [setTimeout] are non-zero, hence truthy:
    [!this.timeout] holds exactly when the field is [undefined]. *)
Definition TimerId := positive.

(** Handlers are JavaScript closures of type [(x: T) => void]; they are
    named by an index and interpreted by a function [run] on the whole
    mutable state, so that a handler may itself push, clear, stop or
    register handlers, as the source allows, and may return or raise. *)
Definition HandlerId := nat.

Section Worker.

Context {T K W : Type} `{Countable K}.

(** The module-private symbol [ANY] is the key of the global handlers; it
    is distinct from every value that [getKey] can return. *)
Definition ANY : option K := None.

(** The fields of the class, the timers of the runtime that were set by
    the worker and are still armed, and the rest of the mutable
    environment [env] that handlers and the deferral predicate close over. *)
Record Worker := mkWorker {
  buffer : list T;
  handlers : gmap (option K) (list HandlerId);
  timeout : option TimerId;
  armed : list TimerId;
  next_timer : TimerId;
  env : W
}.

Record WorkerOpts := mkOpts {
  getKey : option (T → K);
  shouldDefer : option (Worker → T → bool)
}.

Definition set_buffer (b : list T) (w : Worker) : Worker :=
  mkWorker b (handlers w) (timeout w) (armed w) (next_timer w) (env w).

Definition set_handlers (h : gmap (option K) (list HandlerId)) (w : Worker) : Worker :=
  mkWorker (buffer w) h (timeout w) (armed w) (next_timer w) (env w).

Definition set_timeout (t : option TimerId) (w : Worker) : Worker :=
  mkWorker (buffer w) (handlers w) t (armed w) (next_timer w) (env w).

Definition set_armed (a : list TimerId) (w : Worker) : Worker :=
  mkWorker (buffer w) (handlers w) (timeout w) a (next_timer w) (env w).

Definition set_env (e : W) (w : Worker) : Worker :=
  mkWorker (buffer w) (handlers w) (timeout w) (armed w) (next_timer w) e.

(** [new Worker(opts)] in a runtime whose next timer handle is [1]. *)
Definition init (e : W) : Worker := mkWorker [] ∅ None [] 1%positive e.

(** [setTimeout(this.#doWork, 50)]: arms a fresh timer and returns its handle. *)
Definition setTimeout (w : Worker) : TimerId * Worker :=
  (next_timer w,
   mkWorker (buffer w) (handlers w) (timeout w) (armed w ++ [next_timer w])
            (Pos.succ (next_timer w)) (env w)).

(** [clearTimeout(id)]: disarms [id]; [clearTimeout(undefined)] does nothing. *)
Definition clearTimeout (t : option TimerId) (w : Worker) : Worker :=
  match t with
  | None => w
  | Some id => set_armed (filter (λ j, j ≠ id) (armed w)) w
  end.

(** [#enqueueWork] *)
Definition enqueueWork (w : Worker) : Worker :=
  match timeout w, buffer w with
  | None, _ :: _ => let '(id, w') := setTimeout w in set_timeout (Some id) w'
  | _, _ => w
  end.

(** [push] *)
Definition push (message : T) (w : Worker) : Worker :=
  enqueueWork (set_buffer (buffer w ++ [message]) w).

(** [addHandler]: [handlers.set(k, (handlers.get(k) || []).concat(handler))] *)
Definition addHandler (k : option K) (h : HandlerId) (w : Worker) : Worker :=
  set_handlers (<[k := default [] (handlers w !! k) ++ [h]]> (handlers w)) w.

(** [addGlobalHandler] *)
Definition addGlobalHandler (h : HandlerId) (w : Worker) : Worker :=
  addHandler ANY h w.

(** The handlers that a sequence of [addHandler] calls registers. *)
Definition register (regs : list (option K * HandlerId)) (w : Worker) : Worker :=
  foldl (λ s r, addHandler r.1 r.2 s) w regs.

(** Those registered under [k], in the order of their registration. *)
Definition registered (k : option K) (regs : list (option K * HandlerId))
  : list HandlerId :=
  (filter (λ r, r.1 = k) regs).*2.

(** [clear] *)
Definition clear (w : Worker) : Worker := set_buffer [] w.

(** [stop]: [clearTimeout(this.timeout)]; the field itself is not reset. *)
Definition stop (w : Worker) : Worker := clearTimeout (timeout w) w.

(** What an awaited handler invocation comes back with. The handler
    returned, or the promise it returned was fulfilled; or it threw, or its
    promise was rejected. Either way it leaves a state behind. *)
Inductive Outcome :=
| Returned (w : Worker)
| Raised (w : Worker).

Definition outcome_state (o : Outcome) : Worker :=
  match o with
  | Returned w | Raised w => w
  end.

Definition raised (o : Outcome) : bool :=
  match o with
  | Returned _ => false
  | Raised _ => true
  end.

Section Cycle.

Variable opts : WorkerOpts.
Variable run : HandlerId → T → Worker → Outcome.

(** One awaited handler invocation: which handler, on which message, the
    state it started from and what it came back with. *)
Record Call := mkCall {
  call_handler : HandlerId;
  call_message : T;
  call_pre : Worker;
  call_outcome : Outcome
}.

Definition call_post (c : Call) : Worker := outcome_state (call_outcome c).

Definition call_raised (c : Call) : bool := raised (call_outcome c).

(** A call records an invocation of [run] on its message. *)
Definition call_ok (x : T) (c : Call) : Prop :=
  call_message c = x ∧ call_outcome c = run (call_handler c) x (call_pre c).

(** Each call of a chain starts from the state the call before it left. *)
Fixpoint chained (w : Worker) (calls : list Call) (w' : Worker) : Prop :=
  match calls with
  | [] => w' = w
  | c :: cs => call_pre c = w ∧ chained (call_post c) cs w'
  end.

(** What one iteration of the loop of [#doWork] did with the message it
    took; [asked] is the state in which [shouldDefer] was asked, the
    message being spliced off the buffer already. *)
Inductive Entry :=
| Deferred (message : T) (asked : Worker)
| Handled (message : T) (asked : Worker) (calls : list Call).

Definition entry_message (e : Entry) : T :=
  match e with
  | Deferred m _ | Handled m _ _ => m
  end.

Definition entry_asked (e : Entry) : Worker :=
  match e with
  | Deferred _ s | Handled _ s _ => s
  end.

(** [for (const handler of hs) await handler(message)]: an invocation that
    raises is propagated by [await], so that the handlers after it are not
    invoked. *)
Fixpoint run_handlers (hs : list HandlerId) (message : T) (w : Worker)
  : Outcome * list Call :=
  match hs with
  | [] => (Returned w, [])
  | h :: hs' =>
      match run h message w with
      | Returned w1 =>
          let '(o, cs) := run_handlers hs' message w1 in
          (o, mkCall h message w (Returned w1) :: cs)
      | Raised w1 => (Raised w1, [mkCall h message w (Raised w1)])
      end
  end.

(** The [else] branch of the loop body: the global handlers, then the
    handlers under [getKey(message)] when [getKey] is configured. *)
Definition handle (message : T) (w : Worker) : Outcome * list Call :=
  match run_handlers (default [] (handlers w !! ANY)) message w with
  | (Raised w1, cs1) => (Raised w1, cs1)
  | (Returned w1, cs1) =>
      match getKey opts with
      | None => (Returned w1, cs1)
      | Some gk =>
          let '(o, cs2) :=
            run_handlers (default [] (handlers w1 !! Some (gk message))) message w1 in
          (o, cs1 ++ cs2)
      end
  end.

(** [this.opts.shouldDefer?.(message)] *)
Definition defers (w : Worker) (message : T) : bool :=
  match shouldDefer opts with
  | None => false
  | Some p => p w message
  end.

(** The loop [for (let i = 0; i < 50; i++)] with [n] iterations left. There
    is no [try] in [#doWork]: an invocation that raises ends the loop. *)
Fixpoint doWork_loop (n : nat) (w : Worker) : Outcome * list Entry :=
  match n with
  | O => (Returned w, [])
  | S n' =>
      match buffer w with
      | [] => (Returned w, [])
      | message :: rest =>
          let w1 := set_buffer rest w in
          if defers w1 message then
            let '(o, log) :=
              doWork_loop n' (set_buffer (buffer w1 ++ [message]) w1) in
            (o, Deferred message w1 :: log)
          else
            match handle message w1 with
            | (Raised w2, cs) => (Raised w2, [Handled message w1 cs])
            | (Returned w2, cs) =>
                let '(o, log) := doWork_loop n' w2 in
                (o, Handled message w1 cs :: log)
            end
      end
  end.

(** [#doWork]: one processing cycle, with the state it leaves. When the
    loop ends normally, [this.timeout = undefined] and [#enqueueWork()]
    follow; when an invocation raised, the async function is left at that
    point and neither is reached. *)
Definition doWork (w : Worker) : Worker * list Entry :=
  match doWork_loop 50 w with
  | (Returned w1, log) => (enqueueWork (set_timeout None w1), log)
  | (Raised w1, log) => (w1, log)
  end.

(** The runtime fires the oldest armed timer, which runs [#doWork]. *)
Definition fire (w : Worker) : option (Worker * list Entry) :=
  match armed w with
  | [] => None
  | _ :: rest => Some (doWork (set_armed rest w))
  end.

(** A cycle is scheduled when one of the worker's timers is armed. *)
Definition cycle_scheduled (w : Worker) : Prop := armed w ≠ [].

(** The messages that a cycle handed to handlers, and those it deferred. *)
Definition handled_messages (log : list Entry) : list T :=
  omap (λ e, match e with Handled m _ _ => Some m | Deferred _ _ => None end) log.

Definition deferred_messages (log : list Entry) : list T :=
  omap (λ e, match e with Deferred m _ => Some m | Handled _ _ _ => None end) log.

(** The handler invocations of a cycle, in the order they were made. *)
Definition calls_of (log : list Entry) : list Call :=
  flat_map (λ e, match e with Handled _ _ cs => cs | Deferred _ _ => [] end) log.


End Cycle.

End Worker.

End Worker.

(** * Part II: publish thunks ([packages/app/src/thunk.ts]) *)

Module Thunk.

(** ** Events *)

(** A signed event, as carried in the [wrap] field of an unwrapped rumor. *)
Record SignedEvent := mkSigned {
  s_id : string;
  s_pubkey : string;
  s_created_at : Z;
  s_kind : Z;
  s_tags : list (list string);
  s_content : string;
  s_sig : string
}.

(** [ThunkEvent = EventTemplate | StampedEvent | OwnedEvent | TrustedEvent]:
    a template whose further fields are filled in stage by stage. *)
Record Event := mkEvent {
  kind : Z;
  tags : list (list string);
  content : string;
  created_at : option Z;
  pubkey : option string;
  id : option string;
  sig : option string;
  wrap : option SignedEvent
}.

Definition of_signed (s : SignedEvent) : Event :=
  mkEvent (s_kind s) (s_tags s) (s_content s) (Some (s_created_at s))
          (Some (s_pubkey s)) (Some (s_id s)) (Some (s_sig s)) None.

Definition set_sig (g : option string) (e : Event) : Event :=
  mkEvent (kind e) (tags e) (content e) (created_at e) (pubkey e) (id e) g (wrap e).

(** A property read [event.id] or [event.pubkey] of a field that is not
    there yields [undefined], which prints as such when used as a key or
    in a template string. *)
Definition event_id (e : Event) : string := default "undefined" (id e).
Definition event_pubkey (e : Event) : string := default "undefined" (pubkey e).

(** The completion stages [stamp], [own], [hash] of [@welshman/signer] and
    the guards [isStampedEvent], [isOwnedEvent], [isHashedEvent] of
    [@welshman/util] are imported by [thunk.ts]; they are an interface of
    the embedding. [stamp] takes the clock reading it defaults to. *)
Class EventStages := {
  stamp : Z → Event → Event;
  own : Event → string → Event;
  hash : Event → Event;
  isStampedEvent : Event → bool;
  isOwnedEvent : Event → bool;
  isHashedEvent : Event → bool
}.

(** What [prepEvent] relies on: a stage establishes its own guard and
    keeps the guards of the stages before it. *)
Class EventStagesLaws `{EventStages} : Prop := {
  stamp_stamped now e : isStampedEvent (stamp now e) = true;
  own_stamped e pk : isStampedEvent e = true → isStampedEvent (own e pk) = true;
  own_owned e pk : isStampedEvent e = true → isOwnedEvent (own e pk) = true;
  hash_stamped e : isStampedEvent e = true → isStampedEvent (hash e) = true;
  hash_owned e : isOwnedEvent e = true → isOwnedEvent (hash e) = true;
  hash_hashed e : isOwnedEvent e = true → isHashedEvent (hash e) = true
}.

(** [prepEvent]; [now] is the clock and [pk] the session's [get(pubkey)!]. *)
Definition prepEvent `{EventStages} (now : Z) (pk : string) (event : Event) : Event :=
  let event := if negb (isStampedEvent event) then stamp now event else event in
  let event := if negb (isOwnedEvent event) then own event pk else event in
  let event := if negb (isHashedEvent event) then hash event else event in
  event.

Section SpecStages.

(** The digest of the completed fields, an opaque function. *)
Variable getHash : string → Z → Z → list (list string) → string → string.

(** Modelled from the spec: [isStampedEvent] of [@welshman/util] is not
    under src/; a stamped event "has a creation timestamp". *)
Definition spec_isStampedEvent (e : Event) : bool := bool_decide (is_Some (created_at e)).

(** Modelled from the spec: [isOwnedEvent] of [@welshman/util] is not under
    src/; an owned event "has a publisher identity". *)
Definition spec_isOwnedEvent (e : Event) : bool := bool_decide (is_Some (pubkey e)).

(** Modelled from the spec: [isHashedEvent] of [@welshman/util] is not
    under src/; a hashed event "has a deterministic identity derived from
    its completed fields". *)
Definition spec_isHashedEvent (e : Event) : bool := bool_decide (is_Some (id e)).

(** Modelled from the spec: [stamp] of [@welshman/signer] is not under
    src/; stamping gives the event its creation timestamp. *)
Definition spec_stamp (now : Z) (e : Event) : Event :=
  mkEvent (kind e) (tags e) (content e) (Some now) (pubkey e) (id e) (sig e) (wrap e).

(** Modelled from the spec: [own] of [@welshman/signer] is not under src/;
    owning gives the event its publisher identity. *)
Definition spec_own (e : Event) (pk : string) : Event :=
  mkEvent (kind e) (tags e) (content e) (created_at e) (Some pk) (id e) (sig e) (wrap e).

(** Modelled from the spec: [hash] of [@welshman/signer] is not under src/;
    hashing gives the event the identity derived from its completed fields. *)
Definition spec_hash (e : Event) : Event :=
  mkEvent (kind e) (tags e) (content e) (created_at e) (pubkey e)
          (Some (getHash (event_pubkey e) (default 0%Z (created_at e)) (kind e)
                         (tags e) (content e)))
          (sig e) (wrap e).

Definition spec_stages : EventStages :=
  Build_EventStages spec_stamp spec_own spec_hash
                    spec_isStampedEvent spec_isOwnedEvent spec_isHashedEvent.

End SpecStages.

(** Modelled from the spec: [isSignedEvent] of [@welshman/util] is not
    under src/; a signed event "has a cryptographic proof over the hashed
    form". *)
Definition isSignedEvent (e : Event) : bool := bool_decide (is_Some (sig e)).

(** Modelled from the spec: [isUnwrappedEvent] of [@welshman/util] is not
    under src/; a "sealed/wrapped envelope" carries its outer transport
    envelope, here the [wrap] field that [processItem] reads. *)
Definition isUnwrappedEvent (e : Event) : bool := bool_decide (is_Some (wrap e)).

(** ** Statuses *)

(** Modelled from the spec: the enumeration [PublishStatus] of
    [@welshman/net] is not under src/; "kind ∈ {Pending, Success, Failure,
    Timeout, Aborted}", the five members that [thunk.ts] destructures. *)
Inductive PublishStatus := Pending | Success | Failure | Timeout | Aborted.

#[global] Instance PublishStatus_eq_dec : EqDecision PublishStatus.
Proof. solve_decision. Defined.

Record ThunkStatus := mkStatus {
  message : string;
  status : PublishStatus
}.

#[global] Instance ThunkStatus_eq_dec : EqDecision ThunkStatus.
Proof. solve_decision. Defined.

(** [ThunkStatusByUrl = Record<string, ThunkStatus>] *)
Abbreviation ThunkStatusByUrl := (gmap string ThunkStatus).

(** ** Helpers of [@welshman/lib] on arrays and objects *)

(** Modelled from the spec: [uniq] of [@welshman/lib] is not under src/;
    "every endpoint identifier observed across any member" is visited
    once, in the order of first occurrence. *)
Fixpoint uniq (l : list string) : list string :=
  match l with
  | [] => []
  | x :: l' => x :: filter (λ y, y ≠ x) (uniq l')
  end.

(** Modelled from the spec: [assoc] of [@welshman/lib] is not under src/;
    "endpoint status = Success" sets the entry of one endpoint and leaves
    the others. *)
Definition assoc {V} (k : string) (v : V) (o : gmap string V) : gmap string V :=
  <[k := v]> o.

(** Modelled from the spec: [dissoc] of [@welshman/lib] is not under src/;
    "removes the unit's registry entry". *)
Definition dissoc {V} (k : string) (o : gmap string V) : gmap string V :=
  delete k o.

(** Modelled from the spec: [fromPairs] of [@welshman/lib] is not under
    src/; "set every endpoint's status to Pending" builds the object that
    has one entry per pair. *)
Definition fromPairs {V} (pairs : list (string * V)) : gmap string V :=
  foldl (λ o p, <[p.1 := p.2]> o) ∅ pairs.

(** [Object.keys(s)] *)
Definition keys {V} (o : gmap string V) : list string := (map_to_list o).*1.

(** [Array.prototype.find] *)
Fixpoint find {A} (p : A → bool) (l : list A) : option A :=
  match l with
  | [] => None
  | x :: l' => if p x then Some x else find p l'
  end.

(** ** The merged status of [mergeThunks] *)

(** The array literal [[Aborted, Failure, Timeout, Pending, Success]]. *)
Definition severity : list PublishStatus :=
  [Aborted; Failure; Timeout; Pending; Success].

(** [statuses.map(s => s[url])] *)
Definition urlStatuses (statuses : list ThunkStatusByUrl) (url : string)
  : list (option ThunkStatus) :=
  map (λ s : ThunkStatusByUrl, s !! url) statuses.

(** [s => s?.status === status] *)
Definition has_status (st : PublishStatus) (s : option ThunkStatus) : bool :=
  match s with
  | Some x => bool_decide (status x = st)
  | None => false
  end.

(** [urlStatuses.find(s => s?.status === level)], the element of the
    mapped array at one severity level; [find] yields [undefined] when
    nothing matches. *)
Definition at_level (statuses : list ThunkStatusByUrl) (url : string)
    (level : PublishStatus) : option ThunkStatus :=
  mjoin (find (has_status level) (urlStatuses statuses url)).

(** [severity.map(status => urlStatuses.find(s => s?.status === status)).find(identity)]:
    the first element of the mapped array that is truthy, as every object is. *)
Definition thunkStatus (statuses : list ThunkStatusByUrl) (url : string)
  : option ThunkStatus :=
  mjoin (find (λ o : option ThunkStatus, bool_decide (is_Some o))
              (map (at_level statuses url) severity)).

(** The callback of [derived] in [mergeThunks]. *)
Definition mergedStatus (statuses : list ThunkStatusByUrl) : ThunkStatusByUrl :=
  foldl (λ (merged : ThunkStatusByUrl) url,
           match thunkStatus statuses url with
           | Some s => <[url := s]> merged
           | None => merged
           end)
        ∅ (uniq (flat_map keys statuses)).

(** ** Thunks and the state they live in *)

(** [delay] and [timeout] are optional numbers; [context] is opaque and
    only handed on to the broadcaster. *)
Record ThunkRequest := mkRequest {
  event : Event;
  relays : list string;
  delay : option Z;
  timeout : option Z
}.

(** A thunk owns three objects allocated by [makeThunk]: its
    [AbortController], its [Deferred] result and its [Writable] status.
    [tid] is their identity; their contents live in the state. *)
Record Thunk := mkThunk {
  tid : nat;
  thunk_event : Event;
  request : ThunkRequest
}.

(** A merged thunk owns the [AbortController] allocated by [mergeThunks];
    its [result] and [status] are derived from those of its members. *)
Record MergedThunk := mkMerged {
  mid : nat;
  thunks_of : list Thunk
}.

(** [Thunk | MergedThunk], the values of the registry [thunks]. *)
Inductive Registered :=
| Single (t : Thunk)
| Merged (m : MergedThunk).

(** The continuation of a dispatch at one of its suspension points, with
    the variables it closes over. *)
Inductive Task :=
| AwaitSign (t : Thunk)
| AwaitDelay (t : Thunk) (signedEvent : Event)
| Sending (t : Thunk) (signedEvent : Event).

Definition task_thunk (k : Task) : Thunk :=
  match k with
  | AwaitSign t | AwaitDelay t _ | Sending t _ => t
  end.

(** The objects of the module and of its collaborators: the name of the
    next object to allocate, the aborted signals and the events that the
    abort listeners of each controller remove, the contents of the status
    stores and of the resolved results, the suspended continuations, the
    registry [thunks], the repository, what the tracker was told, and the
    queue of [thunkQueue]. *)
Record State := mkState {
  next_id : nat;
  aborted : gset nat;
  abort_listeners : gmap nat (list string);
  statuses : gmap nat ThunkStatusByUrl;
  results : gmap nat ThunkStatusByUrl;
  tasks : gmap nat Task;
  thunks : gmap string Registered;
  repository : gmap string Event;
  tracker : list (string * string);
  queue : list Thunk
}.

(** The state in which the module is loaded. *)
Definition init : State := mkState 0 ∅ ∅ ∅ ∅ ∅ ∅ ∅ [] [].

Definition set_next_id (n : nat) (st : State) : State :=
  mkState n (aborted st) (abort_listeners st) (statuses st) (results st)
          (tasks st) (thunks st) (repository st) (tracker st) (queue st).

Definition set_aborted (a : gset nat) (st : State) : State :=
  mkState (next_id st) a (abort_listeners st) (statuses st) (results st)
          (tasks st) (thunks st) (repository st) (tracker st) (queue st).

Definition set_abort_listeners (l : gmap nat (list string)) (st : State) : State :=
  mkState (next_id st) (aborted st) l (statuses st) (results st)
          (tasks st) (thunks st) (repository st) (tracker st) (queue st).

Definition set_statuses (s : gmap nat ThunkStatusByUrl) (st : State) : State :=
  mkState (next_id st) (aborted st) (abort_listeners st) s (results st)
          (tasks st) (thunks st) (repository st) (tracker st) (queue st).

Definition set_results (r : gmap nat ThunkStatusByUrl) (st : State) : State :=
  mkState (next_id st) (aborted st) (abort_listeners st) (statuses st) r
          (tasks st) (thunks st) (repository st) (tracker st) (queue st).

Definition set_tasks (k : gmap nat Task) (st : State) : State :=
  mkState (next_id st) (aborted st) (abort_listeners st) (statuses st) (results st)
          k (thunks st) (repository st) (tracker st) (queue st).

Definition set_thunks (r : gmap string Registered) (st : State) : State :=
  mkState (next_id st) (aborted st) (abort_listeners st) (statuses st) (results st)
          (tasks st) r (repository st) (tracker st) (queue st).

Definition set_repository (r : gmap string Event) (st : State) : State :=
  mkState (next_id st) (aborted st) (abort_listeners st) (statuses st) (results st)
          (tasks st) (thunks st) r (tracker st) (queue st).

Definition set_tracker (r : list (string * string)) (st : State) : State :=
  mkState (next_id st) (aborted st) (abort_listeners st) (statuses st) (results st)
          (tasks st) (thunks st) (repository st) r (queue st).

Definition set_queue (q : list Thunk) (st : State) : State :=
  mkState (next_id st) (aborted st) (abort_listeners st) (statuses st) (results st)
          (tasks st) (thunks st) (repository st) (tracker st) q.

(** [get(thunk.status)]; the store starts as [writable({})]. *)
Definition status_of (t : Thunk) (st : State) : ThunkStatusByUrl :=
  default ∅ (statuses st !! tid t).

(** [thunk.status.set(v)] *)
Definition status_set (t : Thunk) (v : ThunkStatusByUrl) (st : State) : State :=
  set_statuses (<[tid t := v]> (statuses st)) st.

(** [thunk.status.update(f)] *)
Definition status_update (t : Thunk) (f : ThunkStatusByUrl → ThunkStatusByUrl)
    (st : State) : State :=
  status_set t (f (status_of t st)) st.

(** The value a thunk's [result] has resolved with, if it has. *)
Definition result_of (t : Thunk) (st : State) : option ThunkStatusByUrl :=
  results st !! tid t.

(** [thunk.result.resolve(v)]: a promise settles once. *)
Definition resolve (t : Thunk) (v : ThunkStatusByUrl) (st : State) : State :=
  match results st !! tid t with
  | Some _ => st
  | None => set_results (<[tid t := v]> (results st)) st
  end.

(** [thunk.controller.signal.aborted] *)
Definition is_aborted (c : nat) (st : State) : bool := bool_decide (c ∈ aborted st).

(** Modelled from the spec: the event store [repository] of [./core.js]
    is not under src/; it exposes "[publish(event)], [getEvent(id)],
    [removeEvent(id)]". *)
Definition repository_publish (e : Event) (st : State) : State :=
  set_repository (<[event_id e := e]> (repository st)) st.

Definition repository_removeEvent (i : string) (st : State) : State :=
  set_repository (delete i (repository st)) st.

(** Modelled from the spec: [tracker] of [./core.js] is not under src/;
    it keeps the (event id, endpoint) pairs it is told to [track]. *)
Definition tracker_track (i url : string) (st : State) : State :=
  set_tracker (tracker st ++ [(i, url)]) st.

(** [thunk.controller.signal.addEventListener("abort", () =>
    repository.removeEvent(thunk.event.id))] *)
Definition add_abort_listener (t : Thunk) (st : State) : State :=
  set_abort_listeners
    (<[tid t := default [] (abort_listeners st !! tid t) ++ [event_id (thunk_event t)]]>
       (abort_listeners st)) st.

(** [thunk.controller.abort()]: the first call marks the signal and runs
    the listeners in the order they were added; later calls do nothing. *)
Definition controller_abort (c : nat) (st : State) : State :=
  if is_aborted c st then st
  else foldl (λ s i, repository_removeEvent i s)
             (set_aborted ({[c]} ∪ aborted st) st)
             (default [] (abort_listeners st !! c)).

(** [mergedThunk.controller.abort()]: the listener added by [mergeThunks]
    aborts the controller of every member. *)
Definition merged_abort (m : MergedThunk) (st : State) : State :=
  if is_aborted (mid m) st then st
  else foldl (λ s t, controller_abort (tid t) s)
             (set_aborted ({[mid m]} ∪ aborted st) st)
             (thunks_of m).

(** ** Creating and registering thunks *)

(** [makeThunk]: the controller, the deferred result and the empty status
    store are the fresh object [next_id]. *)
Definition makeThunk `{EventStages} (now : Z) (pk : string) (request : ThunkRequest)
    (st : State) : Thunk * State :=
  let event := prepEvent now pk (event request) in
  (mkThunk (next_id st) event request, set_next_id (S (next_id st)) st).

(** [requests.map(makeThunk)] *)
Fixpoint makeThunks `{EventStages} (now : Z) (pk : string)
    (requests : list ThunkRequest) (st : State) : list Thunk * State :=
  match requests with
  | [] => ([], st)
  | r :: rs =>
      let '(t, st1) := makeThunk now pk r st in
      let '(ts, st2) := makeThunks now pk rs st1 in
      (t :: ts, st2)
  end.

(** [mergeThunks]: allocates the controller of the aggregate. *)
Definition mergeThunks (thunks : list Thunk) (st : State) : MergedThunk * State :=
  (mkMerged (next_id st) thunks, set_next_id (S (next_id st)) st).

(** The [status] store of a merged thunk, [derived] from its members'. *)
Definition merged_status (m : MergedThunk) (st : State) : ThunkStatusByUrl :=
  mergedStatus (map (λ t, status_of t st) (thunks_of m)).

(** The [result] of a merged thunk: [Promise.all] of its members'. *)
Definition merged_result (m : MergedThunk) (st : State)
  : option (list ThunkStatusByUrl) :=
  mapM (λ t, result_of t st) (thunks_of m).

(** Modelled from the spec: [thunkQueue] is a [TaskQueue] of
    [@welshman/lib], which is not under src/; "caller submits a request →
    event is completed and enqueued on the Scheduler → Scheduler invokes
    dispatch". [thunkQueue.push] appends to the queue. *)
Definition thunkQueue_push (t : Thunk) (st : State) : State :=
  set_queue (queue st ++ [t]) st.

(** [publishThunk] *)
Definition publishThunk `{EventStages} (now : Z) (pk : string)
    (request : ThunkRequest) (st : State) : Thunk * State :=
  let '(thunk, st) := makeThunk now pk request st in
  let st := thunkQueue_push thunk st in
  let st := repository_publish (thunk_event thunk) st in
  let st := set_thunks (assoc (event_id (thunk_event thunk)) (Single thunk) (thunks st)) st in
  let st := add_abort_listener thunk st in
  (thunk, st).

(** The body of the loop of [publishThunks]. *)
Definition publish_member (mergedThunk : MergedThunk) (st : State) (thunk : Thunk)
  : State :=
  let st := thunkQueue_push thunk st in
  let st := repository_publish (thunk_event thunk) st in
  let st := set_thunks (assoc (event_id (thunk_event thunk)) (Merged mergedThunk)
                              (thunks st)) st in
  add_abort_listener thunk st.

(** [publishThunks] *)
Definition publishThunks `{EventStages} (now : Z) (pk : string)
    (requests : list ThunkRequest) (st : State) : MergedThunk * State :=
  let '(newThunks, st) := makeThunks now pk requests st in
  let '(mergedThunk, st) := mergeThunks newThunks st in
  (mergedThunk, foldl (publish_member mergedThunk) st newThunks).

(** [abortThunk] *)
Definition abortThunk (thunk : Thunk) (st : State) : State :=
  let st := controller_abort (tid thunk) st in
  let st := set_thunks (dissoc (event_id (thunk_event thunk)) (thunks st)) st in
  repository_removeEvent (event_id (thunk_event thunk)) st.

(** ** Dispatch: [processItem] of [thunkQueue] *)

(** The local function [fail]. *)
Definition fail (thunk : Thunk) (message : string) (st : State) : State :=
  status_set thunk
    (foldl (λ (status : ThunkStatusByUrl) url, <[url := mkStatus message Failure]> status)
           ∅ (relays (request thunk)))
    st.

(** Modelled from the spec: the signers of [./session.js] are not under
    src/; "a signer-lookup capability returning, per author identity, an
    optional asynchronous [sign(event) -> signedEvent]". What
    [await signer.sign(event)] comes back with is the signed event, or the
    string [String(e.error || e)] of what was thrown. *)
Inductive SignOutcome :=
| Signed (signedEvent : Event)
| Rejected (message : string).

(** Modelled from the spec: [MultiPublish] and [PublishEvent] of
    [@welshman/net] are not under src/; "a Broadcaster capability accepting
    [{event, endpoints, timeout}] and emitting the five lifecycle
    notifications". The arguments are those that the listeners of
    [processItem] take. *)
Inductive PublishEvent :=
| EvSuccess (id message url : string)
| EvFailure (id message url : string)
| EvTimeout (url : string)
| EvAborted (url : string)
| EvComplete.

(** The five listeners registered with [pub.on]. *)
Definition on_event (thunk : Thunk) (ev : PublishEvent) (st : State) : State :=
  match ev with
  | EvSuccess id message url =>
      status_update thunk (assoc url (mkStatus message Success))
                    (tracker_track id url st)
  | EvFailure id message url =>
      status_update thunk (assoc url (mkStatus message Failure)) st
  | EvTimeout url =>
      status_update thunk (assoc url (mkStatus "Publish timed out" Timeout)) st
  | EvAborted url =>
      status_update thunk (assoc url (mkStatus "Publish was aborted" Aborted)) st
  | EvComplete =>
      resolve thunk (status_of thunk st) st
  end.

(** [if (x)] on an optional number. *)
Definition truthy (x : option Z) : bool :=
  match x with
  | Some d => negb (d =? 0)%Z
  | None => false
  end.

(** From "Skip publishing if aborted" to the end of the continuation: the
    statuses become [Pending], the [MultiPublish] is created, the stored
    copy of the event receives the signature and the listeners are
    registered. *)
Definition send (thunk : Thunk) (signedEvent : Event) (st : State) : State :=
  if is_aborted (tid thunk) st then set_tasks (delete (tid thunk) (tasks st)) st
  else
    let st :=
      status_set thunk
        (fromPairs (map (λ url, (url, mkStatus "Sending your message..." Pending))
                        (relays (request thunk)))) st in
    let st :=
      set_repository (alter (set_sig (sig signedEvent)) (event_id signedEvent)
                            (repository st)) st in
    set_tasks (<[tid thunk := Sending thunk signedEvent]> (tasks st)) st.

(** From "We're guaranteed to have a signed event" on: wait when a delay
    is requested, else go on sending. *)
Definition after_sign (thunk : Thunk) (signedEvent : Event) (st : State) : State :=
  if truthy (delay (request thunk))
  then set_tasks (<[tid thunk := AwaitDelay thunk signedEvent]> (tasks st)) st
  else send thunk signedEvent st.

(** [processItem] together with the start of the continuation it leaves
    with [Promise.resolve().then]; [signer] tells whether
    [getSigner(getSession(event.pubkey))] finds a signer. *)
Definition processItem (signer : bool) (thunk : Thunk) (st : State) : State :=
  if is_aborted (tid thunk) st then st
  else
    let event :=
      if isUnwrappedEvent (thunk_event thunk)
      then from_option of_signed (thunk_event thunk) (wrap (thunk_event thunk))
      else thunk_event thunk in
    if negb (isSignedEvent event) then
      if negb signer
      then fail thunk ("No signer found for " +:+ event_pubkey event) st
      else set_tasks (<[tid thunk := AwaitSign thunk]> (tasks st)) st
    else after_sign thunk event st.

(** The continuation resumes after [await signer.sign(event)]. *)
Definition sign_settled (thunk : Thunk) (o : SignOutcome) (st : State) : State :=
  let st := set_tasks (delete (tid thunk) (tasks st)) st in
  match o with
  | Rejected message => fail thunk message st
  | Signed signedEvent => after_sign thunk signedEvent st
  end.

(** ** Executions *)

(** What can happen next: a call of the public interface, the scheduler
    handing the head of the queue to [processItem] (the [TaskQueue] is not
    under src/; it "invokes dispatch" on what was pushed, in queue order),
    or a suspended continuation being resumed by the signer, the timer or
    the broadcaster. *)
Inductive Action :=
| APublishThunk (now : Z) (pk : string) (request : ThunkRequest)
| APublishThunks (now : Z) (pk : string) (requests : list ThunkRequest)
| AAbort (thunk : Thunk)
| AMergedAbort (m : MergedThunk)
| AAbortThunk (thunk : Thunk)
| ADispatch (signer : bool)
| ASignSettled (c : nat) (o : SignOutcome)
| ADelayElapsed (c : nat)
| ANotify (c : nat) (ev : PublishEvent).

(** Only objects that have been allocated can be operated on. *)
Definition allocated (c : nat) (st : State) : bool := bool_decide (c < next_id st).

Definition step `{EventStages} (a : Action) (st : State) : State :=
  match a with
  | APublishThunk now pk request => (publishThunk now pk request st).2
  | APublishThunks now pk requests => (publishThunks now pk requests st).2
  | AAbort thunk =>
      if allocated (tid thunk) st then controller_abort (tid thunk) st else st
  | AMergedAbort m =>
      if allocated (mid m) st && forallb (λ t, allocated (tid t) st) (thunks_of m)
      then merged_abort m st else st
  | AAbortThunk thunk =>
      if allocated (tid thunk) st then abortThunk thunk st else st
  | ADispatch signer =>
      match queue st with
      | [] => st
      | thunk :: rest => processItem signer thunk (set_queue rest st)
      end
  | ASignSettled c o =>
      match tasks st !! c with
      | Some (AwaitSign thunk) => sign_settled thunk o st
      | _ => st
      end
  | ADelayElapsed c =>
      match tasks st !! c with
      | Some (AwaitDelay thunk signedEvent) => send thunk signedEvent st
      | _ => st
      end
  | ANotify c ev =>
      match tasks st !! c with
      | Some (Sending thunk _) => on_event thunk ev st
      | _ => st
      end
  end.

Definition run `{EventStages} (actions : list Action) (st : State) : State :=
  foldl (λ s a, step a s) st actions.

(** ** Well-formed states and what is observed of a thunk *)

(** What every state reached from [init] satisfies: objects are named
    below [next_id]; a thunk is queued at most once; a continuation is kept
    under the name of its thunk; and a thunk that has a continuation, a
    status or a result has left the queue. *)
Record wf (st : State) : Prop := mk_wf {
  wf_aborted : ∀ c, c ∈ aborted st → c < next_id st;
  wf_queue : ∀ t, t ∈ queue st → tid t < next_id st;
  wf_queue_nodup : NoDup (tid <$> queue st);
  wf_tasks : ∀ k task, tasks st !! k = Some task →
               tid (task_thunk task) = k ∧ k < next_id st ∧ k ∉ tid <$> queue st;
  wf_statuses : ∀ k, is_Some (statuses st !! k) →
                  k < next_id st ∧ k ∉ tid <$> queue st;
  wf_results : ∀ k, is_Some (results st !! k) →
                 k < next_id st ∧ k ∉ tid <$> queue st
}.

(** Nothing is left to run for the thunk named [c]: it has no suspended
    continuation, and if it is still queued its signal is aborted, so that
    [processItem] will return at once. *)
Definition settled (c : nat) (st : State) : Prop :=
  c < next_id st
  ∧ tasks st !! c = None
  ∧ (c ∈ tid <$> queue st → c ∈ aborted st).

(** The status of one endpoint in the status store of the thunk named [c]. *)
Definition status_at (c : nat) (url : string) (st : State) : option ThunkStatus :=
  default ∅ (statuses st !! c) !! url.

(** The statuses of an endpoint observed after each action of an execution. *)
Fixpoint observed `{EventStages} (c : nat) (url : string) (actions : list Action)
    (st : State) : list (option ThunkStatus) :=
  match actions with
  | [] => []
  | a :: rest => status_at c url (step a st) :: observed c url rest (step a st)
  end.

(** One observation after another: no change, absent to Pending, Pending
    to a terminal kind and, when [direct] is set, absent to Failure. *)
Definition transition_ok (direct : bool) (a b : option ThunkStatus) : bool :=
  bool_decide (a = b)
  || match a, b with
     | None, Some s =>
         bool_decide (status s = Pending)
         || (direct && bool_decide (status s = Failure))
     | Some s, Some s' =>
         bool_decide (status s = Pending) && negb (bool_decide (status s' = Pending))
     | _, _ => false
     end.

Fixpoint monotone (direct : bool) (prev : option ThunkStatus)
    (trace : list (option ThunkStatus)) : bool :=
  match trace with
  | [] => true
  | o :: rest => transition_ok direct prev o && monotone direct o rest
  end.

(** The endpoint that a notification reports a terminal status for. *)
Definition terminal_url (ev : PublishEvent) : option string :=
  match ev with
  | EvSuccess _ _ url | EvFailure _ _ url | EvTimeout url | EvAborted url => Some url
  | EvComplete => None
  end.

(** The endpoints reported to the thunk named [c] in an execution. *)
Definition notified (c : nat) (actions : list Action) : list string :=
  omap (λ a, match a with
             | ANotify c' ev => if decide (c' = c) then terminal_url ev else None
             | _ => None
             end) actions.

(** Modelled from the spec: [MultiPublish] of [@welshman/net] is not under
    src/; "every requested endpoint eventually reaches exactly one terminal
    kind": it reports each endpoint at most once, and only endpoints it
    was given. *)
Definition disciplined (c : nat) (relays : list string) (actions : list Action) : Prop :=
  NoDup (notified c actions) ∧ ∀ url, url ∈ notified c actions → url ∈ relays.

(** ** How one step relates two states *)

(** [st'] differs from [st] at most in what belongs to the thunk named
    [k], that is its status, its result and its continuation, and in the
    repository and the tracker. *)
Definition local_to (k : nat) (st st' : State) : Prop :=
  next_id st' = next_id st
  ∧ aborted st' = aborted st
  ∧ queue st' = queue st
  ∧ (∀ j, j ≠ k → statuses st' !! j = statuses st !! j
                 ∧ results st' !! j = results st !! j
                 ∧ tasks st' !! j = tasks st !! j)
  ∧ (∀ task, tasks st' !! k = Some task → tid (task_thunk task) = k).

(** [st'] has the new thunks [ts] queued behind those of [st], and the
    same statuses, results and continuations. *)
Definition extends_queue (ts : list Thunk) (st st' : State) : Prop :=
  next_id st ≤ next_id st'
  ∧ aborted st' = aborted st
  ∧ statuses st' = statuses st
  ∧ results st' = results st
  ∧ tasks st' = tasks st
  ∧ queue st' = queue st ++ ts
  ∧ (∀ t, t ∈ ts → next_id st ≤ tid t < next_id st')
  ∧ NoDup (tid <$> ts).

(** [st'] has more signals aborted than [st], and the same queue,
    statuses, results and continuations. *)
Definition more_aborted (st st' : State) : Prop :=
  next_id st' = next_id st
  ∧ aborted st ⊆ aborted st'
  ∧ (∀ c, c ∈ aborted st' → c < next_id st)
  ∧ statuses st' = statuses st
  ∧ results st' = results st
  ∧ tasks st' = tasks st
  ∧ queue st' = queue st.

(** Where the dispatch of thunk [t] stands, and what the status of [url]
    can be there; [remaining] are the endpoints that the broadcaster has
    yet to report. *)
Inductive phase (t : Thunk) (url : string) (remaining : list string) (st : State)
  : Prop :=
| ph_queued :
    t ∈ queue st → phase t url remaining st
| ph_sign :
    tasks st !! tid t = Some (AwaitSign t) → statuses st !! tid t = None →
    phase t url remaining st
| ph_delay signedEvent :
    tasks st !! tid t = Some (AwaitDelay t signedEvent) →
    statuses st !! tid t = None →
    phase t url remaining st
| ph_sending signedEvent :
    tasks st !! tid t = Some (Sending t signedEvent) →
    match status_at (tid t) url st with
    | None => url ∉ relays (request t)
    | Some s => status s = Pending ∨ url ∉ remaining
    end →
    phase t url remaining st
| ph_settled :
    settled (tid t) st → phase t url remaining st.

(** ** Walking nested thunks *)

(** What [walkThunks] is given: a thunk, or a merged thunk, whose [thunks]
    are told apart at run time by [isMergedThunk] and so may be merged
    thunks themselves. *)
#[local] Set Warnings "-register-all".
Inductive Node :=
| Leaf (t : Thunk)
| Branch (controller : nat) (thunks : list Node).

(** [isMergedThunk]: [Boolean(thunk.thunks)]; an array is truthy even when
    it is empty, and a thunk has no such field. *)
Definition isMergedThunk (n : Node) : bool :=
  match n with
  | Leaf _ => false
  | Branch _ _ => true
  end.

(** One turn of the loop of [walkThunks], with what it yields in all. *)
Fixpoint walkThunk (n : Node) : list Thunk :=
  match n with
  | Leaf t => [t]
  | Branch _ thunks => flat_map walkThunk thunks
  end.

(** [walkThunks]: the thunks that the generator yields, in order. *)
Definition walkThunks (thunks : list Node) : list Thunk :=
  flat_map walkThunk thunks.

(** A value of the registry, as [walkThunks] sees it. *)
Definition node_of (r : Registered) : Node :=
  match r with
  | Single t => Leaf t
  | Merged m => Branch (mid m) (Leaf <$> thunks_of m)
  end.

(** ** What the tracker is told *)

(** The (event id, endpoint) pairs of the Success notifications of an
    execution. *)
Definition reported_successes (actions : list Action) : list (string * string) :=
  omap (λ a, match a with
             | ANotify _ (EvSuccess i _ url) => Some (i, url)
             | _ => None
             end) actions.

(** ** The life of a thunk *)

(** Every relay of the request has an entry in [s]. *)
Definition covers (t : Thunk) (s : ThunkStatusByUrl) : Prop :=
  ∀ url, url ∈ relays (request t) → is_Some (s !! url).

(** The status mapping that [fail] sets. *)
Definition failed_with (t : Thunk) (message : string) (s : ThunkStatusByUrl) : Prop :=
  ∀ url, s !! url = if decide (url ∈ relays (request t))
                    then Some (mkStatus message Failure) else None.

(** The life of a thunk from the queue on, with what its status store and
    its result hold at each place. [sendable] tells whether the thunk can
    still be handed to the broadcaster. *)
Inductive lifecycle (sendable : bool) (t : Thunk) (st : State) : Prop :=
| lc_queued :
    t ∈ queue st → lifecycle sendable t st
| lc_sign :
    tasks st !! tid t = Some (AwaitSign t) →
    statuses st !! tid t = None → results st !! tid t = None →
    lifecycle sendable t st
| lc_delay signedEvent :
    tasks st !! tid t = Some (AwaitDelay t signedEvent) →
    statuses st !! tid t = None → results st !! tid t = None →
    lifecycle sendable t st
| lc_sending signedEvent s :
    sendable = true →
    tasks st !! tid t = Some (Sending t signedEvent) →
    statuses st !! tid t = Some s → covers t s →
    (∀ r, results st !! tid t = Some r → covers t r) →
    lifecycle sendable t st
| lc_failed message s :
    settled (tid t) st →
    statuses st !! tid t = Some s → failed_with t message s →
    results st !! tid t = None →
    lifecycle sendable t st
| lc_dropped :
    settled (tid t) st → tid t ∈ aborted st →
    statuses st !! tid t = None → results st !! tid t = None →
    lifecycle sendable t st.

End Thunk.

(** * Part III: concrete workers, requests and executions *)

Module Examples.

Import Worker.

(** A worker on numbers whose environment is one flag. Message [1] is
    deferred until the flag is raised, and the handler raises it when it is
    given message [2]:
    [shouldDefer: x => x === 1 && !ready] and
    [addGlobalHandler(x => { if (x === 2) ready = true })]. *)
Definition flag_opts : @WorkerOpts nat nat bool _ _ :=
  mkOpts None (Some (λ w x, (x =? 1) && negb (env w))).

Definition flag_run (h : HandlerId) (x : nat) (w : @Worker nat nat bool _ _)
  : @Outcome nat nat bool _ _ :=
  Returned (if x =? 2 then set_env true w else w).

Definition flag_worker : @Worker nat nat bool _ _ :=
  push 2 (push 1 (addGlobalHandler 0 (init false))).

(** The same worker with messages [1] and [3] pushed: nothing raises the
    flag, and message [1] is deferred every time it is taken. *)
Definition waiting_worker : @Worker nat nat bool _ _ :=
  push 3 (push 1 (addGlobalHandler 0 (init false))).

(** A worker whose deferral predicate looks at the message only:
    [shouldDefer: x => x === 1], with a handler that does nothing. *)
Definition pure_opts : @WorkerOpts nat nat unit _ _ :=
  mkOpts (Some (λ x, x)) (Some (λ _ x, x =? 1)).

Definition pure_run (h : HandlerId) (x : nat) (w : @Worker nat nat unit _ _)
  : @Outcome nat nat unit _ _ := Returned w.


(** A worker with one global handler and two handlers under key [2],
    registered in the order [5], [0], [7]; the key of a message is itself. *)
Definition keyed_regs : list (option nat * HandlerId) :=
  [(Some 2, 5); (None, 0); (Some 2, 7)].

Definition keyed_worker : @Worker nat nat unit _ _ :=
  push 2 (register keyed_regs (init tt)).

(** [const w = new Worker(); w.push(1); w.stop(); w.push(2)] *)
Definition stopped_worker : @Worker nat nat unit _ _ :=
  push 2 (stop (push 1 (init tt))).

(** A worker on numbers with one global handler and no deferral predicate,
    idle, and after three pushes. *)
Definition fifo_opts : @WorkerOpts nat nat unit _ _ := mkOpts (Some (λ x, x)) None.

Definition idle_worker : @Worker nat nat unit _ _ := addGlobalHandler 0 (init tt).

Definition fifo_worker : @Worker nat nat unit _ _ :=
  push 3 (push 2 (push 1 idle_worker)).

(** [shouldDefer: x => x === 1] with only such messages buffered. *)
Definition deferring_worker : @Worker nat nat unit _ _ :=
  push 1 (push 1 idle_worker).

(** Two global handlers, of which the first throws:
    [addGlobalHandler(x => { throw new Error() })] and
    [addGlobalHandler(x => {})], and one message pushed. *)
Definition raising_regs : list (option nat * HandlerId) := [(None, 0); (None, 1)].

Definition raising_run (h : HandlerId) (x : nat) (w : @Worker nat nat unit _ _)
  : @Outcome nat nat unit _ _ :=
  if h =? 0 then Raised w else Returned w.

Definition raising_worker : @Worker nat nat unit _ _ :=
  push 1 (register raising_regs (init tt)).

Import Thunk.

(** A digest for the examples: the author and the content, joined. *)
Definition digest (pk : string) (created_at kind : Z) (tags : list (list string))
    (content : string) : string :=
  pk +:+ ":" +:+ content.

Definition stages : EventStages := spec_stages digest.

(** An event template, as an editor hands it to [publishThunk]. *)
Definition note : Event := mkEvent 1 [] "hello" None None None None None.

Definition other_note : Event := mkEvent 1 [] "again" None None None None None.

Definition req_a : ThunkRequest := mkRequest note ["wss://a"; "wss://b"] None None.

Definition req_b : ThunkRequest := mkRequest other_note ["wss://c"] None None.

(** [publishThunk(req_a)] in a new session, and the thunk it returns. *)
Definition published : Thunk * State :=
  @publishThunk stages 1700000000 "alice" req_a init.

(** The thunk is dispatched while no signer is found for its author. *)
Definition no_signer : State := @step stages (ADispatch false) published.2.

(** The thunk is dispatched, and the signer then rejects. *)
Definition signer_rejects : State :=
  @run stages [ADispatch true; ASignSettled 0 (Rejected "denied")] published.2.

(** The thunk is dispatched, signed and sent; relay a accepts the event
    and relay b never answers. *)
Definition signed_note : Event := set_sig (Some "signature") (thunk_event published.1).

Definition delivery : list Action :=
  [ADispatch true;
   ASignSettled 0 (Signed signed_note);
   ANotify 0 (EvSuccess "alice:hello" "saved" "wss://a");
   ANotify 0 (EvTimeout "wss://b");
   ANotify 0 EvComplete].

(** [publishThunks([req_a, req_b])] in a new session, and the merged thunk
    aborted right away. *)
Definition batch : MergedThunk * State :=
  @publishThunks stages 1700000000 "alice" [req_a; req_b] init.

Definition batch_aborted : State := merged_abort batch.1 batch.2.

(** Two members that disagree about one relay. *)
Definition two_statuses : list ThunkStatusByUrl :=
  [ {[ "wss://a" := mkStatus "saved" Success ]};
    {[ "wss://a" := mkStatus "Sending your message..." Pending ]} ].

(** The state after [delivery]. *)
Definition delivered : State := @run stages delivery published.2.

(** The same execution from the initial state, up to the Complete
    notification. *)
Definition almost_delivered : list Action :=
  [APublishThunk 1700000000 "alice" req_a;
   ADispatch true;
   ASignSettled 0 (Signed signed_note);
   ANotify 0 (EvSuccess "alice:hello" "saved" "wss://a");
   ANotify 0 (EvTimeout "wss://b")].

(** Both members of [batch] are dispatched, signed and sent, and both
    broadcasters complete. *)
Definition signed_other : Event :=
  set_sig (Some "signature") (@prepEvent stages 1700000000 "alice" other_note).

Definition batch_delivery : list Action :=
  [ADispatch true; ADispatch true;
   ASignSettled 0 (Signed signed_note);
   ASignSettled 1 (Signed signed_other);
   ANotify 0 (EvSuccess "alice:hello" "saved" "wss://a");
   ANotify 0 EvComplete;
   ANotify 1 EvComplete].

(** A second request that shares relay a with [req_a], and the batch of
    the two: both members are dispatched, signed and sent, and relay a
    accepts the event of the first member. *)
Definition req_c : ThunkRequest := mkRequest other_note ["wss://a"; "wss://c"] None None.

Definition overlap : MergedThunk * State :=
  @publishThunks stages 1700000000 "alice" [req_a; req_c] init.

Definition overlap_sent : State :=
  @run stages
    [ADispatch true; ADispatch true;
     ASignSettled 0 (Signed signed_note);
     ASignSettled 1 (Signed signed_other);
     ANotify 0 (EvSuccess "alice:hello" "saved" "wss://a")]
    overlap.2.

(** A request for an event that is signed already. *)
Definition signed_req : ThunkRequest := mkRequest signed_note ["wss://a"] None None.

(** The controller is aborted while the signer is working. *)
Definition abort_while_signing : list Action := [ADispatch true; AAbort published.1].

End Examples.

(** * Part IV: properties of the worker *)

Module WorkerProps.

Import Worker.

Section Props.

Context {T K W : Type} `{Countable K}.

Implicit Types (w : @Worker T K W _ _) (x : T).
Implicit Types (regs : list (option K * HandlerId)) (k : option K).

Lemma buffer_enqueueWork w : buffer (enqueueWork w) = buffer w.
Proof.
  unfold enqueueWork. destruct (timeout w); [done|].
  destruct (buffer w) eqn:E; [done|]. simpl. by rewrite E.
Qed.

Lemma buffer_push x w : buffer (push x w) = buffer w ++ [x].
Proof. unfold push. by rewrite buffer_enqueueWork. Qed.

Lemma buffer_stop w : buffer (stop w) = buffer w.
Proof. unfold stop, clearTimeout. by destruct (timeout w). Qed.

Lemma timeout_stop w : timeout (stop w) = timeout w.
Proof. unfold stop, clearTimeout. by destruct (timeout w) eqn:E. Qed.

Lemma armed_stop w id :
  timeout w = Some id → armed (stop w) = filter (λ j, j ≠ id) (armed w).
Proof. intros E. unfold stop. by rewrite E. Qed.

(** [push] leaves the timers alone whenever the [timeout] field is set,
    whether or not the timer it names is still armed. *)
Lemma push_timeout_set x w id :
  timeout w = Some id →
  armed (push x w) = armed w ∧ timeout (push x w) = Some id.
Proof. intros E. unfold push, enqueueWork. simpl. by rewrite E. Qed.

Lemma push_timeout_unset x w :
  timeout w = None →
  armed (push x w) = armed w ++ [next_timer w]
  ∧ timeout (push x w) = Some (next_timer w).
Proof.
  intros E. unfold push, enqueueWork. simpl. rewrite E.
  by destruct (buffer w).
Qed.

Section Cycle.

Variable opts : @WorkerOpts T K W _ _.
Variable run : HandlerId → T → @Worker T K W _ _ → @Outcome T K W _ _.

Lemma chained_app w cs1 w1 cs2 w2 :
  chained w cs1 w1 → chained w1 cs2 w2 → chained w (cs1 ++ cs2) w2.
Proof.
  revert w. induction cs1 as [|c cs1 IH]; simpl; intros w.
  - by intros ->.
  - intros [-> ?] ?. split; [done|]. by apply IH.
Qed.

(** The handlers of a list are invoked in order, up to the first
    invocation that raises. *)
Lemma run_handlers_spec hs x w :
  call_handler <$> (run_handlers run hs x w).2 `prefix_of` hs
  ∧ Forall (call_ok run x) (run_handlers run hs x w).2
  ∧ chained w (run_handlers run hs x w).2 (outcome_state (run_handlers run hs x w).1)
  ∧ (raised (run_handlers run hs x w).1 = false →
       call_handler <$> (run_handlers run hs x w).2 = hs
       ∧ Forall (λ c, call_raised c = false) (run_handlers run hs x w).2
       ∧ outcome_state (run_handlers run hs x w).1
         = foldl (λ s h, outcome_state (run h x s)) w hs)
  ∧ (raised (run_handlers run hs x w).1 = true →
       ∃ cs c, (run_handlers run hs x w).2 = cs ++ [c]
               ∧ call_outcome c = (run_handlers run hs x w).1
               ∧ Forall (λ c, call_raised c = false) cs).
Proof.
  revert w. induction hs as [|h hs IH]; intros w; cbn [run_handlers].
  - simpl. split_and!; [done|constructor|done| |done].
    intros _. split_and!; [done|constructor|done].
  - destruct (run h x w) as [w1|w1] eqn:Er.
    + specialize (IH w1). destruct (run_handlers run hs x w1) as [o cs].
      cbn [fst snd] in *. destruct IH as (I1 & I2 & I3 & I4 & I5).
      split_and!.
      * rewrite fmap_cons. by apply prefix_cons.
      * constructor; [|done]. by split.
      * by split.
      * intros Hr. destruct (I4 Hr) as (A & B & C).
        split_and!; [by rewrite fmap_cons; f_equal|by constructor|].
        cbn [foldl]. by rewrite Er.
      * intros Hr. destruct (I5 Hr) as (cs' & c & -> & Hc & Hf).
        exists (mkCall h x w (Returned w1) :: cs'), c.
        split_and!; [done|done|by constructor].
    + cbn [fst snd]. split_and!.
      * apply prefix_cons, prefix_nil.
      * constructor; [by split|constructor].
      * by split.
      * done.
      * intros _. exists [], (mkCall h x w (Raised w1)).
        split_and!; [done|done|constructor].
Qed.

Lemma handle_spec x w :
  let w1 := foldl (λ s h, outcome_state (run h x s)) w (default [] (handlers w !! ANY)) in
  let keyed := match getKey opts with
               | None => []
               | Some gk => default [] (handlers w1 !! Some (gk x))
               end in
  call_handler <$> (handle opts run x w).2 `prefix_of` default [] (handlers w !! ANY) ++ keyed
  ∧ Forall (call_ok run x) (handle opts run x w).2
  ∧ chained w (handle opts run x w).2 (outcome_state (handle opts run x w).1)
  ∧ (raised (handle opts run x w).1 = false →
       call_handler <$> (handle opts run x w).2 = default [] (handlers w !! ANY) ++ keyed
       ∧ Forall (λ c, call_raised c = false) (handle opts run x w).2
       ∧ outcome_state (handle opts run x w).1
         = foldl (λ s h, outcome_state (run h x s)) w1 keyed)
  ∧ (raised (handle opts run x w).1 = true →
       ∃ cs c, (handle opts run x w).2 = cs ++ [c]
               ∧ call_outcome c = (handle opts run x w).1
               ∧ Forall (λ c, call_raised c = false) cs).
Proof.
  intros w1 keyed. unfold handle.
  pose proof (run_handlers_spec (default [] (handlers w !! ANY)) x w)
    as (G1 & G2 & G3 & G4 & G5).
  destruct (run_handlers run (default [] (handlers w !! ANY)) x w) as [[wg|wg] cs1] eqn:Eg;
    cbn [fst snd outcome_state raised] in *.
  - destruct (G4 eq_refl) as (G6 & G7 & G8). fold w1 in G8. subst wg. subst keyed.
    destruct (getKey opts) as [gk|]; cbn [fst snd].
    + pose proof (run_handlers_spec (default [] (handlers w1 !! Some (gk x))) x w1)
        as (L1 & L2 & L3 & L4 & L5).
      destruct (run_handlers run (default [] (handlers w1 !! Some (gk x))) x w1)
        as [o cs2] eqn:Ek.
      cbn [fst snd] in *. split_and!.
      * rewrite fmap_app, G6. by apply prefix_app.
      * by apply Forall_app.
      * by eapply chained_app.
      * intros Hr. destruct (L4 Hr) as (A & B & C).
        split_and!; [by rewrite fmap_app, G6, A|by apply Forall_app|done].
      * intros Hr. destruct (L5 Hr) as (cs' & c & -> & Hc & Hf).
        exists (cs1 ++ cs'), c. split_and!; [by rewrite app_assoc|done|by apply Forall_app].
    + rewrite app_nil_r. split_and!; [by rewrite G6|done|done| |done].
      intros _. by split_and!.
  - split_and!; [by apply prefix_app_r|done|done|done|].
    intros _. by apply G5.
Qed.

Lemma register_lookup regs w k :
  default [] (handlers (register regs w) !! k)
  = default [] (handlers w !! k) ++ registered k regs.
Proof.
  revert w. induction regs as [|[k' h] regs IH]; intros w; simpl.
  - by rewrite app_nil_r.
  - unfold register in *. simpl. rewrite IH. unfold addHandler at 1. simpl.
    unfold registered. rewrite filter_cons. simpl.
    destruct (decide (k' = k)) as [->|Hne].
    + rewrite lookup_insert_eq. simpl. by rewrite <- app_assoc.
    + by rewrite lookup_insert_ne.
Qed.

Lemma registered_init regs (e : W) k :
  default [] (handlers (register regs (init e : @Worker T K W _ _)) !! k)
  = registered k regs.
Proof. rewrite register_lookup. simpl. by rewrite lookup_empty. Qed.

Lemma doWork_loop_S n w :
  doWork_loop opts run (S n) w
  = match buffer w with
    | [] => (Returned w, [])
    | message :: rest =>
        let w1 := set_buffer rest w in
        if defers opts w1 message then
          let '(o, log) :=
            doWork_loop opts run n (set_buffer (buffer w1 ++ [message]) w1) in
          (o, Deferred message w1 :: log)
        else
          match handle opts run message w1 with
          | (Raised w2, cs) => (Raised w2, [Handled message w1 cs])
          | (Returned w2, cs) =>
              let '(o, log) := doWork_loop opts run n w2 in
              (o, Handled message w1 cs :: log)
          end
    end.
Proof. reflexivity. Qed.

Lemma doWork_loop_length n w : length (doWork_loop opts run n w).2 ≤ n.
Proof.
  revert w. induction n as [|n IH]; intros w; [simpl; lia|].
  rewrite doWork_loop_S. destruct (buffer w) as [|m rest]; [simpl; lia|].
  cbv zeta. destruct (defers opts (set_buffer rest w) m).
  - match goal with |- context [doWork_loop opts run n ?s] =>
      specialize (IH s); destruct (doWork_loop opts run n s) end.
    simpl in *. lia.
  - destruct (handle opts run m (set_buffer rest w)) as [[w2|w2] cs]; [|simpl; lia].
    specialize (IH w2). destruct (doWork_loop opts run n w2). simpl in *. lia.
Qed.

Lemma handled_messages_length (log : list (@Entry T K W _ _)) :
  length (handled_messages log) ≤ length log.
Proof.
  induction log as [|[m s|m s cs] log IH]; simpl; [lia| |]; unfold handled_messages in *;
    simpl; lia.
Qed.

Lemma run_handlers_preserves (P : @Worker T K W _ _ → Prop) hs x w :
  (∀ h s, P s → P (outcome_state (run h x s))) → P w →
  P (outcome_state (run_handlers run hs x w).1).
Proof.
  intros Hrun. revert w. induction hs as [|h hs IH]; intros w Hw; cbn [run_handlers]; [done|].
  pose proof (Hrun h w Hw) as H1. destruct (run h x w) as [w1|w1]; [|done].
  specialize (IH w1 H1). by destruct (run_handlers run hs x w1).
Qed.

Lemma handle_preserves (P : @Worker T K W _ _ → Prop) x w :
  (∀ h s, P s → P (outcome_state (run h x s))) → P w →
  P (outcome_state (handle opts run x w).1).
Proof.
  intros Hrun Hw. unfold handle.
  pose proof (run_handlers_preserves P (default [] (handlers w !! ANY)) x w Hrun Hw) as H1.
  destruct (run_handlers run (default [] (handlers w !! ANY)) x w) as [[w1|w1] cs1]; [|done].
  cbn [fst outcome_state] in H1. destruct (getKey opts) as [gk|]; [|done].
  pose proof (run_handlers_preserves P (default [] (handlers w1 !! Some (gk x))) x w1 Hrun H1) as H2.
  by destruct (run_handlers run (default [] (handlers w1 !! Some (gk x))) x w1).
Qed.

(** The log tells what [shouldDefer] answered each time it was asked. *)
Lemma doWork_loop_asked n w e :
  e ∈ (doWork_loop opts run n w).2 →
  defers opts (entry_asked e) (entry_message e)
  = match e with Deferred _ _ => true | Handled _ _ _ => false end.
Proof.
  revert w. induction n as [|n IH]; intros w.
  - simpl. intros He. by apply elem_of_nil in He.
  - rewrite doWork_loop_S. destruct (buffer w) as [|m rest].
    { simpl. intros He. by apply elem_of_nil in He. }
    cbv zeta. destruct (defers opts (set_buffer rest w) m) eqn:Ed.
    + specialize (IH (set_buffer (buffer (set_buffer rest w) ++ [m]) (set_buffer rest w))).
      destruct (doWork_loop opts run n _) as [o log]. cbn [fst snd] in *.
      intros He. apply elem_of_cons in He as [->|He]; [done|by apply IH].
    + destruct (handle opts run m (set_buffer rest w)) as [[w2|w2] cs].
      * specialize (IH w2). destruct (doWork_loop opts run n w2) as [o log].
        cbn [fst snd] in *.
        intros He. apply elem_of_cons in He as [->|He]; [done|by apply IH].
      * cbn [fst snd]. intros He. by apply list_elem_of_singleton in He as ->.
Qed.

(** A message that the predicate defers each time the loop takes it is not
    handled by the loop, and stays queued when no handler takes it out. *)
Lemma doWork_loop_deferred n w x :
  (∀ e, e ∈ (doWork_loop opts run n w).2 → entry_message e = x →
        defers opts (entry_asked e) x = true) →
  (x ∉ handled_messages (doWork_loop opts run n w).2)
  ∧ ((∀ h y s, x ∈ buffer s → x ∈ buffer (outcome_state (run h y s))) →
     (x ∈ buffer w ∨ x ∈ deferred_messages (doWork_loop opts run n w).2) →
     x ∈ buffer (outcome_state (doWork_loop opts run n w).1)).
Proof.
  revert w. induction n as [|n IH]; intros w.
  - simpl. intros _. split; [by apply not_elem_of_nil|]. intros _ [?|Hin]; [done|].
    by apply elem_of_nil in Hin.
  - rewrite doWork_loop_S. destruct (buffer w) as [|m rest] eqn:Eb.
    { simpl. intros _. split; [by apply not_elem_of_nil|]. rewrite Eb.
      intros _ [?|Hin]; [done|]. by apply elem_of_nil in Hin. }
    cbv zeta. destruct (defers opts (set_buffer rest w) m) eqn:Ed.
    + specialize (IH (set_buffer (buffer (set_buffer rest w) ++ [m]) (set_buffer rest w))).
      destruct (doWork_loop opts run n _) as [o log]. cbn [fst snd] in *.
      intros Hlog. destruct IH as [IH1 IH2].
      { intros e He. apply Hlog. by right. }
      split; [done|]. intros Hrun Hin. apply IH2; [done|].
      unfold deferred_messages in Hin. simpl in Hin.
      rewrite elem_of_cons in Hin. rewrite elem_of_cons in Hin.
      simpl. rewrite elem_of_app, list_elem_of_singleton.
      destruct Hin as [[->|?]|[->|?]]; auto.
    + assert ((∀ e, e ∈ [Handled m (set_buffer rest w) []] → entry_message e = x →
                    defers opts (entry_asked e) x = true) → x ≠ m) as Hne.
      { intros Hl ->. specialize (Hl _ (list_elem_of_here _ _) eq_refl).
        simpl in Hl. congruence. }
      pose proof (handle_preserves (λ s, x ∈ buffer s) m (set_buffer rest w)) as Hh.
      destruct (handle opts run m (set_buffer rest w)) as [[w2|w2] cs];
        cbn [fst snd outcome_state] in *.
      * specialize (IH w2). destruct (doWork_loop opts run n w2) as [o log].
        cbn [fst snd] in *. intros Hlog.
        assert (x ≠ m) as Hxm.
        { intros ->. specialize (Hlog _ (list_elem_of_here _ _) eq_refl).
          simpl in Hlog. congruence. }
        destruct IH as [IH1 IH2].
        { intros e He. apply Hlog. by right. }
        split.
        -- unfold handled_messages in *. simpl. rewrite elem_of_cons. tauto.
        -- intros Hrun Hin. apply IH2; [done|].
           unfold deferred_messages in Hin. simpl in Hin.
           rewrite elem_of_cons in Hin.
           destruct Hin as [[?|Hin]|Hin]; [done| |by right].
           left. apply Hh; [by intros; apply Hrun|done].
      * intros Hlog.
        assert (x ≠ m) as Hxm.
        { intros ->. specialize (Hlog _ (list_elem_of_here _ _) eq_refl).
          simpl in Hlog. congruence. }
        split.
        -- unfold handled_messages. simpl. rewrite list_elem_of_singleton. done.
        -- intros Hrun Hin. unfold deferred_messages in Hin. simpl in Hin.
           rewrite elem_of_cons in Hin.
           destruct Hin as [[?|Hin]|Hin]; [done| |by apply elem_of_nil in Hin].
           apply Hh; [by intros; apply Hrun|done].
Qed.

Lemma doWork_fst_buffer w :
  buffer (doWork opts run w).1 = buffer (outcome_state (doWork_loop opts run 50 w).1).
Proof.
  unfold doWork. destruct (doWork_loop opts run 50 w) as [[w1|w1] log]; simpl; [|done].
  by rewrite buffer_enqueueWork.
Qed.

Lemma doWork_snd w : (doWork opts run w).2 = (doWork_loop opts run 50 w).2.
Proof. unfold doWork. by destruct (doWork_loop opts run 50 w) as [[w1|w1] log]. Qed.

(** C3 (amended): a cycle takes at most 50 messages from the head of the
    queue, so it handles at most 50; in every iteration, a message for
    which the deferral predicate holds when it is taken goes to the tail
    without being handled at that point, and the loop goes on with the
    iterations that are left, in which the message can be taken again. The
    log of the cycle tells what the predicate answered each time. If the
    predicate holds for the message each time the cycle takes it, the
    message is not handled in this cycle; and if moreover no handler takes
    the message out of the queue, it is in the queue right after the
    cycle. *)
Theorem doWork_cap_and_deferral w x :
  length (doWork opts run w).2 ≤ 50
  ∧ length (handled_messages (doWork opts run w).2) ≤ 50
  ∧ (∀ n rest, buffer w = x :: rest → defers opts (set_buffer rest w) x = true →
       let r := doWork_loop opts run n (set_buffer (rest ++ [x]) (set_buffer rest w)) in
       doWork_loop opts run (S n) w = (r.1, Deferred x (set_buffer rest w) :: r.2))
  ∧ (∀ e, e ∈ (doWork opts run w).2 →
       defers opts (entry_asked e) (entry_message e)
       = match e with Deferred _ _ => true | Handled _ _ _ => false end)
  ∧ ((∀ e, e ∈ (doWork opts run w).2 → entry_message e = x →
           defers opts (entry_asked e) x = true) →
       (x ∉ handled_messages (doWork opts run w).2)
       ∧ ((∀ h y s, x ∈ buffer s → x ∈ buffer (outcome_state (run h y s))) →
            x ∈ buffer w ∨ x ∈ deferred_messages (doWork opts run w).2 →
            x ∈ buffer (doWork opts run w).1)).
Proof.
  split_and!.
  - rewrite doWork_snd. apply doWork_loop_length.
  - etrans; [apply handled_messages_length|].
    rewrite doWork_snd. apply doWork_loop_length.
  - intros n rest Eb Ed. rewrite (doWork_loop_S n w), Eb.
    cbv zeta. rewrite Ed. cbn [buffer set_buffer].
    by destruct (doWork_loop opts run n _).
  - intros e. rewrite doWork_snd. apply doWork_loop_asked.
  - rewrite doWork_snd, doWork_fst_buffer. apply doWork_loop_deferred.
Qed.

(** C9 (amended): a message that is taken and not deferred is handed
    first to the handlers registered under [ANY], in the order of their
    registration, then, when [getKey] is configured, to the handlers found
    under the message's key, which are those registered under it in the
    order of their registration; every call starts from the state that the
    call before it left. When no call raises, all of these handlers are
    called. When a call raises, it is the last call: the handlers after it
    are not called, and the loop ends with this message. *)
Theorem handled_dispatch_order regs (e : W) w x rest n :
  handlers w = handlers (register regs (init e : @Worker T K W _ _)) →
  buffer w = x :: rest →
  defers opts (set_buffer rest w) x = false →
  let w0 := set_buffer rest w in
  let w1 := foldl (λ s h, outcome_state (run h x s)) w0 (registered ANY regs) in
  let keyed := match getKey opts with
               | None => []
               | Some gk => default [] (handlers w1 !! Some (gk x))
               end in
  ∃ calls o,
    handle opts run x w0 = (o, calls)
    ∧ (doWork_loop opts run (S n) w).2
      = Handled x w0 calls
        :: (if raised o then [] else (doWork_loop opts run n (outcome_state o)).2)
    ∧ call_handler <$> calls `prefix_of` registered ANY regs ++ keyed
    ∧ Forall (call_ok run x) calls
    ∧ chained w0 calls (outcome_state o)
    ∧ (raised o = false →
         call_handler <$> calls = registered ANY regs ++ keyed
         ∧ Forall (λ c, call_raised c = false) calls)
    ∧ (raised o = true →
         ∃ cs c, calls = cs ++ [c] ∧ call_outcome c = o
                 ∧ Forall (λ c, call_raised c = false) cs)
    ∧ (handlers w1 = handlers w →
       ∀ gk, getKey opts = Some gk → keyed = registered (Some (gk x)) regs).
Proof.
  intros Hh Eb Ed w0 w1 keyed.
  assert (handlers w0 = handlers w) as Hw0 by done.
  assert (default [] (handlers w0 !! ANY) = registered ANY regs) as Hany.
  { rewrite Hw0, Hh. apply registered_init. }
  pose proof (handle_spec x w0) as Hs. cbv zeta in Hs. rewrite Hany in Hs.
  fold w1 in Hs. fold keyed in Hs.
  destruct (handle opts run x w0) as [o calls] eqn:Eh. cbn [fst snd] in Hs.
  destruct Hs as (S1 & S2 & S3 & S4 & S5).
  exists calls, o. split_and!; try done.
  - rewrite doWork_loop_S, Eb. cbv zeta. rewrite Ed. fold w0. rewrite Eh.
    destruct o as [w2|w2]; cbn [raised outcome_state]; [|done].
    by destruct (doWork_loop opts run n w2).
  - intros Hr. by destruct (S4 Hr) as (? & ? & _).
  - intros Hsame gk Egk. subst keyed. rewrite Egk, Hsame, Hh.
    apply registered_init.
Qed.

End Cycle.

End Props.

Import Examples.

(** C3, as stated, fails: in the cycle that the timer of [flag_worker]
    starts, message [1] is deferred, message [2] is handled and raises the
    flag, and message [1], taken again in the third iteration of the same
    cycle, is handled; it is not in the queue after the cycle. *)
Lemma deferred_handled_in_same_cycle :
  ∃ w' log,
    fire flag_opts flag_run flag_worker = Some (w', log)
    ∧ ¬ (∀ x, x ∈ deferred_messages log →
              (x ∉ handled_messages log) ∧ x ∈ buffer w').
Proof.
  eexists _, _. split; [vm_compute; reflexivity|].
  intros Hc. destruct (Hc 1) as [Hn _].
  - vm_compute. apply list_elem_of_here.
  - apply Hn. vm_compute. apply list_elem_of_further, list_elem_of_here.
Qed.

Lemma doWork_cap_and_deferral_witness :
  let r := doWork flag_opts flag_run waiting_worker in
  length r.2 ≤ 50
  ∧ 3 ∈ handled_messages r.2
  ∧ (1 ∉ handled_messages r.2)
  ∧ 1 ∈ buffer r.1.
Proof.
  pose proof (doWork_cap_and_deferral flag_opts flag_run waiting_worker 1)
    as (Hcap & _ & _ & _ & Hdef).
  destruct Hdef as [Hnot Hin].
  { intros e He. vm_compute in He.
    repeat (apply elem_of_cons in He as [->|He];
            [intros Hm; first [discriminate Hm | reflexivity]|]).
    by apply elem_of_nil in He. }
  split_and!; [exact Hcap | | exact Hnot |].
  - vm_compute. apply list_elem_of_here.
  - apply Hin.
    + intros h y s Hs. unfold flag_run. simpl. by destruct (y =? 2).
    + left. vm_compute. apply list_elem_of_here.
Defined.

(** C4: evaluated on [push(1); stop(); push(2)] from a new worker. After
    [stop] the [timeout] field still holds the handle of the cleared timer,
    so the second [push] arms no timer: both messages are queued and no
    cycle is scheduled, nor can any be fired. *)
Theorem push_after_stop_not_scheduled :
  buffer stopped_worker = [1; 2]
  ∧ timeout stopped_worker = Some 1%positive
  ∧ armed stopped_worker = []
  ∧ ¬ cycle_scheduled stopped_worker
  ∧ ∀ opts run, fire opts run stopped_worker = None.
Proof. split_and!; try reflexivity. by intros Hs. Qed.

Lemma handled_dispatch_order_witness :
  ∃ calls o,
    handle pure_opts pure_run 2 (set_buffer [] keyed_worker) = (o, calls)
    ∧ call_handler <$> calls = [0; 5; 7].
Proof.
  destruct (handled_dispatch_order pure_opts pure_run keyed_regs tt keyed_worker 2 [] 0)
    as (calls & o & Hh & _ & _ & _ & _ & Hall & _); [reflexivity .. |].
  exists calls, o. split; [exact Hh|].
  apply Hall. vm_compute in Hh. by injection Hh as <- _.
Defined.

(** C9, as stated, fails: the first of the two global handlers of
    [raising_worker] throws, so that the message is handed to it and not to
    the second. *)
Lemma raising_handler_skips_the_rest :
  ∃ w' log,
    fire fifo_opts raising_run raising_worker = Some (w', log)
    ∧ ¬ (∀ x asked calls, Handled x asked calls ∈ log →
           call_handler <$> calls
           = registered ANY raising_regs ++ registered (Some x) raising_regs).
Proof.
  eexists _, _. split; [vm_compute; reflexivity|].
  intros Hc. specialize (Hc _ _ _ (list_elem_of_here _ _)).
  vm_compute in Hc. discriminate Hc.
Qed.

End WorkerProps.
(** * Part V: properties of the thunks *)

Module ThunkProps.

Import Thunk.

(** ** The merged status *)

Lemma elem_of_keys {V} (o : gmap string V) url : url ∈ keys o ↔ is_Some (o !! url).
Proof.
  unfold keys. rewrite list_elem_of_fmap. split.
  - intros [[k v] [-> Hin]]. apply elem_of_map_to_list in Hin. by exists v.
  - intros [v Hv]. exists (url, v). split; [done|]. by apply elem_of_map_to_list.
Qed.

Lemma elem_of_uniq l x : x ∈ uniq l ↔ x ∈ l.
Proof.
  induction l as [|y l IH]; simpl; [done|].
  rewrite !elem_of_cons, list_elem_of_filter, IH.
  destruct (decide (x = y)) as [->|Hne]; [tauto|]. tauto.
Qed.

Lemma elem_of_observed (statuses : list ThunkStatusByUrl) url :
  url ∈ uniq (flat_map keys statuses)
  ↔ ∃ s, s ∈ statuses ∧ is_Some (s !! url).
Proof.
  rewrite elem_of_uniq, list_elem_of_In, in_flat_map.
  split; intros [s [H1 H2]]; exists s.
  - by rewrite list_elem_of_In, <- elem_of_keys, list_elem_of_In.
  - by rewrite <- !list_elem_of_In, elem_of_keys.
Qed.

Lemma foldl_pick_lookup {V} (f : string → option V) l (m0 : gmap string V) url :
  foldl (λ (m : gmap string V) u,
           match f u with Some s => <[u := s]> m | None => m end) m0 l !! url
  = match (if decide (url ∈ l) then f url else None) with
    | Some s => Some s
    | None => m0 !! url
    end.
Proof.
  revert m0. induction l as [|u l IH]; intros m0.
  - simpl. destruct (decide (url ∈ [])) as [Hin|_]; [|done].
    by apply elem_of_nil in Hin.
  - cbn [foldl]. rewrite IH.
    destruct (decide (url ∈ l)) as [Hin|Hni];
      destruct (decide (url ∈ u :: l)) as [Hin'|Hni'].
    + destruct (f url) eqn:E; [done|]. destruct (f u) eqn:Eu; [|done].
      rewrite lookup_insert_ne; [done|]. intros ->. congruence.
    + exfalso. apply Hni'. by right.
    + apply elem_of_cons in Hin' as [->|?]; [|done].
      destruct (f u); [by rewrite lookup_insert_eq|done].
    + destruct (f u); [|done]. rewrite lookup_insert_ne; [done|].
      intros ->. apply Hni'. by left.
Qed.

Lemma mergedStatus_lookup (statuses : list ThunkStatusByUrl) url :
  mergedStatus statuses !! url
  = if decide (url ∈ uniq (flat_map keys statuses))
    then thunkStatus statuses url else None.
Proof.
  unfold mergedStatus. rewrite foldl_pick_lookup, lookup_empty.
  destruct (decide _); [|done]. by destruct (thunkStatus statuses url).
Qed.

Lemma find_Some {A} (p : A → bool) l x :
  find p l = Some x →
  ∃ i, l !! i = Some x ∧ p x = true ∧ ∀ j y, j < i → l !! j = Some y → p y = false.
Proof.
  induction l as [|a l IH]; simpl; [done|].
  destruct (p a) eqn:E.
  - intros [= ->]. exists 0. split_and!; [done..|]. intros; lia.
  - intros Hf. destruct (IH Hf) as (i & H1 & H2 & H3).
    exists (S i). split_and!; [done..|].
    intros [|j] y Hj; simpl; [by intros [= <-]|]. apply H3. lia.
Qed.

Lemma find_None {A} (p : A → bool) l :
  find p l = None ↔ ∀ x, x ∈ l → p x = false.
Proof.
  induction l as [|a l IH]; simpl.
  - split; [|done]. intros _ x Hx. by apply elem_of_nil in Hx.
  - destruct (p a) eqn:E.
    + split; [done|]. intros Hall. rewrite Hall in E; [done|]. by left.
    + rewrite IH. split.
      * intros Hall x Hx. apply elem_of_cons in Hx as [->|Hx]; auto.
      * intros Hall x Hx. apply Hall. by right.
Qed.

Lemma at_level_Some statuses url level st :
  at_level statuses url level = Some st →
  ∃ i s, statuses !! i = Some s ∧ s !! url = Some st ∧ status st = level
         ∧ ∀ j s' st', j < i → statuses !! j = Some s' → s' !! url = Some st' →
                       status st' ≠ level.
Proof.
  unfold at_level. destruct (find _ _) as [o|] eqn:Ef; [|done]. simpl. intros ->.
  apply find_Some in Ef as (i & Hi & Hp & Hbefore).
  unfold urlStatuses in Hi. rewrite list_lookup_fmap in Hi.
  destruct (statuses !! i) as [s|] eqn:Es; [|done]. simpl in Hi.
  exists i, s. split_and!; [done|congruence|by apply bool_decide_eq_true in Hp|].
  intros j s' st' Hj Hs' Hst'.
  specialize (Hbefore j (Some st') Hj). unfold urlStatuses in Hbefore.
  rewrite list_lookup_fmap, Hs' in Hbefore. simpl in Hbefore. rewrite Hst' in Hbefore.
  specialize (Hbefore eq_refl). by apply bool_decide_eq_false in Hbefore.
Qed.

Lemma at_level_None statuses url level :
  at_level statuses url level = None →
  ∀ s st, s ∈ statuses → s !! url = Some st → status st ≠ level.
Proof.
  unfold at_level. intros Hn s st Hs Hst.
  destruct (find _ _) as [o|] eqn:Ef.
  - simpl in Hn. subst o. by apply find_Some in Ef as (_ & _ & ? & _).
  - rewrite find_None in Ef. specialize (Ef (Some st)). simpl in Ef.
    apply (bool_decide_eq_false_1 (status st = level)), Ef. unfold urlStatuses.
    apply list_elem_of_fmap. exists s. by split.
Qed.

Lemma thunkStatus_levels statuses url :
  thunkStatus statuses url
  = mjoin (find (λ o : option ThunkStatus, bool_decide (is_Some o))
                (map (at_level statuses url) severity)).
Proof. reflexivity. Qed.

Lemma severity_complete level : level ∈ severity.
Proof. unfold severity. destruct level; set_solver. Qed.

Lemma thunkStatus_spec statuses url s0 st0 :
  s0 ∈ statuses → s0 !! url = Some st0 →
  ∃ k level st,
    severity !! k = Some level
    ∧ at_level statuses url level = Some st
    ∧ (∀ k' level', k' < k → severity !! k' = Some level' →
         at_level statuses url level' = None)
    ∧ thunkStatus statuses url = Some st.
Proof.
  intros Hs0 Hst0. rewrite thunkStatus_levels.
  destruct (find _ (map (at_level statuses url) severity)) as [o|] eqn:Ef.
  - apply find_Some in Ef as (k & Hk & Hp & Hbefore).
    apply bool_decide_eq_true in Hp as [st ->].
    change (map (at_level statuses url) severity)
      with (at_level statuses url <$> severity) in *.
    rewrite list_lookup_fmap in Hk.
    destruct (severity !! k) as [level|] eqn:Ek; [|done]. simpl in Hk.
    exists k, level, st. split_and!; [done|congruence| |done].
    intros k' level' Hlt Ek'.
    specialize (Hbefore k' (at_level statuses url level') Hlt).
    rewrite list_lookup_fmap, Ek' in Hbefore. specialize (Hbefore eq_refl).
    apply bool_decide_eq_false in Hbefore.
    destruct (at_level statuses url level'); [|done].
    exfalso. apply Hbefore. by eexists.
  - exfalso. rewrite find_None in Ef.
    specialize (Ef (at_level statuses url (status st0))).
    assert (at_level statuses url (status st0) = None) as Hn.
    { destruct (at_level statuses url (status st0)) eqn:E; [|done].
      rewrite bool_decide_eq_false in Ef. exfalso. apply Ef; [|by eexists].
      apply list_elem_of_fmap. exists (status st0). split; [done|].
      apply severity_complete. }
    by eapply at_level_None.
Qed.

(** What the callback of [derived] computes from the list of status
    mappings it is given: for an endpoint that occurs in one of them, the
    status found by scanning the levels in the order of the array literal,
    and the mappings in list order at the first level that has one. *)
Lemma mergedStatus_scan (statuses : list ThunkStatusByUrl) (url : string) :
  ((∃ s, s ∈ statuses ∧ is_Some (s !! url)) →
   ∃ k level i s st,
     [Aborted; Failure; Timeout; Pending; Success] !! k = Some level
     ∧ (∀ k' level' s' st',
          k' < k → [Aborted; Failure; Timeout; Pending; Success] !! k' = Some level' →
          s' ∈ statuses → s' !! url = Some st' → status st' ≠ level')
     ∧ statuses !! i = Some s ∧ s !! url = Some st ∧ status st = level
     ∧ (∀ j s' st', j < i → statuses !! j = Some s' → s' !! url = Some st' →
                    status st' ≠ level)
     ∧ mergedStatus statuses !! url = Some st)
  ∧ (∀ (s1 s2 : ThunkStatusByUrl) a b,
       s1 !! url = Some a → s2 !! url = Some b →
       (status a = Success → status b = Pending →
        mergedStatus [s1; s2] !! url = Some b ∧ mergedStatus [s2; s1] !! url = Some b)
       ∧ (status a = Success → status b = Aborted →
          mergedStatus [s1; s2] !! url = Some b ∧ mergedStatus [s2; s1] !! url = Some b)
       ∧ (status a = Failure → status b = Timeout →
          mergedStatus [s1; s2] !! url = Some a ∧ mergedStatus [s2; s1] !! url = Some a)).
Proof.
  split.
  - intros (s0 & Hs0 & st0 & Hst0).
    destruct (thunkStatus_spec statuses url s0 st0 Hs0 Hst0)
      as (k & level & st & Hk & Hat & Hbefore & Hts).
    apply at_level_Some in Hat as (i & s & Hi & Hst & Hlevel & Hfirst).
    exists k, level, i, s, st. split_and!; try done.
    + intros k' level' s' st' Hlt Hk' Hs' Hst'.
      eapply at_level_None; [by eapply Hbefore|done..].
    + rewrite mergedStatus_lookup, decide_True; [done|].
      apply elem_of_observed. exists s0. split; [done|by eexists].
  - intros s1 s2 [ma sa] [mb sb] H1 H2. simpl.
    assert (∀ l : list ThunkStatusByUrl, s1 ∈ l →
              mergedStatus l !! url = thunkStatus l url) as Hm.
    { intros l Hl. rewrite mergedStatus_lookup, decide_True; [done|].
      apply elem_of_observed. exists s1. split; [done|by eexists]. }
    rewrite !Hm by set_solver.
    unfold thunkStatus, at_level, urlStatuses. simpl. rewrite H1, H2.
    split_and!; intros -> ->; by split.
Qed.

(** C1: the status store of a merged thunk is derived from the status
    stores of its [thunks], which are the thunks given to [mergeThunks], in
    that order. For every merged thunk, in every state, and for an endpoint
    that occurs in the status mapping of some member, the merged view holds
    the status found by scanning the levels Aborted, Failure, Timeout,
    Pending, Success in this order: at the first level at which a member
    has a status for the endpoint, the status of the first such member in
    member order. So for two members, Success with Pending merges to
    Pending, Success with Aborted to Aborted, and Failure with Timeout to
    Failure, whichever member comes first. *)
Theorem merged_status_precedence (m : MergedThunk) (st : State) (url : string) :
  (∀ ts st0, thunks_of (mergeThunks ts st0).1 = ts)
  ∧ ((∃ t, t ∈ thunks_of m ∧ is_Some (status_of t st !! url)) →
     ∃ k level i t s,
       [Aborted; Failure; Timeout; Pending; Success] !! k = Some level
       ∧ (∀ k' level' t' s',
            k' < k → [Aborted; Failure; Timeout; Pending; Success] !! k' = Some level' →
            t' ∈ thunks_of m → status_of t' st !! url = Some s' → status s' ≠ level')
       ∧ thunks_of m !! i = Some t ∧ status_of t st !! url = Some s ∧ status s = level
       ∧ (∀ j t' s', j < i → thunks_of m !! j = Some t' →
                     status_of t' st !! url = Some s' → status s' ≠ level)
       ∧ merged_status m st !! url = Some s)
  ∧ (∀ c t1 t2 a b,
       status_of t1 st !! url = Some a → status_of t2 st !! url = Some b →
       (status a = Success → status b = Pending →
        merged_status (mkMerged c [t1; t2]) st !! url = Some b
        ∧ merged_status (mkMerged c [t2; t1]) st !! url = Some b)
       ∧ (status a = Success → status b = Aborted →
          merged_status (mkMerged c [t1; t2]) st !! url = Some b
          ∧ merged_status (mkMerged c [t2; t1]) st !! url = Some b)
       ∧ (status a = Failure → status b = Timeout →
          merged_status (mkMerged c [t1; t2]) st !! url = Some a
          ∧ merged_status (mkMerged c [t2; t1]) st !! url = Some a)).
Proof.
  split_and!.
  - done.
  - intros (t0 & Ht0 & Hs0).
    destruct (mergedStatus_scan ((λ t, status_of t st) <$> thunks_of m) url) as [Hscan _].
    destruct Hscan as (k & level & i & sm & s & Hk & Hbefore & Hi & Hs & Hl & Hfirst & Hm).
    { exists (status_of t0 st). split; [|done]. apply list_elem_of_fmap. by exists t0. }
    rewrite list_lookup_fmap in Hi.
    destruct (thunks_of m !! i) as [t|] eqn:Et; [|done]. simpl in Hi.
    injection Hi as <-.
    exists k, level, i, t, s. split_and!; try done.
    + intros k' level' t' s' Hlt Hk' Ht' Hs'.
      eapply (Hbefore k' level' (status_of t' st) s'); [done|done| |done].
      apply list_elem_of_fmap. by exists t'.
    + intros j t' s' Hlt Hj Hs'.
      eapply (Hfirst j (status_of t' st) s'); [done| |done].
      by rewrite list_lookup_fmap, Hj.
  - intros c t1 t2 a b Ha Hb.
    destruct (mergedStatus_scan [] url) as [_ Hpair].
    by apply (Hpair (status_of t1 st) (status_of t2 st) a b).
Qed.

(** ** Completing an event *)

Section Stages.

Context `{EventStagesLaws}.

Lemma prepEvent_complete now pk e :
  isStampedEvent (prepEvent now pk e) = true
  ∧ isOwnedEvent (prepEvent now pk e) = true
  ∧ isHashedEvent (prepEvent now pk e) = true.
Proof.
  unfold prepEvent.
  set (e1 := if negb (isStampedEvent e) then stamp now e else e).
  assert (isStampedEvent e1 = true) as H1.
  { subst e1. destruct (isStampedEvent e) eqn:E; simpl; [done|apply stamp_stamped]. }
  set (e2 := if negb (isOwnedEvent e1) then own e1 pk else e1).
  assert (isStampedEvent e2 = true ∧ isOwnedEvent e2 = true) as [H2 H2'].
  { subst e2. destruct (isOwnedEvent e1) eqn:E; simpl; [done|].
    split; [by apply own_stamped|by apply own_owned]. }
  destruct (isHashedEvent e2) eqn:E; simpl; [done|].
  split_and!; [by apply hash_stamped|by apply hash_owned|by apply hash_hashed].
Qed.

Lemma prepEvent_skips now pk e :
  isStampedEvent e = true → isOwnedEvent e = true → isHashedEvent e = true →
  prepEvent now pk e = e.
Proof.
  intros H1 H2 H3. unfold prepEvent.
  rewrite H1. cbn [negb]. rewrite H2. cbn [negb]. by rewrite H3.
Qed.

End Stages.

(** C5: completing a completed event again, at whatever later time and
    for whatever session, skips all three stages, since their guards hold:
    it returns the event as it is, with the same identity and the same
    completed fields. The stages are those of [@welshman/signer]; what is
    used of them is that each establishes its guard and keeps the guards
    before it. *)
Theorem prepEvent_idempotent `{EventStagesLaws} (now now' : Z) (pk pk' : string)
    (e : Event) :
  let e1 := prepEvent now pk e in
  prepEvent now' pk' e1 = e1
  ∧ id (prepEvent now' pk' e1) = id e1
  ∧ created_at (prepEvent now' pk' e1) = created_at e1
  ∧ pubkey (prepEvent now' pk' e1) = pubkey e1
  ∧ isStampedEvent e1 = true ∧ isOwnedEvent e1 = true ∧ isHashedEvent e1 = true.
Proof.
  intros e1. destruct (prepEvent_complete now pk e) as (H1 & H2 & H3).
  fold e1 in H1, H2, H3.
  rewrite (prepEvent_skips now' pk' e1 H1 H2 H3). by split_and!.
Qed.

(** The stages modelled from the spec satisfy the laws. *)
Lemma spec_stages_laws getHash : @EventStagesLaws (spec_stages getHash).
Proof. split; done. Qed.

Lemma prepEvent_idempotent_witness :
  let e1 := @prepEvent Examples.stages 1700000000 "alice" Examples.note in
  @prepEvent Examples.stages 1700000050 "bob" e1 = e1
  ∧ id e1 = Some "alice:hello".
Proof.
  pose proof (@prepEvent_idempotent Examples.stages (spec_stages_laws Examples.digest)
                1700000000%Z 1700000050%Z "alice" "bob" Examples.note) as (Hi & _).
  split; [exact Hi|reflexivity].
Defined.

Lemma merged_status_precedence_witness :
  merged_status Examples.overlap.1 Examples.overlap_sent !! "wss://a"
  = Some (mkStatus "Sending your message..." Pending).
Proof.
  destruct (merged_status_precedence Examples.overlap.1 Examples.overlap_sent "wss://a")
    as (_ & _ & Hpair).
  destruct (Hpair 2 (mkThunk 0 (@prepEvent Examples.stages 1700000000 "alice" Examples.note)
                             Examples.req_a)
                    (mkThunk 1 (@prepEvent Examples.stages 1700000000 "alice"
                                           Examples.other_note)
                             Examples.req_c)
                    (mkStatus "saved" Success)
                    (mkStatus "Sending your message..." Pending))
    as (Hsp & _); [reflexivity|reflexivity|].
  destruct (Hsp eq_refl eq_refl) as [H12 _]. exact H12.
Defined.

(** ** Publishing a batch *)

Lemma makeThunks_spec `{EventStages} now pk requests st :
  request <$> (makeThunks now pk requests st).1 = requests
  ∧ tid <$> (makeThunks now pk requests st).1 = seq (next_id st) (length requests)
  ∧ thunk_event <$> (makeThunks now pk requests st).1
    = (λ r, prepEvent now pk (event r)) <$> requests
  ∧ (makeThunks now pk requests st).2
    = set_next_id (next_id st + length requests) st.
Proof.
  revert st. induction requests as [|r rs IH]; intros st; simpl.
  - split_and!; try done. destruct st; unfold set_next_id; simpl. f_equal. lia.
  - specialize (IH (set_next_id (S (next_id st)) st)).
    destruct (makeThunks now pk rs (set_next_id (S (next_id st)) st)) as [ts st2].
    simpl in *. destruct IH as (I1 & I2 & I3 & I4).
    split_and!; [by f_equal..|].
    rewrite I4. unfold set_next_id. simpl. f_equal. lia.
Qed.

Lemma publish_member_thunks m ts st k :
  thunks (foldl (publish_member m) st ts) !! k
  = if decide (k ∈ (λ t, event_id (thunk_event t)) <$> ts)
    then Some (Merged m) else thunks st !! k.
Proof.
  revert st. induction ts as [|t ts IH]; intros st.
  - simpl. destruct (decide (k ∈ [])) as [Hin|_]; [|done].
    by apply elem_of_nil in Hin.
  - cbn [foldl]. rewrite IH. rewrite fmap_cons.
    destruct (decide (k ∈ (λ t, event_id (thunk_event t)) <$> ts)) as [Hin|Hni];
      destruct (decide (k ∈ event_id (thunk_event t)
                          :: ((λ t, event_id (thunk_event t)) <$> ts)))
        as [Hin'|Hni']; try done.
    + exfalso. apply Hni'. by right.
    + apply elem_of_cons in Hin' as [->|?]; [|done].
      unfold publish_member, assoc. simpl. by rewrite lookup_insert_eq.
    + unfold publish_member, assoc. simpl. rewrite lookup_insert_ne; [done|].
      intros <-. apply Hni'. by left.
Qed.

(** C6: [publishThunks] returns one merged thunk, whose controller is a
    new object and whose members are one thunk per request, in the order
    of the requests, each with the completed event of its request; after
    the call the registry holds this merged thunk under the identity of
    every member's event. *)
Theorem publishThunks_registers `{EventStages} (now : Z) (pk : string)
    (requests : list ThunkRequest) (st : State) :
  let m := (publishThunks now pk requests st).1 in
  let st' := (publishThunks now pk requests st).2 in
  length (thunks_of m) = length requests
  ∧ request <$> thunks_of m = requests
  ∧ thunk_event <$> thunks_of m = (λ r, prepEvent now pk (event r)) <$> requests
  ∧ tid <$> thunks_of m = seq (next_id st) (length requests)
  ∧ mid m = next_id st + length requests
  ∧ ∀ t, t ∈ thunks_of m →
         thunks st' !! event_id (thunk_event t) = Some (Merged m).
Proof.
  unfold publishThunks.
  pose proof (makeThunks_spec now pk requests st) as (M1 & M2 & M3 & M4).
  destruct (makeThunks now pk requests st) as [ts st1]. simpl in *.
  split_and!; try done.
  - rewrite <- M1. by rewrite length_fmap.
  - by rewrite M4.
  - intros t Ht. rewrite publish_member_thunks, decide_True; [done|].
    apply list_elem_of_fmap. by exists t.
Qed.

Lemma publishThunks_registers_witness :
  thunks Examples.batch.2 !! "alice:hello" = Some (Merged Examples.batch.1)
  ∧ thunks Examples.batch.2 !! "alice:again" = Some (Merged Examples.batch.1).
Proof.
  destruct (@publishThunks_registers Examples.stages 1700000000%Z "alice"
              [Examples.req_a; Examples.req_b] init) as (_ & _ & _ & _ & _ & Hreg).
  split.
  - apply (Hreg (mkThunk 0 (@prepEvent Examples.stages 1700000000 "alice" Examples.note)
                         Examples.req_a)).
    vm_compute. apply list_elem_of_here.
  - apply (Hreg (mkThunk 1 (@prepEvent Examples.stages 1700000000 "alice"
                                        Examples.other_note) Examples.req_b)).
    vm_compute. apply list_elem_of_further, list_elem_of_here.
Defined.

(** ** The listeners of the broadcaster's notifications *)

Lemma status_of_status_update thunk f st :
  status_of thunk (status_update thunk f st) = f (status_of thunk st).
Proof. unfold status_of, status_update, status_set. simpl. by rewrite lookup_insert_eq. Qed.

(** C10: the listener of Success records (event id, url) in the tracker
    and sets the status of the url to Success with the message; the
    listeners of Failure, Timeout, Aborted and Complete leave the tracker
    as it is. *)
Theorem success_is_tracked (thunk : Thunk) (st : State) (i message url : string) :
  let st' := on_event thunk (EvSuccess i message url) st in
  tracker st' = tracker st ++ [(i, url)]
  ∧ status_of thunk st' !! url = Some (mkStatus message Success)
  ∧ (∀ i' m' u', tracker (on_event thunk (EvFailure i' m' u') st) = tracker st)
  ∧ (∀ u', tracker (on_event thunk (EvTimeout u') st) = tracker st)
  ∧ (∀ u', tracker (on_event thunk (EvAborted u') st) = tracker st)
  ∧ tracker (on_event thunk EvComplete st) = tracker st.
Proof.
  split_and!; try done.
  - simpl. rewrite status_of_status_update. apply lookup_insert_eq.
  - simpl. unfold resolve. by destruct (results st !! tid thunk).
Qed.

(** ** Reached states are well formed *)

Lemma state_eta st :
  st = mkState (next_id st) (aborted st) (abort_listeners st) (statuses st)
               (results st) (tasks st) (thunks st) (repository st) (tracker st)
               (queue st).
Proof. by destruct st. Qed.

Lemma wf_init : wf init.
Proof.
  split; simpl.
  - set_solver.
  - set_solver.
  - constructor.
  - intros k task Hk. by rewrite lookup_empty in Hk.
  - intros k [x Hx]. by rewrite lookup_empty in Hx.
  - intros k [x Hx]. by rewrite lookup_empty in Hx.
Qed.

Lemma foldl_removeEvent l st :
  ∃ R, foldl (λ s i, repository_removeEvent i s) st l = set_repository R st.
Proof.
  revert st. induction l as [|i l IH]; intros st; simpl.
  - exists (repository st). by destruct st.
  - destruct (IH (repository_removeEvent i st)) as [R ->]. by exists R.
Qed.

Lemma controller_abort_shape c st :
  ∃ R, controller_abort c st
       = set_repository R (set_aborted ({[c]} ∪ aborted st) st).
Proof.
  unfold controller_abort, is_aborted. case_bool_decide as Hc.
  - exists (repository st). replace ({[c]} ∪ aborted st) with (aborted st) by set_solver.
    by destruct st.
  - apply foldl_removeEvent.
Qed.

Lemma more_aborted_refl st : wf st → more_aborted st st.
Proof. intros Hwf. split_and!; try done. apply Hwf. Qed.

Lemma controller_abort_more c st :
  wf st → c < next_id st → more_aborted st (controller_abort c st).
Proof.
  intros Hwf Hc. destruct (controller_abort_shape c st) as [R ->].
  split_and!; simpl; try done; [set_solver|].
  intros c'. rewrite elem_of_union, elem_of_singleton. intros [->|?]; [done|].
  by apply Hwf.
Qed.

Lemma more_aborted_trans st1 st2 st3 :
  more_aborted st1 st2 → more_aborted st2 st3 → more_aborted st1 st3.
Proof.
  intros (A1 & A2 & A3 & A4 & A5 & A6 & A7) (B1 & B2 & B3 & B4 & B5 & B6 & B7).
  split_and!; try congruence; [set_solver|].
  intros c Hc. rewrite <- A1. by apply B3.
Qed.

Lemma wf_more_aborted st st' : wf st → more_aborted st st' → wf st'.
Proof.
  intros [W1 W2 W3 W4 W5 W6] (A1 & A2 & A3 & A4 & A5 & A6 & A7).
  split; rewrite ?A1, ?A4, ?A5, ?A6, ?A7; try done.
Qed.

Lemma foldl_controller_abort_more ts st :
  wf st → (∀ t, t ∈ ts → tid t < next_id st) →
  more_aborted st (foldl (λ s t, controller_abort (tid t) s) st ts)
  ∧ ∀ t, t ∈ ts → tid t ∈ aborted (foldl (λ s t, controller_abort (tid t) s) st ts).
Proof.
  revert st. induction ts as [|t ts IH]; intros st Hwf Hts; simpl.
  - split; [by apply more_aborted_refl|]. intros t Ht. by apply elem_of_nil in Ht.
  - assert (more_aborted st (controller_abort (tid t) st)) as Hm.
    { apply controller_abort_more; [done|]. apply Hts. by left. }
    destruct (IH (controller_abort (tid t) st)) as [IH1 IH2].
    { by eapply wf_more_aborted. }
    { intros t' Ht'. destruct Hm as (-> & _). apply Hts. by right. }
    split; [by eapply more_aborted_trans|].
    intros t' Ht'. apply elem_of_cons in Ht' as [->|Ht']; [|by apply IH2].
    destruct IH1 as (_ & Hsub & _). apply Hsub.
    destruct (controller_abort_shape (tid t) st) as [R ->]. simpl. set_solver.
Qed.

Lemma merged_abort_more m st :
  wf st → mid m < next_id st → (∀ t, t ∈ thunks_of m → tid t < next_id st) →
  more_aborted st (merged_abort m st)
  ∧ mid m ∈ aborted (merged_abort m st)
  ∧ (mid m ∉ aborted st → ∀ t, t ∈ thunks_of m → tid t ∈ aborted (merged_abort m st)).
Proof.
  intros Hwf Hm Hts. unfold merged_abort, is_aborted. case_bool_decide as Hc.
  - split_and!; [by apply more_aborted_refl|done..].
  - set (st1 := set_aborted ({[mid m]} ∪ aborted st) st).
    assert (more_aborted st st1) as H1.
    { split_and!; simpl; try done; [set_solver|].
      intros c. rewrite elem_of_union, elem_of_singleton. intros [->|?]; [done|].
      by apply Hwf. }
    destruct (foldl_controller_abort_more (thunks_of m) st1) as [H2 H3].
    { by eapply wf_more_aborted. }
    { done. }
    split_and!; [by eapply more_aborted_trans| |intros _; exact H3].
    destruct H2 as (_ & Hsub & _). apply Hsub. simpl. set_solver.
Qed.

Lemma abortThunk_more t st :
  wf st → tid t < next_id st → more_aborted st (abortThunk t st).
Proof.
  intros Hwf Ht. unfold abortThunk.
  pose proof (controller_abort_more (tid t) st Hwf Ht) as Hm.
  destruct Hm as (A1 & A2 & A3 & A4 & A5 & A6 & A7).
  split_and!; simpl; done.
Qed.

Lemma wf_extends_queue ts st st' : wf st → extends_queue ts st st' → wf st'.
Proof.
  intros [W1 W2 W3 W4 W5 W6] (E1 & E2 & E3 & E4 & E5 & E6 & E7 & E8).
  assert (∀ k, k < next_id st → k ∉ tid <$> ts) as Hold.
  { intros k Hk Hin. apply list_elem_of_fmap in Hin as (t & -> & Ht).
    apply E7 in Ht. lia. }
  assert (∀ k, k < next_id st → k ∉ tid <$> queue st → k ∉ tid <$> queue st') as Hq.
  { intros k Hk Hni. rewrite E6, fmap_app, elem_of_app. intros [?|?]; [done|].
    by eapply Hold. }
  split; rewrite ?E2, ?E3, ?E4, ?E5.
  - intros c Hc. apply W1 in Hc. lia.
  - intros t. rewrite E6, elem_of_app. intros [Ht|Ht].
    + apply W2 in Ht. lia.
    + apply E7 in Ht. lia.
  - rewrite E6, fmap_app. apply NoDup_app. split_and!; [done| |done].
    intros k Hk. apply Hold. apply list_elem_of_fmap in Hk as (t & -> & Ht).
    by apply W2.
  - intros k task Hk. destruct (W4 k task Hk) as (? & ? & ?).
    split_and!; [done|lia|by apply Hq].
  - intros k Hk. destruct (W5 k Hk) as (? & ?). split; [lia|by apply Hq].
  - intros k Hk. destruct (W6 k Hk) as (? & ?). split; [lia|by apply Hq].
Qed.

Lemma publishThunk_extends `{EventStages} now pk r st :
  extends_queue [(publishThunk now pk r st).1] st (publishThunk now pk r st).2
  ∧ (publishThunk now pk r st).1 = mkThunk (next_id st) (prepEvent now pk (event r)) r.
Proof.
  split; [|done]. unfold publishThunk, extends_queue. simpl.
  split_and!; try done.
  - lia.
  - intros t Ht. apply list_elem_of_singleton in Ht as ->. simpl. lia.
  - apply NoDup_singleton.
Qed.

Lemma publish_members_extends m ts st :
  (∀ t, t ∈ ts → tid t < next_id st) →
  next_id (foldl (publish_member m) st ts) = next_id st
  ∧ aborted (foldl (publish_member m) st ts) = aborted st
  ∧ statuses (foldl (publish_member m) st ts) = statuses st
  ∧ results (foldl (publish_member m) st ts) = results st
  ∧ tasks (foldl (publish_member m) st ts) = tasks st
  ∧ queue (foldl (publish_member m) st ts) = queue st ++ ts.
Proof.
  revert st. induction ts as [|t ts IH]; intros st Hts; simpl.
  - by rewrite app_nil_r.
  - destruct (IH (publish_member m st t)) as (I1 & I2 & I3 & I4 & I5 & I6).
    { intros t' Ht'. simpl. apply Hts. by right. }
    rewrite I1, I2, I3, I4, I5, I6. simpl. by rewrite <- app_assoc.
Qed.

Lemma publishThunks_extends `{EventStages} now pk rs st :
  extends_queue (thunks_of (publishThunks now pk rs st).1) st
                (publishThunks now pk rs st).2.
Proof.
  pose proof (makeThunks_spec now pk rs st) as (M1 & M2 & M3 & M4).
  unfold publishThunks.
  destruct (makeThunks now pk rs st) as [ts st1]. simpl in *. subst st1.
  assert (length ts = length rs) as Hlen.
  { by rewrite <- M1, length_fmap. }
  assert (∀ t, t ∈ ts → next_id st ≤ tid t < next_id st + length rs) as Hts.
  { intros t Ht. assert (tid t ∈ tid <$> ts) as Hin.
    { apply list_elem_of_fmap. by exists t. }
    rewrite M2 in Hin. apply elem_of_seq in Hin. lia. }
  destruct (publish_members_extends
              (mkMerged (next_id st + length rs) ts) ts
              (set_next_id (S (next_id st + length rs))
                 (set_next_id (next_id st + length rs) st)))
    as (I1 & I2 & I3 & I4 & I5 & I6).
  { intros t Ht. simpl. apply Hts in Ht. lia. }
  split_and!; simpl; rewrite ?I1, ?I2, ?I3, ?I4, ?I5, ?I6; simpl; try done.
  - lia.
  - intros t Ht. apply Hts in Ht. lia.
  - rewrite M2. apply NoDup_seq.
Qed.

(** The operations of a dispatch are local to their thunk. *)
Ltac local_crush Hwf :=
  unfold local_to, processItem, sign_settled, after_sign, send, fail, on_event,
    status_update, status_set, resolve, tracker_track, is_aborted;
  repeat (case_match || case_bool_decide); simpl;
  (split_and!; try done;
   lazymatch goal with
   | |- ∀ j, j ≠ _ → _ =>
       intros j Hj; rewrite ?lookup_insert_ne, ?lookup_delete_ne by done; done
   | |- ∀ task, _ → _ =>
       intros task; rewrite ?lookup_insert_eq, ?lookup_delete_eq;
       try (intros Htask; apply (wf_tasks _ Hwf) in Htask; tauto);
       intros; by simplify_eq
   end).

Lemma processItem_local signer t st :
  wf st → local_to (tid t) st (processItem signer t st).
Proof. intros Hwf. local_crush Hwf. Qed.

Lemma sign_settled_local t o st :
  wf st → local_to (tid t) st (sign_settled t o st).
Proof. intros Hwf. local_crush Hwf. Qed.

Lemma send_local t ev st :
  wf st → local_to (tid t) st (send t ev st).
Proof. intros Hwf. local_crush Hwf. Qed.

Lemma on_event_local t ev st :
  wf st → local_to (tid t) st (on_event t ev st).
Proof. intros Hwf. local_crush Hwf. Qed.

Lemma wf_local k st st' :
  wf st → k < next_id st → k ∉ tid <$> queue st → local_to k st st' → wf st'.
Proof.
  intros [W1 W2 W3 W4 W5 W6] Hk Hq (L1 & L2 & L3 & L4 & L5).
  split; rewrite ?L1, ?L2, ?L3; try done.
  - intros j task Hj. destruct (decide (j = k)) as [->|Hne].
    + split_and!; [by apply L5|done..].
    + destruct (L4 j Hne) as (_ & _ & Ht). rewrite Ht in Hj. by apply W4 in Hj.
  - intros j Hj. destruct (decide (j = k)) as [->|Hne]; [done|].
    destruct (L4 j Hne) as (Hs & _ & _). rewrite Hs in Hj. by apply W5.
  - intros j Hj. destruct (decide (j = k)) as [->|Hne]; [done|].
    destruct (L4 j Hne) as (_ & Hr & _). rewrite Hr in Hj. by apply W6.
Qed.

Lemma wf_pop t rest st :
  wf st → queue st = t :: rest →
  wf (set_queue rest st) ∧ tid t < next_id st ∧ tid t ∉ tid <$> rest.
Proof.
  intros [W1 W2 W3 W4 W5 W6] Hq. rewrite Hq in *.
  rewrite fmap_cons in W3. apply NoDup_cons in W3 as [Hni Hnd].
  assert (∀ k, k ∉ tid t :: (tid <$> rest) → k ∉ tid <$> rest) as Hsub.
  { intros k Hk Hin. apply Hk. by right. }
  split_and!; [|apply W2; by left|done].
  split; simpl; try done.
  - intros t' Ht'. apply W2. by right.
  - intros k task Hk. destruct (W4 k task Hk) as (? & ? & ?).
    split_and!; [done..|]. by apply Hsub.
  - intros k Hk. destruct (W5 k Hk) as (? & ?). split; [done|].
    by apply Hsub.
  - intros k Hk. destruct (W6 k Hk) as (? & ?). split; [done|].
    by apply Hsub.
Qed.

Lemma wf_step `{EventStages} a st : wf st → wf (step a st).
Proof.
  intros Hwf. destruct a as [now pk r|now pk rs|t|m|t|signer|c o|c|c ev]; simpl.
  - eapply wf_extends_queue; [done|]. apply publishThunk_extends.
  - eapply wf_extends_queue; [done|]. apply publishThunks_extends.
  - unfold allocated. case_bool_decide; [|done].
    eapply wf_more_aborted; [done|]. by apply controller_abort_more.
  - destruct (allocated (mid m) st && forallb _ _) eqn:E; [|done].
    apply andb_true_iff in E as [E1 E2]. unfold allocated in E1.
    apply bool_decide_eq_true in E1.
    eapply wf_more_aborted; [done|]. apply merged_abort_more; [done..|].
    intros t Ht. rewrite forallb_forall in E2. apply list_elem_of_In, E2 in Ht.
    by apply bool_decide_eq_true in Ht.
  - unfold allocated. case_bool_decide; [|done].
    eapply wf_more_aborted; [done|]. by apply abortThunk_more.
  - destruct (queue st) as [|t rest] eqn:Eq; [done|].
    destruct (wf_pop t rest st Hwf Eq) as (Hwf' & Ht & Hni).
    eapply wf_local; [exact Hwf'|exact Ht|exact Hni|].
    by apply processItem_local.
  - destruct (tasks st !! c) as [[t|t ev|t ev]|] eqn:Et; try done.
    destruct (wf_tasks _ Hwf _ _ Et) as (Htid & Hc & Hq). simpl in Htid. subst c.
    eapply wf_local; [done..|]. by apply sign_settled_local.
  - destruct (tasks st !! c) as [[t|t ev|t ev]|] eqn:Et; try done.
    destruct (wf_tasks _ Hwf _ _ Et) as (Htid & Hc & Hq). simpl in Htid. subst c.
    eapply wf_local; [done..|]. by apply send_local.
  - destruct (tasks st !! c) as [[t|t ev'|t ev']|] eqn:Et; try done.
    destruct (wf_tasks _ Hwf _ _ Et) as (Htid & Hc & Hq). simpl in Htid. subst c.
    eapply wf_local; [done..|]. by apply on_event_local.
Qed.

Lemma wf_run `{EventStages} actions st : wf st → wf (run actions st).
Proof.
  revert st. induction actions as [|a actions IH]; intros st Hwf; [done|].
  apply IH. by apply wf_step.
Qed.

(** A settled thunk stays settled, with the status and the result it has. *)
Lemma settled_step `{EventStages} a c st :
  wf st → settled c st →
  settled c (step a st)
  ∧ statuses (step a st) !! c = statuses st !! c
  ∧ results (step a st) !! c = results st !! c.
Proof.
  intros Hwf Hsettled. pose proof Hsettled as (Hc & Ht & Hq).
  assert (∀ ts st', extends_queue ts st st' →
            settled c st' ∧ statuses st' !! c = statuses st !! c
            ∧ results st' !! c = results st !! c) as Hext.
  { intros ts st' (E1 & E2 & E3 & E4 & E5 & E6 & E7 & E8).
    rewrite E3, E4. split_and!; try done. unfold settled.
    rewrite E2, E5, E6. split_and!; [lia|done|].
    rewrite fmap_app, elem_of_app. intros [?|Hin]; [by apply Hq|].
    apply list_elem_of_fmap in Hin as (t & -> & Hin). apply E7 in Hin. lia. }
  assert (∀ st', more_aborted st st' →
            settled c st' ∧ statuses st' !! c = statuses st !! c
            ∧ results st' !! c = results st !! c) as Hab.
  { intros st' (A1 & A2 & A3 & A4 & A5 & A6 & A7).
    rewrite A4, A5. split_and!; try done. unfold settled.
    rewrite A1, A6, A7. split_and!; [done..|]. intros Hin. apply A2. by apply Hq. }
  assert (∀ k st0 st', k ≠ c → local_to k st0 st' →
            next_id st0 = next_id st → tasks st0 !! c = None →
            (c ∈ tid <$> queue st0 → c ∈ aborted st0) →
            settled c st' ∧ statuses st' !! c = statuses st0 !! c
            ∧ results st' !! c = results st0 !! c) as Hloc.
  { intros k st0 st' Hne (L1 & L2 & L3 & L4 & L5) Hn Ht0 Hq0.
    destruct (L4 c (not_eq_sym Hne)) as (Hs & Hr & Hk).
    split_and!; [|done..]. unfold settled.
    rewrite L1, L2, L3, Hk, Hn. by split_and!. }
  destruct a as [now pk r|now pk rs|t|m|t|signer|k o|k|k ev]; cbn [step].
  - eapply Hext. apply publishThunk_extends.
  - eapply Hext. apply publishThunks_extends.
  - unfold allocated. case_bool_decide; [|by split_and!].
    by apply Hab, controller_abort_more.
  - destruct (allocated (mid m) st && forallb _ _) eqn:E; [|by split_and!].
    apply andb_true_iff in E as [E1 E2]. unfold allocated in E1.
    apply bool_decide_eq_true in E1.
    apply Hab, merged_abort_more; [done..|].
    intros t Hin. rewrite forallb_forall in E2. apply list_elem_of_In, E2 in Hin.
    by apply bool_decide_eq_true in Hin.
  - unfold allocated. case_bool_decide; [|by split_and!].
    by apply Hab, abortThunk_more.
  - destruct (queue st) as [|t rest] eqn:Eq; [by split_and!|].
    destruct (wf_pop t rest st Hwf Eq) as (Hwf' & Htn & Hni).
    destruct (decide (tid t = c)) as [<-|Hne].
    + assert (tid t ∈ aborted st) as Hab' by (apply Hq; rewrite fmap_cons; by left).
      unfold processItem, is_aborted. simpl. rewrite bool_decide_eq_true_2 by done.
      by split_and!.
    + apply (Hloc (tid t) (set_queue rest st)); [done| |done|done|].
      * by apply processItem_local.
      * simpl. intros Hin. apply Hq. rewrite fmap_cons. by right.
  - destruct (tasks st !! k) as [[t|t ev|t ev]|] eqn:Ek; try by split_and!.
    destruct (wf_tasks _ Hwf _ _ Ek) as (Htid & _ & _). simpl in Htid. subst k.
    apply (Hloc (tid t) st); try done; [congruence|]. by apply sign_settled_local.
  - destruct (tasks st !! k) as [[t|t ev|t ev]|] eqn:Ek; try by split_and!.
    destruct (wf_tasks _ Hwf _ _ Ek) as (Htid & _ & _). simpl in Htid. subst k.
    apply (Hloc (tid t) st); try done; [congruence|]. by apply send_local.
  - destruct (tasks st !! k) as [[t|t ev'|t ev']|] eqn:Ek; try by split_and!.
    destruct (wf_tasks _ Hwf _ _ Ek) as (Htid & _ & _). simpl in Htid. subst k.
    apply (Hloc (tid t) st); try done; [congruence|]. by apply on_event_local.
Qed.

Lemma settled_run `{EventStages} actions c st :
  wf st → settled c st →
  settled c (run actions st)
  ∧ statuses (run actions st) !! c = statuses st !! c
  ∧ results (run actions st) !! c = results st !! c.
Proof.
  revert st. induction actions as [|a actions IH]; intros st Hwf Hs; [done|].
  destruct (settled_step a c st Hwf Hs) as (S1 & S2 & S3).
  destruct (IH (step a st) (wf_step a st Hwf) S1) as (I1 & I2 & I3).
  simpl. split_and!; [done|congruence|congruence].
Qed.

(** ** The status of an endpoint along an execution *)

(** A step that is not a step of the thunk named [c] leaves its status,
    its result and its continuation, and keeps it queued if it was. *)
Lemma step_frame `{EventStages} a c st :
  wf st →
  (∀ signer t' rest, a = ADispatch signer → queue st = t' :: rest → tid t' ≠ c) →
  (∀ o, a ≠ ASignSettled c o) → a ≠ ADelayElapsed c → (∀ ev, a ≠ ANotify c ev) →
  statuses (step a st) !! c = statuses st !! c
  ∧ results (step a st) !! c = results st !! c
  ∧ tasks (step a st) !! c = tasks st !! c
  ∧ (∀ t, tid t = c → t ∈ queue st → t ∈ queue (step a st)).
Proof.
  intros Hwf Hdisp Hsign Hdelay Hnot.
  assert (∀ ts st', extends_queue ts st st' →
            statuses st' !! c = statuses st !! c
            ∧ results st' !! c = results st !! c
            ∧ tasks st' !! c = tasks st !! c
            ∧ (∀ t, tid t = c → t ∈ queue st → t ∈ queue st')) as Hext.
  { intros ts st' (E1 & E2 & E3 & E4 & E5 & E6 & E7 & E8).
    rewrite E3, E4, E5, E6. split_and!; try done.
    intros t _ Ht. apply elem_of_app. by left. }
  assert (∀ st', more_aborted st st' →
            statuses st' !! c = statuses st !! c
            ∧ results st' !! c = results st !! c
            ∧ tasks st' !! c = tasks st !! c
            ∧ (∀ t, tid t = c → t ∈ queue st → t ∈ queue st')) as Hab.
  { intros st' (A1 & A2 & A3 & A4 & A5 & A6 & A7).
    rewrite A4, A5, A6, A7. by split_and!. }
  assert (∀ k st0 st', k ≠ c → local_to k st0 st' →
            statuses st' !! c = statuses st0 !! c
            ∧ results st' !! c = results st0 !! c
            ∧ tasks st' !! c = tasks st0 !! c
            ∧ queue st' = queue st0) as Hloc.
  { intros k st0 st' Hne (L1 & L2 & L3 & L4 & L5).
    destruct (L4 c (not_eq_sym Hne)) as (Hs & Hr & Hk). by split_and!. }
  destruct a as [now pk r|now pk rs|t|m|t|signer|k o|k|k ev]; cbn [step].
  - eapply Hext. apply publishThunk_extends.
  - eapply Hext. apply publishThunks_extends.
  - unfold allocated. case_bool_decide; [|by split_and!].
    by apply Hab, controller_abort_more.
  - destruct (allocated (mid m) st && forallb _ _) eqn:E; [|by split_and!].
    apply andb_true_iff in E as [E1 E2]. unfold allocated in E1.
    apply bool_decide_eq_true in E1.
    apply Hab. apply merged_abort_more; [done..|].
    intros t Hin. rewrite forallb_forall in E2. apply list_elem_of_In, E2 in Hin.
    by apply bool_decide_eq_true in Hin.
  - unfold allocated. case_bool_decide; [|by split_and!].
    by apply Hab, abortThunk_more.
  - destruct (queue st) as [|t' rest] eqn:Eq.
    { split_and!; try done. intros t _ Hin. by apply elem_of_nil in Hin. }
    destruct (wf_pop t' rest st Hwf Eq) as (Hwf' & Htn & Hni).
    specialize (Hdisp signer t' rest eq_refl eq_refl).
    destruct (Hloc (tid t') (set_queue rest st) (processItem signer t' (set_queue rest st)))
      as (F1 & F2 & F3 & F4); [done|by apply processItem_local|].
    split_and!; [done..|]. intros t Ht Hin. rewrite F4. simpl.
    apply elem_of_cons in Hin as [->|?]; [congruence|done].
  - destruct (tasks st !! k) as [[t|t ev|t ev]|] eqn:Ek; try by split_and!.
    destruct (wf_tasks _ Hwf _ _ Ek) as (Htid & _ & _). simpl in Htid. subst k.
    destruct (Hloc (tid t) st (sign_settled t o st)) as (F1 & F2 & F3 & F4).
    { intros <-. by apply (Hsign o). }
    { by apply sign_settled_local. }
    split_and!; [done..|]. intros t' _ Hin. by rewrite F4.
  - destruct (tasks st !! k) as [[t|t ev|t ev]|] eqn:Ek; try by split_and!.
    destruct (wf_tasks _ Hwf _ _ Ek) as (Htid & _ & _). simpl in Htid. subst k.
    destruct (Hloc (tid t) st (send t ev st)) as (F1 & F2 & F3 & F4).
    { intros <-. by apply Hdelay. }
    { by apply send_local. }
    split_and!; [done..|]. intros t' _ Hin. by rewrite F4.
  - destruct (tasks st !! k) as [[t|t ev'|t ev']|] eqn:Ek; try by split_and!.
    destruct (wf_tasks _ Hwf _ _ Ek) as (Htid & _ & _). simpl in Htid. subst k.
    destruct (Hloc (tid t) st (on_event t ev st)) as (F1 & F2 & F3 & F4).
    { intros <-. by apply (Hnot ev). }
    { by apply on_event_local. }
    split_and!; [done..|]. intros t' _ Hin. by rewrite F4.
Qed.

Lemma status_at_frame c url st st' :
  statuses st' !! c = statuses st !! c → status_at c url st' = status_at c url st.
Proof. unfold status_at. by intros ->. Qed.

Lemma transition_ok_refl direct o : transition_ok direct o o = true.
Proof. unfold transition_ok. by rewrite bool_decide_eq_true_2. Qed.

Lemma phase_weaken t url R R' st :
  (∀ u, u ∈ R' → u ∈ R) → phase t url R st → phase t url R' st.
Proof.
  intros Hsub [Hq|H1 H2|ev H1 H2|ev H1 H2|Hs].
  - by apply ph_queued.
  - by apply ph_sign.
  - by eapply ph_delay.
  - eapply ph_sending; [done|]. destruct (status_at (tid t) url st); [|done].
    destruct H2 as [?|Hni]; [by left|right]. intros Hin. by apply Hni, Hsub.
  - by apply ph_settled.
Qed.

Lemma fail_status_at t message url st :
  status_at (tid t) url (fail t message st)
  = if decide (url ∈ relays (request t)) then Some (mkStatus message Failure) else None.
Proof.
  unfold status_at, fail, status_set. simpl. rewrite lookup_insert_eq. simpl.
  generalize (relays (request t)). intros l.
  assert (∀ (m0 : ThunkStatusByUrl),
    foldl (λ (status : ThunkStatusByUrl) u, <[u := mkStatus message Failure]> status) m0 l !! url
    = if decide (url ∈ l) then Some (mkStatus message Failure) else m0 !! url) as Hf.
  { induction l as [|u l IH]; intros m0.
    - simpl. destruct (decide (url ∈ [])) as [Hin|_]; [|done]. by apply elem_of_nil in Hin.
    - cbn [foldl]. rewrite IH.
      destruct (decide (url ∈ l)) as [Hin|Hni];
        destruct (decide (url ∈ u :: l)) as [Hin'|Hni']; try done.
      + exfalso. apply Hni'. by right.
      + apply elem_of_cons in Hin' as [->|?]; [|done]. by rewrite lookup_insert_eq.
      + rewrite lookup_insert_ne; [done|]. intros ->. apply Hni'. by left. }
  rewrite Hf. by destruct (decide _).
Qed.

Lemma fromPairs_pending_lookup (l : list string) (s : ThunkStatus) url :
  fromPairs (map (λ u, (u, s)) l) !! url
  = if decide (url ∈ l) then Some s else None.
Proof.
  unfold fromPairs.
  assert (∀ (m0 : ThunkStatusByUrl),
    foldl (λ (o : ThunkStatusByUrl) p, <[p.1 := p.2]> o) m0 (map (λ u, (u, s)) l) !! url
    = if decide (url ∈ l) then Some s else m0 !! url) as Hf.
  { induction l as [|u l IH]; intros m0.
    - simpl. destruct (decide (url ∈ [])) as [Hin|_]; [|done]. by apply elem_of_nil in Hin.
    - cbn [foldl map]. rewrite IH. simpl.
      destruct (decide (url ∈ l)) as [Hin|Hni];
        destruct (decide (url ∈ u :: l)) as [Hin'|Hni']; try done.
      + exfalso. apply Hni'. by right.
      + apply elem_of_cons in Hin' as [->|?]; [|done]. by rewrite lookup_insert_eq.
      + rewrite lookup_insert_ne; [done|]. intros ->. apply Hni'. by left. }
  rewrite Hf. by destruct (decide _).
Qed.

Lemma notified_sub c a rest u : u ∈ notified c rest → u ∈ notified c (a :: rest).
Proof.
  intros Hu. unfold notified in *.
  destruct a as [| | | | | |k o|k|k ev]; simpl; try done.
  destruct (decide (k = c)); [|done]. destruct (terminal_url ev); [by right|done].
Qed.

Lemma phase_frame t url R R' st st' :
  (∀ u, u ∈ R' → u ∈ R) →
  statuses st' !! tid t = statuses st !! tid t →
  tasks st' !! tid t = tasks st !! tid t →
  (t ∈ queue st → t ∈ queue st') →
  (settled (tid t) st → settled (tid t) st') →
  phase t url R st →
  transition_ok true (status_at (tid t) url st) (status_at (tid t) url st') = true
  ∧ phase t url R' st'.
Proof.
  intros Hsub Hs Ht Hq Hset Hph.
  rewrite (status_at_frame _ _ _ _ Hs). split; [apply transition_ok_refl|].
  apply (phase_weaken t url R R'); [done|].
  destruct Hph as [Hin|H1 H2|ev H1 H2|ev H1 H2|Hsettled].
  - apply ph_queued; auto.
  - apply ph_sign; congruence.
  - apply (ph_delay _ _ _ _ ev); congruence.
  - apply (ph_sending _ _ _ _ ev); [congruence|].
    by rewrite (status_at_frame _ _ _ _ Hs).
  - apply ph_settled; auto.
Qed.

Lemma status_at_None c url st : statuses st !! c = None → status_at c url st = None.
Proof. unfold status_at. intros ->. simpl. apply lookup_empty. Qed.

Lemma fail_phase t msg url R st :
  tid t < next_id st → tid t ∉ tid <$> queue st → tasks st !! tid t = None →
  transition_ok true None (status_at (tid t) url (fail t msg st)) = true
  ∧ phase t url R (fail t msg st).
Proof.
  intros Hn Hq Ht. split.
  - rewrite fail_status_at. by destruct (decide _).
  - apply ph_settled. split_and!; simpl; done.
Qed.

Lemma send_status_at t ev url st :
  is_aborted (tid t) st = false →
  status_at (tid t) url (send t ev st)
  = if decide (url ∈ relays (request t))
    then Some (mkStatus "Sending your message..." Pending) else None.
Proof.
  intros Ha. unfold send. rewrite Ha. unfold status_at. simpl.
  rewrite lookup_insert_eq. simpl. apply fromPairs_pending_lookup.
Qed.

Lemma send_phase t ev url R st :
  tid t < next_id st → tid t ∉ tid <$> queue st → statuses st !! tid t = None →
  transition_ok true None (status_at (tid t) url (send t ev st)) = true
  ∧ phase t url R (send t ev st).
Proof.
  intros Hn Hq Hs. destruct (is_aborted (tid t) st) eqn:Ha.
  - unfold send. rewrite Ha. split.
    + by rewrite status_at_None.
    + apply ph_settled. split_and!; simpl; [done| |done]. apply lookup_delete_eq.
  - split.
    + rewrite send_status_at by done. by destruct (decide _).
    + apply (ph_sending _ _ _ _ ev).
      * unfold send. rewrite Ha. simpl. apply lookup_insert_eq.
      * rewrite send_status_at by done. destruct (decide _); [by left|done].
Qed.

Lemma after_sign_phase t ev url R st :
  tid t < next_id st → tid t ∉ tid <$> queue st → statuses st !! tid t = None →
  transition_ok true None (status_at (tid t) url (after_sign t ev st)) = true
  ∧ phase t url R (after_sign t ev st).
Proof.
  intros Hn Hq Hs. unfold after_sign. destruct (truthy _).
  - split.
    + rewrite status_at_None; done.
    + apply (ph_delay _ _ _ _ ev); simpl; [apply lookup_insert_eq|done].
  - by apply send_phase.
Qed.

Lemma processItem_phase signer t url R st :
  tid t < next_id st → tid t ∉ tid <$> queue st →
  statuses st !! tid t = None → tasks st !! tid t = None →
  transition_ok true None (status_at (tid t) url (processItem signer t st)) = true
  ∧ phase t url R (processItem signer t st).
Proof.
  intros Hn Hq Hs Ht. unfold processItem. destruct (is_aborted (tid t) st).
  { split; [by rewrite status_at_None|]. apply ph_settled. by split_and!. }
  cbv zeta. destruct (negb (isSignedEvent _)).
  - destruct (negb signer).
    + by apply fail_phase.
    + split; [by rewrite status_at_None|].
      apply ph_sign; simpl; [apply lookup_insert_eq|done].
  - by apply after_sign_phase.
Qed.

Lemma sign_settled_phase t o url R st :
  tid t < next_id st → tid t ∉ tid <$> queue st → statuses st !! tid t = None →
  transition_ok true None (status_at (tid t) url (sign_settled t o st)) = true
  ∧ phase t url R (sign_settled t o st).
Proof.
  intros Hn Hq Hs. unfold sign_settled. cbv zeta. destruct o as [ev|msg].
  - by apply after_sign_phase.
  - apply fail_phase; simpl; [done..|]. apply lookup_delete_eq.
Qed.

Lemma status_at_update t u s url st :
  status_at (tid t) url (status_update t (assoc u s) st)
  = if decide (url = u) then Some s else status_at (tid t) url st.
Proof.
  unfold status_at, status_update, status_set, status_of, assoc. simpl.
  rewrite lookup_insert_eq. simpl.
  destruct (decide (url = u)) as [->|Hne].
  - by rewrite lookup_insert_eq.
  - by rewrite lookup_insert_ne.
Qed.

Lemma report_phase t ev u s url R' st :
  tasks st !! tid t = Some (Sending t ev) →
  match status_at (tid t) url st with
  | None => url ∉ relays (request t)
  | Some s => status s = Pending ∨ url ∉ u :: R'
  end →
  u ∉ R' → u ∈ relays (request t) → status s ≠ Pending →
  transition_ok true (status_at (tid t) url st)
                (status_at (tid t) url (status_update t (assoc u s) st)) = true
  ∧ phase t url R' (status_update t (assoc u s) st).
Proof.
  intros Ht Hc Hu Hrel Hterm. rewrite status_at_update.
  destruct (decide (url = u)) as [->|Hne].
  - split.
    + destruct (status_at (tid t) u st) as [s0|]; [|done].
      destruct Hc as [Hp|Hni]; [|exfalso; apply Hni; by left].
      unfold transition_ok. rewrite (bool_decide_eq_true_2 _ Hp).
      rewrite (bool_decide_eq_false_2 _ Hterm). simpl. apply orb_true_r.
    + apply (ph_sending _ _ _ _ ev); [done|].
      rewrite status_at_update, decide_True by done. by right.
  - split; [apply transition_ok_refl|].
    apply (ph_sending _ _ _ _ ev); [done|].
    rewrite status_at_update, decide_False by done.
    destruct (status_at (tid t) url st); [|done].
    destruct Hc as [?|Hni]; [by left|right]. intros Hin. apply Hni. by right.
Qed.

Lemma queued_fresh t st :
  wf st → t ∈ queue st →
  tid t < next_id st ∧ statuses st !! tid t = None ∧ tasks st !! tid t = None
  ∧ results st !! tid t = None.
Proof.
  intros Hwf Hin.
  assert (tid t ∈ tid <$> queue st) as Hq by (apply list_elem_of_fmap; by exists t).
  split_and!.
  - by apply (wf_queue _ Hwf).
  - destruct (statuses st !! tid t) eqn:E; [|done].
    destruct (wf_statuses _ Hwf (tid t)) as [_ Hni]; [by eexists|done].
  - destruct (tasks st !! tid t) eqn:E; [|done].
    destruct (wf_tasks _ Hwf _ _ E) as (_ & _ & Hni). done.
  - destruct (results st !! tid t) eqn:E; [|done].
    destruct (wf_results _ Hwf (tid t)) as [_ Hni]; [by eexists|done].
Qed.

Lemma notified_notify c ev rest :
  notified c (ANotify c ev :: rest)
  = match terminal_url ev with
    | Some u => u :: notified c rest
    | None => notified c rest
    end.
Proof.
  unfold notified. simpl. destruct (decide (c = c)); [|done].
  by destruct (terminal_url ev).
Qed.

Lemma notified_cons c a rest :
  notified c (a :: rest) = notified c rest
  ∨ ∃ u, notified c (a :: rest) = u :: notified c rest.
Proof.
  unfold notified. destruct a as [| | | | | |k o|k|k ev]; simpl; auto.
  destruct (decide (k = c)); auto. destruct (terminal_url ev); eauto.
Qed.

Lemma phase_step `{EventStages} a rest t url st :
  wf st →
  phase t url (notified (tid t) (a :: rest)) st →
  NoDup (notified (tid t) (a :: rest)) →
  (∀ u, u ∈ notified (tid t) (a :: rest) → u ∈ relays (request t)) →
  transition_ok true (status_at (tid t) url st) (status_at (tid t) url (step a st)) = true
  ∧ phase t url (notified (tid t) rest) (step a st).
Proof.
  intros Hwf Hph Hnd Hrel.
  (* a step of another thunk, or of the interface *)
  assert ((∀ signer t' q, a = ADispatch signer → queue st = t' :: q → tid t' ≠ tid t) →
          (∀ o, a ≠ ASignSettled (tid t) o) → a ≠ ADelayElapsed (tid t) →
          (∀ ev, a ≠ ANotify (tid t) ev) →
          transition_ok true (status_at (tid t) url st)
                        (status_at (tid t) url (step a st)) = true
          ∧ phase t url (notified (tid t) rest) (step a st)) as Hframe.
  { intros G1 G2 G3 G4.
    destruct (step_frame a (tid t) st Hwf G1 G2 G3 G4) as (F1 & F2 & F3 & F4).
    eapply phase_frame; [apply notified_sub|done|done|by apply F4| |done].
    intros Hs. by apply settled_step. }
  (* a step that finds nothing to resume *)
  assert (step a st = st →
          transition_ok true (status_at (tid t) url st)
                        (status_at (tid t) url (step a st)) = true
          ∧ phase t url (notified (tid t) rest) (step a st)) as Hsame.
  { intros ->. eapply phase_frame; [apply notified_sub|done..]. }
  destruct a as [now pk r|now pk rs|t0|m|t0|signer|k o|k|k ev].
  - by apply Hframe.
  - by apply Hframe.
  - by apply Hframe.
  - by apply Hframe.
  - by apply Hframe.
  - (* the scheduler dispatches the head of the queue *)
    destruct (queue st) as [|t' q] eqn:Eq.
    { apply Hsame. simpl. by rewrite Eq. }
    destruct (decide (tid t' = tid t)) as [Heq|Hne].
    2:{ apply Hframe; try done. by intros ? ? ? _ [= <- <-]. }
    destruct (wf_pop t' q st Hwf Eq) as (Hwf' & Hn & Hni).
    destruct Hph as [Hin|H1 H2|ev H1 H2|ev H1 H2|Hs].
    + assert (t' = t) as ->.
      { rewrite Eq in Hin. apply elem_of_cons in Hin as [->|Hin]; [done|].
        exfalso. apply Hni. rewrite Heq. apply list_elem_of_fmap. by exists t. }
      destruct (queued_fresh t st Hwf) as (Q1 & Q2 & Q3 & Q4); [rewrite Eq; by left|].
      rewrite (status_at_None _ _ _ Q2). simpl. rewrite Eq.
      by apply processItem_phase.
    + destruct (wf_tasks _ Hwf _ _ H1) as (_ & _ & Hq). exfalso. apply Hq.
      rewrite Eq, fmap_cons, Heq. by left.
    + destruct (wf_tasks _ Hwf _ _ H1) as (_ & _ & Hq). exfalso. apply Hq.
      rewrite Eq, fmap_cons, Heq. by left.
    + destruct (wf_tasks _ Hwf _ _ H1) as (_ & _ & Hq). exfalso. apply Hq.
      rewrite Eq, fmap_cons, Heq. by left.
    + destruct (settled_step (ADispatch signer) (tid t) st Hwf Hs) as (S1 & S2 & _).
      rewrite (status_at_frame _ _ _ _ S2). split; [apply transition_ok_refl|].
      by apply ph_settled.
  - (* the signer answers *)
    destruct (decide (k = tid t)) as [->|Hne].
    2:{ apply Hframe; try done; congruence. }
    destruct Hph as [Hin|H1 H2|ev H1 H2|ev H1 H2|Hs].
    + destruct (queued_fresh t st Hwf Hin) as (Q1 & Q2 & Q3 & Q4).
      apply Hsame. simpl. by rewrite Q3.
    + destruct (wf_tasks _ Hwf _ _ H1) as (_ & Hn & Hq).
      rewrite (status_at_None _ _ _ H2). simpl. rewrite H1.
      by apply sign_settled_phase.
    + apply Hsame. simpl. by rewrite H1.
    + apply Hsame. simpl. by rewrite H1.
    + destruct Hs as (_ & Hs & _). apply Hsame. simpl. by rewrite Hs.
  - (* the delay has elapsed *)
    destruct (decide (k = tid t)) as [->|Hne].
    2:{ apply Hframe; try done; congruence. }
    destruct Hph as [Hin|H1 H2|ev H1 H2|ev H1 H2|Hs].
    + destruct (queued_fresh t st Hwf Hin) as (Q1 & Q2 & Q3 & Q4).
      apply Hsame. simpl. by rewrite Q3.
    + apply Hsame. simpl. by rewrite H1.
    + destruct (wf_tasks _ Hwf _ _ H1) as (_ & Hn & Hq).
      rewrite (status_at_None _ _ _ H2). simpl. rewrite H1.
      by apply send_phase.
    + apply Hsame. simpl. by rewrite H1.
    + destruct Hs as (_ & Hs & _). apply Hsame. simpl. by rewrite Hs.
  - (* the broadcaster notifies *)
    destruct (decide (k = tid t)) as [->|Hne].
    2:{ apply Hframe; try done; congruence. }
    destruct Hph as [Hin|H1 H2|ev' H1 H2|ev' H1 H2|Hs].
    + destruct (queued_fresh t st Hwf Hin) as (Q1 & Q2 & Q3 & Q4).
      apply Hsame. simpl. by rewrite Q3.
    + apply Hsame. simpl. by rewrite H1.
    + apply Hsame. simpl. by rewrite H1.
    + cbn [step]. rewrite H1.
      rewrite notified_notify in Hnd, Hrel, H2.
      destruct ev as [i msg u|i msg u|u|u|]; cbn [terminal_url] in Hnd, Hrel, H2;
        cbn [on_event].
      * apply NoDup_cons in Hnd as [Hu _].
        assert (∀ st0, tasks st0 = tasks st → statuses st0 = statuses st →
                  transition_ok true (status_at (tid t) url st)
                    (status_at (tid t) url
                       (status_update t (assoc u (mkStatus msg Success)) st0)) = true
                  ∧ phase t url (notified (tid t) rest)
                      (status_update t (assoc u (mkStatus msg Success)) st0)) as Hgo.
        { intros st0 E1 E2.
          assert (status_at (tid t) url st = status_at (tid t) url st0) as ->.
          { unfold status_at. by rewrite E2. }
          eapply (report_phase t ev'); [by rewrite E1| |done| |done].
          - unfold status_at in *. by rewrite E2.
          - apply Hrel. by left. }
        by apply Hgo.
      * apply NoDup_cons in Hnd as [Hu _].
        eapply (report_phase t ev'); [done..| |done]. apply Hrel. by left.
      * apply NoDup_cons in Hnd as [Hu _].
        eapply (report_phase t ev'); [done..| |done]. apply Hrel. by left.
      * apply NoDup_cons in Hnd as [Hu _].
        eapply (report_phase t ev'); [done..| |done]. apply Hrel. by left.
      * assert (statuses (resolve t (status_of t st) st) = statuses st
                ∧ tasks (resolve t (status_of t st) st) = tasks st) as [E1 E2].
        { unfold resolve. by destruct (results st !! tid t). }
        assert (status_at (tid t) url (resolve t (status_of t st) st)
                = status_at (tid t) url st) as Est.
        { unfold status_at. by rewrite E1. }
        rewrite Est. split; [apply transition_ok_refl|].
        apply (ph_sending _ _ _ _ ev'); [by rewrite E2|]. by rewrite Est.
    + destruct Hs as (_ & Hs & _). apply Hsame. simpl. by rewrite Hs.
Qed.

Lemma monotone_run `{EventStages} actions t url st :
  wf st →
  phase t url (notified (tid t) actions) st →
  disciplined (tid t) (relays (request t)) actions →
  monotone true (status_at (tid t) url st) (observed (tid t) url actions st) = true.
Proof.
  revert st. induction actions as [|a actions IH]; intros st Hwf Hph [Hnd Hrel]; [done|].
  destruct (phase_step a actions t url st Hwf Hph Hnd Hrel) as [Htr Hph'].
  cbn [observed monotone]. rewrite Htr. simpl. apply IH; [by apply wf_step|done|].
  split.
  - destruct (notified_cons (tid t) a actions) as [E|[u E]]; rewrite E in Hnd; [done|].
    by apply NoDup_cons in Hnd as [_ ?].
  - intros u Hu. by apply Hrel, notified_sub.
Qed.

(** ** Aborting a batch *)

Lemma wf_reached `{EventStages} pre : wf (run pre init).
Proof. apply wf_run, wf_init. Qed.

Lemma publishThunks_next_id `{EventStages} now pk rs st :
  mid (publishThunks now pk rs st).1 = next_id st + length rs
  ∧ next_id (publishThunks now pk rs st).2 = S (next_id st + length rs).
Proof.
  pose proof (makeThunks_spec now pk rs st) as (M1 & M2 & M3 & M4).
  unfold publishThunks.
  destruct (makeThunks now pk rs st) as [ts st1]. simpl in *. subst st1.
  split; [done|].
  assert (∀ m ts' s, next_id (foldl (publish_member m) s ts') = next_id s) as Hn.
  { intros m ts'. induction ts' as [|t ts' IH]; intros s; [done|].
    cbn [foldl]. by rewrite IH. }
  by rewrite Hn.
Qed.

(** After [publishThunks] and the abort of the merged thunk, every member
    is aborted and settled while still queued, with no status and no
    result. *)
Lemma aborted_batch_settled `{EventStages} now pk rs st :
  wf st →
  let m := (publishThunks now pk rs st).1 in
  let st2 := merged_abort m (publishThunks now pk rs st).2 in
  wf st2
  ∧ mid m ∈ aborted st2
  ∧ ∀ t, t ∈ thunks_of m →
      tid t ∈ aborted st2 ∧ settled (tid t) st2
      ∧ statuses st2 !! tid t = None ∧ results st2 !! tid t = None.
Proof.
  intros Hwf m st2.
  pose proof (publishThunks_extends now pk rs st) as Hext.
  pose proof (publishThunks_next_id now pk rs st) as [Hmid Hnext].
  fold m in Hext, Hmid. set (st1 := (publishThunks now pk rs st).2) in *.
  assert (wf st1) as Hwf1 by (by eapply wf_extends_queue).
  destruct Hext as (E1 & E2 & E3 & E4 & E5 & E6 & E7 & E8).
  destruct (merged_abort_more m st1) as (Hmore & Hmid' & Hall); [done|lia| |].
  { intros t Ht. by apply E7. }
  assert (mid m ∉ aborted st1) as Hfresh.
  { rewrite E2. intros Hin. apply (wf_aborted _ Hwf) in Hin. lia. }
  specialize (Hall Hfresh). fold st2 in Hmore, Hall, Hmid'.
  split_and!; [by eapply wf_more_aborted|done|].
  intros t Ht.
  assert (t ∈ queue st1) as Hq by (rewrite E6, elem_of_app; by right).
  destruct (queued_fresh t st1 Hwf1 Hq) as (Q1 & Q2 & Q3 & Q4).
  destruct Hmore as (A1 & A2 & A3 & A4 & A5 & A6 & A7).
  split_and!; [by apply Hall| |by rewrite A4|by rewrite A5].
  unfold settled. rewrite A1, A6. split_and!; [done..|]. intros _. by apply Hall.
Qed.

Lemma controller_abort_aborted c st :
  aborted (controller_abort c st) = {[c]} ∪ aborted st.
Proof. by destruct (controller_abort_shape c st) as [R ->]. Qed.

Lemma foldl_controller_abort_aborted ts st :
  aborted (foldl (λ s t, controller_abort (tid t) s) st ts)
  = list_to_set (tid <$> ts) ∪ aborted st.
Proof.
  revert st. induction ts as [|t ts IH]; intros st; simpl; [set_solver|].
  rewrite IH, controller_abort_aborted. set_solver.
Qed.

(** The first signal of a merged thunk's controller reaches every member. *)
Lemma merged_abort_signals m st t :
  is_aborted (mid m) st = false → t ∈ thunks_of m →
  is_aborted (mid m) (merged_abort m st) = true
  ∧ is_aborted (tid t) (merged_abort m st) = true.
Proof.
  intros Hm Ht. unfold merged_abort. rewrite Hm. unfold is_aborted.
  rewrite !bool_decide_eq_true, foldl_controller_abort_aborted. simpl.
  split; [set_solver|].
  apply elem_of_union. left. apply elem_of_list_to_set, list_elem_of_fmap.
  by exists t.
Qed.

(** At the check after the delay, an aborted thunk is dropped unsent. *)
Lemma send_aborted t ev st :
  is_aborted (tid t) st = true →
  statuses (send t ev st) = statuses st
  ∧ results (send t ev st) = results st
  ∧ tasks (send t ev st) !! tid t = None.
Proof.
  intros Ha. unfold send. rewrite Ha. simpl. split_and!; [done..|].
  apply lookup_delete_eq.
Qed.

(** C7 (amended): when the controller of a merged thunk is signaled for
    the first time, the signal of every member is set. A thunk whose
    signal is set when [processItem] takes it, or when its delay has
    elapsed, is dropped unsent, with its statuses and its result as they
    were. So, in every state reached from the initial one, if the merged
    thunk that [publishThunks] returns is aborted right after the call,
    then for every member [t] the signal is set, [processItem] returns at
    once, and along every further execution the status mapping of [t] stays
    empty and its result stays unresolved: no endpoint gets the Aborted
    status. *)
Theorem aborted_batch_is_skipped `{EventStages} (pre actions : list Action)
    (now : Z) (pk : string) (requests : list ThunkRequest) (t : Thunk) :
  let st := run pre init in
  let m := (publishThunks now pk requests st).1 in
  let st2 := merged_abort m (publishThunks now pk requests st).2 in
  (∀ m' s t', is_aborted (mid m') s = false → t' ∈ thunks_of m' →
              is_aborted (mid m') (merged_abort m' s) = true
              ∧ is_aborted (tid t') (merged_abort m' s) = true)
  ∧ (∀ signer t' s, is_aborted (tid t') s = true → processItem signer t' s = s)
  ∧ (∀ t' signedEvent s, is_aborted (tid t') s = true →
       statuses (send t' signedEvent s) = statuses s
       ∧ results (send t' signedEvent s) = results s
       ∧ tasks (send t' signedEvent s) !! tid t' = None)
  ∧ (t ∈ thunks_of m →
     is_aborted (mid m) st2 = true
     ∧ is_aborted (tid t) st2 = true
     ∧ (∀ signer, processItem signer t st2 = st2)
     ∧ status_of t (run actions st2) = ∅
     ∧ result_of t (run actions st2) = None).
Proof.
  intros st m st2. split_and!.
  { intros m' s t'. apply merged_abort_signals. }
  { intros signer t' s Ha. unfold processItem. by rewrite Ha. }
  { intros t' ev s. apply send_aborted. }
  intros Ht.
  destruct (aborted_batch_settled now pk requests st (wf_reached pre))
    as (Hwf2 & Hmid & Hall).
  fold m st2 in Hwf2, Hmid, Hall. destruct (Hall t Ht) as (Hab & Hset & Hst & Hres).
  destruct (settled_run actions (tid t) st2 Hwf2 Hset) as (_ & S2 & S3).
  assert (is_aborted (tid t) st2 = true) as Hia by (by apply bool_decide_eq_true_2).
  split_and!.
  - by apply bool_decide_eq_true_2.
  - done.
  - intros signer. unfold processItem. by rewrite Hia.
  - unfold status_of. by rewrite S2, Hst.
  - unfold result_of. by rewrite S3, Hres.
Qed.

(** C8 (amended): for a thunk that is queued in a state reached from the
    initial one, and along every execution in which the broadcaster
    reports each endpoint at most once and only endpoints of the request,
    the status of an endpoint starts absent, and every step either leaves
    it as it is or takes it from absent to Pending, from Pending to a
    terminal kind, or from absent to Failure, which is what [fail] does
    when no signer is found or signing fails. No step leaves a terminal
    kind. *)
Theorem status_monotone `{EventStages} (pre actions : list Action) (t : Thunk)
    (url : string) :
  let st := run pre init in
  t ∈ queue st →
  disciplined (tid t) (relays (request t)) actions →
  status_at (tid t) url st = None
  ∧ monotone true (status_at (tid t) url st) (observed (tid t) url actions st) = true.
Proof.
  intros st Hq Hd. pose proof (wf_reached pre) as Hwf. fold st in Hwf.
  destruct (queued_fresh t st Hwf Hq) as (_ & Q2 & _ & _).
  split; [by apply status_at_None|].
  apply monotone_run; [done| |done]. by apply ph_queued.
Qed.

(** ** The examples *)

Import Examples.

Lemma published_reached : published.2 = @run stages [APublishThunk 1700000000 "alice" req_a] init.
Proof. reflexivity. Qed.

Lemma status_monotone_witness :
  monotone true None (@observed stages 0 "wss://a" delivery published.2) = true.
Proof.
  destruct (@status_monotone stages [APublishThunk 1700000000 "alice" req_a] delivery
              published.1 "wss://a") as [H0 Hm].
  - vm_compute. apply list_elem_of_here.
  - split.
    + vm_compute. repeat constructor; set_solver.
    + intros u Hu. vm_compute in Hu. vm_compute. set_solver.
  - rewrite H0 in Hm. exact Hm.
Defined.

(** The listeners do not look at the status they replace: were the
    broadcaster to report an endpoint twice, the second report would
    overwrite a terminal status. This is why the statuses are shown to be
    monotone along the executions of a disciplined broadcaster. *)
Remark listeners_overwrite (thunk : Thunk) (st : State) (i message url : string) :
  status_at (tid thunk) url
    (on_event thunk (EvTimeout url) (on_event thunk (EvSuccess i message url) st))
  = Some (mkStatus "Publish timed out" Timeout).
Proof. simpl. by rewrite !status_at_update, decide_True. Qed.

(** C8, as stated, fails: when no signer is found for the author, the
    status of a relay goes from absent to Failure without being Pending in
    between. *)
Lemma direct_failure_skips_pending :
  published.1 ∈ queue published.2
  ∧ disciplined 0 (relays req_a) [ADispatch false]
  ∧ @observed stages 0 "wss://a" [ADispatch false] published.2
    = [Some (mkStatus "No signer found for alice" Failure)]
  ∧ monotone false (status_at 0 "wss://a" published.2)
             (@observed stages 0 "wss://a" [ADispatch false] published.2) = false.
Proof.
  split_and!.
  - vm_compute. apply list_elem_of_here.
  - split; [vm_compute; constructor|]. intros u Hu. vm_compute in Hu.
    by apply elem_of_nil in Hu.
  - vm_compute. reflexivity.
  - vm_compute. reflexivity.
Qed.

Lemma aborted_batch_is_skipped_witness :
  status_of (mkThunk 0 (@prepEvent stages 1700000000 "alice" note) req_a)
            (@run stages [ADispatch true; ADispatch true] batch_aborted) = ∅.
Proof.
  destruct (@aborted_batch_is_skipped stages [] [ADispatch true; ADispatch true]
              1700000000%Z "alice" [req_a; req_b]
              (mkThunk 0 (@prepEvent stages 1700000000 "alice" note) req_a))
    as (_ & _ & _ & Hbatch).
  destruct Hbatch as (_ & _ & _ & Hs & _).
  - vm_compute. apply list_elem_of_here.
  - exact Hs.
Defined.

Lemma batch_aborted_status actions t :
  t ∈ thunks_of batch.1 → status_of t (@run stages actions batch_aborted) = ∅.
Proof.
  intros Ht.
  destruct (@aborted_batch_settled stages 1700000000%Z "alice" [req_a; req_b] init wf_init)
    as (Hwf2 & _ & Hmem).
  destruct (Hmem t Ht) as (_ & Hset & Hst & _).
  destruct (@settled_run stages actions (tid t) _ Hwf2 Hset) as (_ & S2 & _).
  unfold status_of, batch_aborted, batch. by rewrite S2, Hst.
Qed.

(** C7, as stated, fails: after [publishThunks([req_a, req_b])] and the
    abort of the merged thunk, no execution brings every endpoint of the
    members to Aborted; the status mappings stay empty. *)
Lemma aborted_batch_never_reports_aborted :
  ¬ ∃ actions, ∀ t, t ∈ thunks_of batch.1 → ∀ url, url ∈ relays (request t) →
      ∃ msg, status_of t (@run stages actions batch_aborted) !! url
             = Some (mkStatus msg Aborted).
Proof.
  intros [actions Hall].
  assert (∃ t, t ∈ thunks_of batch.1 ∧ "wss://a" ∈ relays (request t)) as (t & Ht & Hu).
  { eexists. split; vm_compute; apply list_elem_of_here. }
  destruct (Hall t Ht "wss://a" Hu) as [msg Hmsg].
  rewrite (batch_aborted_status actions t Ht) in Hmsg.
  by rewrite lookup_empty in Hmsg.
Qed.

Lemma no_signer_settled :
  wf no_signer ∧ settled 0 no_signer ∧ results no_signer !! 0 = None.
Proof.
  split_and!.
  - apply (@wf_step stages). rewrite published_reached. apply (@wf_reached stages).
  - split_and!; [vm_compute; lia|reflexivity|].
    intros Hin. vm_compute in Hin. by apply elem_of_nil in Hin.
  - reflexivity.
Qed.

Lemma signer_rejects_settled :
  wf signer_rejects ∧ settled 0 signer_rejects ∧ results signer_rejects !! 0 = None.
Proof.
  split_and!.
  - apply (@wf_run stages). rewrite published_reached. apply (@wf_reached stages).
  - split_and!; [vm_compute; lia|reflexivity|].
    intros Hin. vm_compute in Hin. by apply elem_of_nil in Hin.
  - reflexivity.
Qed.

(** C2: evaluated on [publishThunk(req_a)] for an unsigned event, once
    with no signer for its author and once with a signer that rejects.
    [fail] sets both relays to Failure, with the message of the failure;
    the continuation then returns, and whatever happens afterwards the
    result of the thunk is not resolved. *)
Theorem signing_failure_never_resolves (actions : list Action) :
  status_at 0 "wss://a" no_signer = Some (mkStatus "No signer found for alice" Failure)
  ∧ status_at 0 "wss://b" no_signer = Some (mkStatus "No signer found for alice" Failure)
  ∧ result_of published.1 (@run stages actions no_signer) = None
  ∧ status_at 0 "wss://a" signer_rejects = Some (mkStatus "denied" Failure)
  ∧ status_at 0 "wss://b" signer_rejects = Some (mkStatus "denied" Failure)
  ∧ result_of published.1 (@run stages actions signer_rejects) = None.
Proof.
  destruct no_signer_settled as (W1 & S1 & R1).
  destruct signer_rejects_settled as (W2 & S2 & R2).
  destruct (@settled_run stages actions 0 _ W1 S1) as (_ & _ & E1).
  destruct (@settled_run stages actions 0 _ W2 S2) as (_ & _ & E2).
  split_and!; try reflexivity.
  - unfold result_of. change (tid published.1) with 0. by rewrite E1.
  - unfold result_of. change (tid published.1) with 0. by rewrite E2.
Qed.

End ThunkProps.

(** * Part VI: the worker, continued *)

Module WorkerMore.

Import Worker WorkerProps.

Section Props.

Context {T K W : Type} `{Countable K}.

Implicit Types (w : @Worker T K W _ _) (x : T).
Implicit Types (regs : list (option K * HandlerId)) (k : option K).

Lemma foldl_push_idle w (xs : list T) :
  timeout w = None → xs ≠ [] →
  let w' := foldl (λ s x, push x s) w xs in
  buffer w' = buffer w ++ xs
  ∧ timeout w' = Some (next_timer w)
  ∧ armed w' = armed w ++ [next_timer w].
Proof.
  intros Ht Hxs. destruct xs as [|x xs]; [done|]. clear Hxs. simpl.
  destruct (push_timeout_unset x w Ht) as [Ha Hto].
  pose proof (buffer_push x w) as Hb.
  revert Ha Hto Hb. generalize (push x w). intros w1 Ha Hto Hb.
  assert (∀ w2 : @Worker T K W _ _, timeout w2 = Some (next_timer w) →
            buffer (foldl (λ s x, push x s) w2 xs) = buffer w2 ++ xs
            ∧ timeout (foldl (λ s x, push x s) w2 xs) = Some (next_timer w)
            ∧ armed (foldl (λ s x, push x s) w2 xs) = armed w2) as Hrest.
  { induction xs as [|y ys IH]; intros w2 H2; simpl.
    - by rewrite app_nil_r.
    - destruct (push_timeout_set y w2 _ H2) as [A1 A2].
      destruct (IH (push y w2) A2) as (B1 & B2 & B3).
      rewrite B1, B2, B3, buffer_push, A1. by rewrite <- app_assoc. }
  destruct (Hrest w1 Hto) as (R1 & R2 & R3).
  rewrite R1, R2, R3, Hb, Ha. by rewrite <- app_assoc.
Qed.

(** X1: pushing one or more messages onto a worker whose [timeout] field
    is unset appends them to the buffer in push order and arms exactly one
    timer, the one of the first push; the later pushes find the field set
    and schedule nothing. *)
Theorem pushes_arm_one_timer w (xs : list T) :
  timeout w = None → xs ≠ [] →
  let w' := foldl (λ s x, push x s) w xs in
  buffer w' = buffer w ++ xs
  ∧ timeout w' = Some (next_timer w)
  ∧ armed w' = armed w ++ [next_timer w].
Proof. apply foldl_push_idle. Qed.

Section Cycle.

Variable opts : @WorkerOpts T K W _ _.
Variable run : HandlerId → T → @Worker T K W _ _ → @Outcome T K W _ _.











(** X5: routing. A handler that is called for a message was registered
    with [addGlobalHandler], or with [addHandler] under the key that
    [getKey] gives to this message; a worker without [getKey] calls global
    handlers only. *)
Theorem handler_only_gets_its_key regs (e : W) w x h :
  handlers w = handlers (register regs (init e : @Worker T K W _ _)) →
  (∀ h' s, handlers (outcome_state (run h' x s)) = handlers s) →
  h ∈ call_handler <$> (handle opts run x w).2 →
  h ∈ registered ANY regs
  ∨ ∃ gk, getKey opts = Some gk ∧ h ∈ registered (Some (gk x)) regs.
Proof.
  intros Hh Hrun Hin.
  destruct (handle_spec opts run x w) as (S1 & _ & _ & _). cbv zeta in S1.
  apply (elem_of_prefix _ _ _ Hin) in S1. clear Hin. rename S1 into Hin.
  rewrite Hh, registered_init in Hin.
  apply elem_of_app in Hin as [Hin|Hin]; [by left|right].
  destruct (getKey opts) as [gk|]; [|by apply elem_of_nil in Hin].
  exists gk. split; [done|].
  assert (∀ l w', handlers (foldl (λ s h0, outcome_state (run h0 x s)) w' l)
                  = handlers w') as Hsame.
  { induction l as [|h0 l IH]; intros w'; [done|]. simpl. by rewrite IH, Hrun. }
  rewrite Hsame, Hh, registered_init in Hin. done.
Qed.

Lemma rotate_cons_snoc {A} n (x : A) (l : list A) :
  rotate (S n) (x :: l) = rotate n (l ++ [x]).
Proof.
  unfold rotate. rewrite length_app. cbn [length].
  replace (length l + 1) with (S (length l)) by lia.
  remember (S (length l)) as L eqn:EL.
  assert (S n `mod` L = (n `mod` L + 1) `mod` L) as ->.
  { replace (S n) with (n + 1) by lia. by rewrite Nat.Div0.add_mod_idemp_l. }
  assert (n `mod` L < L) as Hk by (apply Nat.mod_upper_bound; lia).
  remember (n `mod` L) as k eqn:Ek. clear Ek.
  destruct (decide (k = length l)) as [->|Hne].
  - replace (length l + 1) with L by lia.
    rewrite Nat.Div0.mod_same. cbn [drop take].
    by rewrite drop_app_length, take_app_length, app_nil_r.
  - rewrite Nat.mod_small by lia.
    replace (k + 1) with (S k) by lia. cbn [drop take].
    rewrite drop_app_le, take_app_le by lia.
    by rewrite <- app_assoc.
Qed.

Lemma doWork_loop_all_deferred n w :
  (∀ y s, y ∈ buffer w → defers opts s y = true) → buffer w ≠ [] →
  raised (doWork_loop opts run n w).1 = false
  ∧ length (doWork_loop opts run n w).2 = n
  ∧ handled_messages (doWork_loop opts run n w).2 = []
  ∧ buffer (outcome_state (doWork_loop opts run n w).1) = rotate n (buffer w)
  ∧ timeout (outcome_state (doWork_loop opts run n w).1) = timeout w
  ∧ armed (outcome_state (doWork_loop opts run n w).1) = armed w
  ∧ next_timer (outcome_state (doWork_loop opts run n w).1) = next_timer w.
Proof.
  intros Hall Hne. revert w Hall Hne. induction n as [|n IH]; intros w Hall Hne.
  - simpl. split_and!; try done. unfold rotate. rewrite Nat.Div0.mod_0_l. simpl.
    by rewrite app_nil_r.
  - rewrite doWork_loop_S. destruct (buffer w) as [|m rest] eqn:Eb; [done|].
    cbv zeta. rewrite Hall by (by left).
    destruct (IH (set_buffer (buffer (set_buffer rest w) ++ [m]) (set_buffer rest w)))
      as (I0 & I1 & I2 & I3 & I4 & I5 & I6).
    { simpl. intros y s Hy. apply Hall. apply elem_of_app in Hy as [?|Hy]; [by right|].
      apply list_elem_of_singleton in Hy as ->. by left. }
    { simpl. by destruct rest. }
    destruct (doWork_loop opts run n _) as [o log]. simpl in *.
    unfold handled_messages in *. simpl.
    rewrite I1, I2, I3, I4, I5, I6, rotate_cons_snoc. done.
Qed.

(** X6: a buffer whose messages are all deferred is polled. The cycle runs
    its 50 iterations, hands nothing to any handler, leaves the buffer
    rotated by 50 places and arms a new timer: the worker does not go idle
    while a deferred message is buffered. *)
Theorem deferred_queue_is_polled w :
  (∀ y s, y ∈ buffer w → defers opts s y = true) → buffer w ≠ [] →
  length (doWork opts run w).2 = 50
  ∧ handled_messages (doWork opts run w).2 = []
  ∧ buffer (doWork opts run w).1 = rotate 50 (buffer w)
  ∧ timeout (doWork opts run w).1 = Some (next_timer w)
  ∧ armed (doWork opts run w).1 = armed w ++ [next_timer w].
Proof.
  intros Hall Hne.
  destruct (doWork_loop_all_deferred 50 w Hall Hne) as (L0 & L1 & L2 & L3 & L4 & L5 & L6).
  rewrite doWork_snd, doWork_fst_buffer. split_and!; [done..| |].
  - unfold doWork. destruct (doWork_loop opts run 50 w) as [[w1|w1] log]; [|done].
    simpl in *. unfold enqueueWork. simpl. rewrite L3.
    destruct (rotate 50 (buffer w)) eqn:Er.
    + apply (f_equal length) in Er. rewrite length_rotate in Er.
      destruct (buffer w); simpl in *; [done|lia].
    + simpl. by rewrite L6.
  - unfold doWork. destruct (doWork_loop opts run 50 w) as [[w1|w1] log]; [|done].
    simpl in *. unfold enqueueWork. simpl. rewrite L3.
    destruct (rotate 50 (buffer w)) eqn:Er.
    + apply (f_equal length) in Er. rewrite length_rotate in Er.
      destruct (buffer w); simpl in *; [done|lia].
    + simpl. by rewrite L6, L5.
Qed.

(** X7: [clear] empties the buffer and leaves the armed timer alone. When
    that timer fires, the cycle handles nothing, resets the [timeout] field
    and arms nothing; the handlers are kept, and the next [push] schedules a
    cycle again. *)
Theorem clear_then_cycle_then_push w x id rest :
  armed w = id :: rest →
  ∃ w', fire opts run (clear w) = Some (w', [])
        ∧ buffer w' = [] ∧ timeout w' = None ∧ armed w' = rest
        ∧ handlers w' = handlers w ∧ env w' = env w
        ∧ buffer (push x w') = [x]
        ∧ timeout (push x w') = Some (next_timer w)
        ∧ armed (push x w') = rest ++ [next_timer w].
Proof.
  intros Ha. unfold fire, clear. simpl. rewrite Ha.
  eexists. split; [reflexivity|]. simpl. done.
Qed.

(** ** A handler that raises *)

Lemma calls_of_app (l1 l2 : list (@Entry T K W _ _)) :
  calls_of (l1 ++ l2) = calls_of l1 ++ calls_of l2.
Proof. unfold calls_of. apply flat_map_app. Qed.

(** When the loop ends by a raise, the cycle is left as it is. *)
Lemma doWork_fst_raised w :
  raised (doWork_loop opts run 50 w).1 = true →
  (doWork opts run w).1 = outcome_state (doWork_loop opts run 50 w).1.
Proof.
  unfold doWork. by destruct (doWork_loop opts run 50 w) as [[w1|w1] log].
Qed.

(** The loop changes the buffer only. *)
Lemma doWork_loop_timers n w :
  (∀ h y s, timeout (outcome_state (run h y s)) = timeout s
            ∧ armed (outcome_state (run h y s)) = armed s) →
  timeout (outcome_state (doWork_loop opts run n w).1) = timeout w
  ∧ armed (outcome_state (doWork_loop opts run n w).1) = armed w.
Proof.
  intros Hrun. revert w. induction n as [|n IH]; intros w; [done|].
  rewrite doWork_loop_S. destruct (buffer w) as [|m rest]; [done|].
  cbv zeta. destruct (defers opts (set_buffer rest w) m).
  - specialize (IH (set_buffer (buffer (set_buffer rest w) ++ [m]) (set_buffer rest w))).
    by destruct (doWork_loop opts run n _) as [o log].
  - pose proof (handle_preserves opts run
                  (λ s, timeout s = timeout w ∧ armed s = armed w)
                  m (set_buffer rest w)) as Hh.
    destruct (handle opts run m (set_buffer rest w)) as [[w2|w2] cs];
      cbn [fst snd outcome_state] in Hh.
    + destruct Hh as [H1 H2]; [|done|].
      { intros h s [? ?]. destruct (Hrun h m s) as [-> ->]. done. }
      specialize (IH w2). destruct (doWork_loop opts run n w2) as [o log].
      simpl in *. destruct IH as [-> ->]. done.
    + simpl. apply Hh; [|done].
      intros h s [? ?]. destruct (Hrun h m s) as [-> ->]. done.
Qed.

(** The loop ends by a raise exactly when the last invocation it made
    raised; no earlier invocation did. *)
Lemma doWork_loop_raised n w :
  (raised (doWork_loop opts run n w).1 = false →
     Forall (λ c, call_raised c = false) (calls_of (doWork_loop opts run n w).2))
  ∧ (raised (doWork_loop opts run n w).1 = true →
     ∃ log0 m s cs c,
       (doWork_loop opts run n w).2 = log0 ++ [Handled m s (cs ++ [c])]
       ∧ call_raised c = true
       ∧ Forall (λ c, call_raised c = false) (calls_of log0 ++ cs)).
Proof.
  revert w. induction n as [|n IH]; intros w.
  - simpl. split; [by constructor|done].
  - rewrite doWork_loop_S. destruct (buffer w) as [|m rest].
    { simpl. split; [by constructor|done]. }
    cbv zeta. destruct (defers opts (set_buffer rest w) m).
    + specialize (IH (set_buffer (buffer (set_buffer rest w) ++ [m]) (set_buffer rest w))).
      destruct (doWork_loop opts run n _) as [o log]. cbn [fst snd] in *.
      destruct IH as [IH1 IH2]. split; [done|].
      intros Hr. destruct (IH2 Hr) as (log0 & m' & s & cs & c & -> & Hc & Hf).
      by exists (Deferred m (set_buffer rest w) :: log0), m', s, cs, c.
    + pose proof (handle_spec opts run m (set_buffer rest w)) as (_ & _ & _ & S4 & S5).
      destruct (handle opts run m (set_buffer rest w)) as [[w2|w2] cs];
        cbn [fst snd raised] in *.
      * destruct (S4 eq_refl) as (_ & Hcs & _).
        specialize (IH w2). destruct (doWork_loop opts run n w2) as [o log].
        cbn [fst snd] in *. destruct IH as [IH1 IH2]. split.
        -- intros Hr. unfold calls_of in *. simpl. apply Forall_app. auto.
        -- intros Hr. destruct (IH2 Hr) as (log0 & m' & s & cs' & c & -> & Hc & Hf).
           exists (Handled m (set_buffer rest w) cs :: log0), m', s, cs', c.
           split_and!; [done|done|]. unfold calls_of in *. simpl.
           rewrite <- app_assoc. by apply Forall_app.
      * split; [done|]. intros _.
        destruct (S5 eq_refl) as (cs' & c & -> & Hc & Hf).
        exists [], m, (set_buffer rest w), cs', c.
        split_and!; [done| |done]. unfold call_raised. by rewrite Hc.
Qed.

Lemma foldl_push_stale w id (xs : list T) :
  timeout w = Some id →
  buffer (foldl (λ s y, push y s) w xs) = buffer w ++ xs
  ∧ timeout (foldl (λ s y, push y s) w xs) = Some id
  ∧ armed (foldl (λ s y, push y s) w xs) = armed w.
Proof.
  revert w. induction xs as [|y ys IH]; intros w Ht; simpl.
  - by rewrite app_nil_r.
  - destruct (push_timeout_set y w _ Ht) as [A1 A2].
    destruct (IH (push y w) A2) as (B1 & B2 & B3).
    rewrite B1, B2, B3, buffer_push, A1. by rewrite <- app_assoc.
Qed.

(** X29: a handler that raises stalls the worker. With handlers that leave
    the timers alone, when an invocation raises in the cycle of the one
    armed timer, it is the last invocation of that cycle; the cycle ends
    there with the [timeout] field still holding the handle of the timer
    that fired, and with no timer armed. Every later [push] then finds the
    field set and arms nothing: the messages are buffered and no cycle
    runs. *)
Theorem raising_handler_stalls_worker w id w' log (xs : list T) :
  (∀ h y s, timeout (outcome_state (run h y s)) = timeout s
            ∧ armed (outcome_state (run h y s)) = armed s) →
  timeout w = Some id → armed w = [id] →
  fire opts run w = Some (w', log) →
  Exists (λ c, call_raised c = true) (calls_of log) →
  (∃ log0 m s cs c,
      log = log0 ++ [Handled m s (cs ++ [c])]
      ∧ call_raised c = true
      ∧ Forall (λ c, call_raised c = false) (calls_of log0 ++ cs))
  ∧ timeout w' = Some id ∧ armed w' = []
  ∧ buffer (foldl (λ s y, push y s) w' xs) = buffer w' ++ xs
  ∧ timeout (foldl (λ s y, push y s) w' xs) = Some id
  ∧ armed (foldl (λ s y, push y s) w' xs) = []
  ∧ fire opts run (foldl (λ s y, push y s) w' xs) = None.
Proof.
  intros Hrun Ht Ha Hfire Hex. unfold fire in Hfire. rewrite Ha in Hfire.
  injection Hfire as Hdw.
  pose proof (doWork_loop_raised 50 (set_armed [] w)) as [R1 R2].
  pose proof (doWork_loop_timers 50 (set_armed [] w) Hrun) as [T1 T2].
  pose proof (doWork_snd opts run (set_armed [] w)) as Hsnd.
  pose proof (doWork_fst_raised (set_armed [] w)) as Hfst.
  rewrite Hdw in Hsnd, Hfst. cbn [fst snd] in Hsnd, Hfst.
  revert R1 R2 T1 T2 Hsnd Hfst.
  generalize (doWork_loop opts run 50 (set_armed [] w)).
  intros [o log1] R1 R2 T1 T2 Hsnd Hfst. cbn [fst snd] in R1, R2, T1, T2, Hsnd, Hfst.
  subst log1. destruct (raised o) eqn:Hr.
  2:{ exfalso. apply Exists_exists in Hex as (c & Hc & Hc').
      specialize (R1 eq_refl). rewrite Forall_forall in R1.
      specialize (R1 c Hc). congruence. }
  specialize (Hfst eq_refl). subst w'.
  assert (timeout (outcome_state o) = Some id) as Ht1 by (by rewrite T1).
  destruct (foldl_push_stale (outcome_state o) id xs Ht1) as (P1 & P2 & P3).
  split_and!; [by apply R2|done|done|done|done|by rewrite P3|].
  unfold fire. by rewrite P3, T2.
Qed.

End Cycle.
End Props.

(** ** The examples *)

Import Examples.

Lemma pushes_arm_one_timer_witness :
  let w' := foldl (λ s x, push x s) idle_worker [1; 2; 3] in
  buffer w' = buffer idle_worker ++ [1; 2; 3]
  ∧ timeout w' = Some (next_timer idle_worker)
  ∧ armed w' = armed idle_worker ++ [next_timer idle_worker].
Proof. apply pushes_arm_one_timer; [reflexivity|discriminate]. Defined.




Lemma handler_only_gets_its_key_witness :
  5 ∈ registered ANY keyed_regs
  ∨ ∃ gk, getKey pure_opts = Some gk ∧ 5 ∈ registered (Some (gk 2)) keyed_regs.
Proof.
  apply (handler_only_gets_its_key pure_opts pure_run keyed_regs tt keyed_worker 2 5).
  - reflexivity.
  - reflexivity.
  - vm_compute. apply list_elem_of_further, list_elem_of_here.
Defined.

Lemma deferred_queue_is_polled_witness :
  length (doWork pure_opts pure_run deferring_worker).2 = 50
  ∧ handled_messages (doWork pure_opts pure_run deferring_worker).2 = [].
Proof.
  destruct (deferred_queue_is_polled pure_opts pure_run deferring_worker) as (H1 & H2 & _).
  - intros y s Hy. vm_compute in Hy.
    apply elem_of_cons in Hy as [->|Hy]; [reflexivity|].
    apply list_elem_of_singleton in Hy as ->. reflexivity.
  - discriminate.
  - split; [exact H1|exact H2].
Defined.

Lemma clear_then_cycle_then_push_witness :
  ∃ w', fire pure_opts pure_run (clear fifo_worker) = Some (w', []) ∧ buffer w' = [].
Proof.
  destruct (clear_then_cycle_then_push pure_opts pure_run fifo_worker 4 1%positive [])
    as (w' & H1 & H2 & _).
  - reflexivity.
  - exists w'. split; [exact H1|exact H2].
Defined.

Lemma raising_handler_stalls_worker_witness :
  let r := doWork fifo_opts raising_run (set_armed [] raising_worker) in
  fire fifo_opts raising_run raising_worker = Some r
  ∧ buffer (foldl (λ s y, push y s) r.1 [2; 3]) = buffer r.1 ++ [2; 3]
  ∧ fire fifo_opts raising_run (foldl (λ s y, push y s) r.1 [2; 3]) = None.
Proof.
  intros r. split; [reflexivity|].
  destruct (raising_handler_stalls_worker fifo_opts raising_run raising_worker
              1%positive r.1 r.2 [2; 3]) as (_ & _ & _ & Hb & _ & _ & Hf).
  - intros h y s. unfold raising_run. by destruct (h =? 0).
  - reflexivity.
  - reflexivity.
  - vm_compute. reflexivity.
  - vm_compute. apply Exists_cons_hd. reflexivity.
  - split; [exact Hb|exact Hf].
Defined.

End WorkerMore.
(** * Part VII: the thunks, continued *)

Module ThunkMore.

Import Thunk ThunkProps.

(** ** Walking *)

Lemma walkThunks_leaves ts : walkThunks (Leaf <$> ts) = ts.
Proof.
  unfold walkThunks. induction ts as [|t ts IH]; [done|]. simpl. f_equal. exact IH.
Qed.

(** X8: [walkThunks] flattens. A merged thunk in the list contributes what
    walking its [thunks] yields, at its place; a merged thunk without
    members contributes nothing; a list of plain thunks is yielded as it is,
    so walking what a walk yielded changes nothing. *)
Theorem walkThunks_flattens (ns1 ns2 ns3 : list Node) (c : nat) (ts : list Thunk) :
  walkThunks (ns1 ++ Branch c ns2 :: ns3)
  = walkThunks ns1 ++ walkThunks ns2 ++ walkThunks ns3
  ∧ walkThunks (ns1 ++ Branch c [] :: ns3) = walkThunks (ns1 ++ ns3)
  ∧ walkThunks (Leaf <$> ts) = ts
  ∧ walkThunks (Leaf <$> walkThunks ns1) = walkThunks ns1.
Proof.
  unfold walkThunks. split_and!.
  - by rewrite flat_map_app.
  - by rewrite !flat_map_app.
  - apply walkThunks_leaves.
  - apply walkThunks_leaves.
Qed.

(** X9: after [publishThunks], the registry entry under the event id of
    any member is the merged thunk: [isMergedThunk] holds of it, and walking
    it yields the members of the batch, whose requests are the requests
    given, in order. *)
Theorem walk_registered_batch `{EventStages} now pk requests st t :
  let m := (publishThunks now pk requests st).1 in
  let st' := (publishThunks now pk requests st).2 in
  t ∈ thunks_of m →
  ∃ r, thunks st' !! event_id (thunk_event t) = Some r
       ∧ isMergedThunk (node_of r) = true
       ∧ walkThunks [node_of r] = thunks_of m
       ∧ request <$> walkThunks [node_of r] = requests.
Proof.
  intros m st' Ht. subst m st'. unfold publishThunks in *.
  pose proof (makeThunks_spec now pk requests st) as (Hreq & _).
  destruct (makeThunks now pk requests st) as [ts st1]. simpl in *.
  exists (Merged (mkMerged (next_id st1) ts)).
  rewrite publish_member_thunks, decide_True.
  2:{ apply list_elem_of_fmap. by exists t. }
  unfold walkThunks. simpl. rewrite app_nil_r.
  change (flat_map walkThunk (Leaf <$> ts)) with (walkThunks (Leaf <$> ts)).
  by rewrite walkThunks_leaves.
Qed.

(** ** Merged status *)

Lemma thunkStatus_Some statuses url st :
  thunkStatus statuses url = Some st →
  ∃ k, severity !! k = Some (status st)
       ∧ (∃ s, s ∈ statuses ∧ s !! url = Some st)
       ∧ ∀ k' level' s' st', k' < k → severity !! k' = Some level' →
           s' ∈ statuses → s' !! url = Some st' → status st' ≠ level'.
Proof.
  rewrite thunkStatus_levels.
  destruct (find _ (map (at_level statuses url) severity)) as [o|] eqn:Ef; [|done].
  simpl. intros ->.
  apply find_Some in Ef as (k & Hk & _ & Hbefore).
  change (map (at_level statuses url) severity)
    with (at_level statuses url <$> severity) in *.
  rewrite list_lookup_fmap in Hk.
  destruct (severity !! k) as [level|] eqn:Ek; [|done]. simpl in Hk.
  injection Hk as Hk.
  destruct (at_level_Some _ _ _ _ Hk) as (i & s & Hi & Hs & Hl & _).
  exists k. subst level. split_and!; [done| |].
  - exists s. split; [|done]. by eapply list_elem_of_lookup_2.
  - intros k' level' s' st' Hlt Ek' Hs' Hst'.
    specialize (Hbefore k' (at_level statuses url level') Hlt).
    rewrite list_lookup_fmap, Ek' in Hbefore. specialize (Hbefore eq_refl).
    apply bool_decide_eq_false in Hbefore.
    destruct (at_level statuses url level') eqn:E.
    + exfalso. apply Hbefore. by eexists.
    + by eapply at_level_None.
Qed.

(** X10: the merged status invents nothing and drops nothing. The status
    it holds for an endpoint is the status that some member holds for that
    endpoint, and it holds none exactly when no member does. *)
Theorem mergedStatus_from_members (statuses : list ThunkStatusByUrl) (url : string) :
  (∀ st, mergedStatus statuses !! url = Some st →
         ∃ s, s ∈ statuses ∧ s !! url = Some st)
  ∧ (mergedStatus statuses !! url = None ↔ ∀ s, s ∈ statuses → s !! url = None).
Proof.
  split.
  - intros st. rewrite mergedStatus_lookup. destruct (decide _); [|done].
    intros Hts. by apply thunkStatus_Some in Hts as (_ & _ & ? & _).
  - rewrite mergedStatus_lookup. split.
    + intros Hn s Hs. destruct (s !! url) as [st0|] eqn:E; [|done]. exfalso.
      destruct (thunkStatus_spec statuses url s st0 Hs E) as (_ & _ & st & _ & _ & _ & Hts).
      rewrite decide_True, Hts in Hn; [done|].
      apply elem_of_observed. exists s. split; [done|by eexists].
    + intros Hall. rewrite decide_False; [done|].
      rewrite elem_of_observed. intros (s & Hs & st & Hst).
      rewrite Hall in Hst; done.
Qed.

(** X11: the merged status of a single member is the status mapping of
    that member, and that of no member is empty. *)
Theorem mergedStatus_singleton (s : ThunkStatusByUrl) :
  mergedStatus [s] = s ∧ mergedStatus [] = ∅.
Proof.
  split; [|done]. apply map_eq. intros url. rewrite mergedStatus_lookup.
  destruct (s !! url) as [st|] eqn:E.
  - rewrite decide_True.
    2:{ apply elem_of_observed. exists s. split; [by left|by eexists]. }
    unfold thunkStatus, at_level, urlStatuses. simpl. rewrite E.
    by destruct st as [msg []].
  - rewrite decide_False; [done|]. rewrite elem_of_observed.
    intros (s' & Hs' & st & Hst). apply list_elem_of_singleton in Hs' as ->.
    congruence.
Qed.

Lemma severity_NoDup k1 k2 level :
  severity !! k1 = Some level → severity !! k2 = Some level → k1 = k2.
Proof.
  intros H1 H2. eapply NoDup_lookup; [|exact H1|exact H2].
  unfold severity. repeat (constructor; [set_solver|]). constructor.
Qed.

(** X12: the kind that the merged status shows for an endpoint does not
    depend on the order of the members. (The message may: it is that of the
    first member at the winning level.) *)
Theorem mergedStatus_kind_perm (statuses statuses' : list ThunkStatusByUrl) (url : string) :
  statuses ≡ₚ statuses' →
  status <$> mergedStatus statuses !! url = status <$> mergedStatus statuses' !! url.
Proof.
  intros Hp.
  assert (∀ l l' : list ThunkStatusByUrl, l ≡ₚ l' → ∀ st,
            mergedStatus l !! url = Some st →
            ∃ st', mergedStatus l' !! url = Some st' ∧ status st' = status st) as Hone.
  { intros l l' Hl st. rewrite !mergedStatus_lookup.
    destruct (decide _) as [Hin|]; [|done]. intros Hts.
    assert (url ∈ uniq (flat_map keys l')) as Hin'.
    { apply elem_of_observed. apply elem_of_observed in Hin as (s & Hs & ?).
      exists s. split; [by rewrite <- Hl|done]. }
    rewrite decide_True by done.
    apply thunkStatus_Some in Hts as (k & Hk & (s & Hs & Hst) & Hfirst).
    assert (s ∈ l') as Hs' by by rewrite <- Hl.
    destruct (thunkStatus_spec l' url s st Hs' Hst) as (k' & level' & st' & Hk' & Hat & Hb & Hts').
    exists st'. split; [done|].
    apply at_level_Some in Hat as (i & s2 & Hi & Hs2 & Hlevel & _). subst level'.
    assert (s2 ∈ l) as Hs2l.
    { rewrite Hl. by eapply list_elem_of_lookup_2. }
    destruct (lt_eq_lt_dec k k') as [[Hlt|Heq]|Hgt].
    - exfalso. eapply at_level_None; [by eapply (Hb k)|exact Hs'|exact Hst|done].
    - subst k'. congruence.
    - exfalso. by eapply (Hfirst k' (status st') s2 st'). }
  destruct (mergedStatus statuses !! url) as [st|] eqn:E1.
  - destruct (Hone _ _ Hp st E1) as (st' & -> & Hst). simpl. by f_equal.
  - destruct (mergedStatus statuses' !! url) as [st'|] eqn:E2; [|done].
    symmetry in Hp. destruct (Hone _ _ Hp st' E2) as (? & ? & _). congruence.
Qed.

(** ** Edge cases of the interface *)

(** X13: [publishThunks([])] returns a merged thunk without members. It
    allocates the controller and changes nothing else: nothing is queued,
    stored or registered. Walking the merged thunk yields nothing, its
    status is empty, and its result, [Promise.all] of no promise, is
    resolved with the empty array, whatever happens afterwards. *)
Theorem publishThunks_empty `{EventStages} (now : Z) (pk : string) (st : State)
    (actions : list Action) :
  let m := (publishThunks now pk [] st).1 in
  let st' := (publishThunks now pk [] st).2 in
  thunks_of m = []
  ∧ st' = set_next_id (S (next_id st)) st
  ∧ walkThunks [node_of (Merged m)] = []
  ∧ merged_status m (run actions st') = ∅
  ∧ merged_result m (run actions st') = Some [].
Proof. simpl. by split_and!. Qed.

(** X14: [prepEvent] runs the missing stages only. For an event that is
    stamped the clock is not consulted; for one that is stamped and owned,
    the session's pubkey is not consulted either, and the outcome is the
    event itself or its [hash]. *)
Theorem prepEvent_keeps_given_fields `{EventStages} (now now' : Z) (pk pk' : string)
    (e : Event) :
  isStampedEvent e = true →
  prepEvent now pk e = prepEvent now' pk e
  ∧ (isOwnedEvent e = true →
     prepEvent now pk e = prepEvent now' pk' e
     ∧ prepEvent now pk e = if isHashedEvent e then e else hash e).
Proof.
  intros Hs. unfold prepEvent. rewrite Hs. simpl. split; [done|].
  intros ->. simpl. split; [done|]. by destruct (isHashedEvent e).
Qed.

(** ** What each operation leaves alone *)

Lemma foldl_removeEvent_lookup l st k :
  repository (foldl (λ s i, repository_removeEvent i s) st l) !! k
  = if decide (k ∈ l) then None else repository st !! k.
Proof.
  revert st. induction l as [|i l IH]; intros st.
  - simpl. destruct (decide (k ∈ [])) as [Hin|_]; [|done]. by apply elem_of_nil in Hin.
  - cbn [foldl]. rewrite IH. simpl.
    destruct (decide (k ∈ l)) as [Hin|Hni];
      destruct (decide (k ∈ i :: l)) as [Hin'|Hni']; try done.
    + exfalso. apply Hni'. by right.
    + apply elem_of_cons in Hin' as [->|?]; [|done]. apply lookup_delete_eq.
    + rewrite lookup_delete_ne; [done|]. intros ->. apply Hni'. by left.
Qed.

Lemma foldl_controller_abort_shape ts st :
  ∃ R A, foldl (λ s t, controller_abort (tid t) s) st ts
         = set_repository R (set_aborted A st).
Proof.
  revert st. induction ts as [|t ts IH]; intros st.
  - exists (repository st), (aborted st). by destruct st.
  - cbn [foldl]. destruct (controller_abort_shape (tid t) st) as [R1 ->].
    destruct (IH (set_repository R1 (set_aborted ({[tid t]} ∪ aborted st) st))) as (R & A & ->).
    by exists R, A.
Qed.

Lemma merged_abort_shape m st :
  ∃ R A, merged_abort m st = set_repository R (set_aborted A st).
Proof.
  unfold merged_abort. destruct (is_aborted (mid m) st).
  - exists (repository st), (aborted st). by destruct st.
  - destruct (foldl_controller_abort_shape (thunks_of m)
                (set_aborted ({[mid m]} ∪ aborted st) st)) as (R & A & ->).
    by exists R, A.
Qed.

Lemma abortThunk_shape t st :
  ∃ R, abortThunk t st
       = set_repository R
           (set_thunks (delete (event_id (thunk_event t)) (thunks st))
              (set_aborted ({[tid t]} ∪ aborted st) st)).
Proof.
  unfold abortThunk. destruct (controller_abort_shape (tid t) st) as [R ->].
  by eexists.
Qed.

Lemma publish_members_fields m ts st :
  tracker (foldl (publish_member m) st ts) = tracker st
  ∧ results (foldl (publish_member m) st ts) = results st
  ∧ aborted (foldl (publish_member m) st ts) = aborted st.
Proof.
  revert st. induction ts as [|t ts IH]; intros st; [done|].
  cbn [foldl]. destruct (IH (publish_member m st t)) as (-> & -> & ->). done.
Qed.

Lemma makeThunks_fields `{EventStages} now pk rs st :
  tracker (makeThunks now pk rs st).2 = tracker st
  ∧ results (makeThunks now pk rs st).2 = results st
  ∧ thunks (makeThunks now pk rs st).2 = thunks st
  ∧ aborted (makeThunks now pk rs st).2 = aborted st
  ∧ repository (makeThunks now pk rs st).2 = repository st.
Proof.
  destruct (makeThunks_spec now pk rs st) as (_ & _ & _ & ->). done.
Qed.

Ltac dispatch_crush :=
  unfold processItem, sign_settled, after_sign, send, fail, on_event,
    status_update, status_set, resolve, tracker_track, is_aborted;
  repeat (case_match || case_bool_decide); simpl; try done.

(** ** A result is resolved once *)

Lemma results_step `{EventStages} a st c v :
  results st !! c = Some v → results (step a st) !! c = Some v.
Proof.
  intros Hr. destruct a as [now pk r|now pk rs|t|m|t|signer|k o|k|k ev]; cbn [step].
  - done.
  - unfold publishThunks.
    pose proof (makeThunks_fields now pk rs st) as (_ & E & _).
    destruct (makeThunks now pk rs st) as [ts st1]. simpl in *.
    destruct (publish_members_fields (mkMerged (next_id st1) ts)
                ts (set_next_id (S (next_id st1)) st1)) as (_ & -> & _).
    simpl. by rewrite E.
  - destruct (allocated _ _); [|done].
    by destruct (controller_abort_shape (tid t) st) as [R ->].
  - destruct (_ && _); [|done].
    by destruct (merged_abort_shape m st) as (R & A & ->).
  - destruct (allocated _ _); [|done].
    by destruct (abortThunk_shape t st) as [R ->].
  - destruct (queue st) as [|t rest]; [done|].
    revert Hr. dispatch_crush.
  - destruct (tasks st !! k) as [[t|t ev|t ev]|]; try done.
    revert Hr. dispatch_crush.
  - destruct (tasks st !! k) as [[t|t ev|t ev]|]; try done.
    revert Hr. dispatch_crush.
  - destruct (tasks st !! k) as [[t|t ev'|t ev']|]; try done.
    revert Hr. dispatch_crush.
    intros Hr. rewrite lookup_insert_ne; [done|]. intros Heq. congruence.
Qed.

Lemma results_run `{EventStages} actions st c v :
  results st !! c = Some v → results (run actions st) !! c = Some v.
Proof.
  revert st. induction actions as [|a actions IH]; intros st Hr; [done|].
  simpl. apply IH. by apply results_step.
Qed.

Lemma results_step_new `{EventStages} a st c v :
  wf st → results st !! c = None → results (step a st) !! c = Some v →
  ∃ t signedEvent, tid t = c ∧ a = ANotify c EvComplete
       ∧ tasks st !! c = Some (Sending t signedEvent)
       ∧ v = status_of t st.
Proof.
  intros Hwf Hn. destruct a as [now pk r|now pk rs|t|m|t|signer|k o|k|k ev]; cbn [step].
  - simpl. congruence.
  - unfold publishThunks.
    pose proof (makeThunks_fields now pk rs st) as (_ & E & _).
    destruct (makeThunks now pk rs st) as [ts st1]. simpl in *.
    destruct (publish_members_fields (mkMerged (next_id st1) ts)
                ts (set_next_id (S (next_id st1)) st1)) as (_ & -> & _).
    simpl. rewrite E. congruence.
  - destruct (allocated _ _); [|congruence].
    destruct (controller_abort_shape (tid t) st) as [R ->]. simpl. congruence.
  - destruct (_ && _); [|congruence].
    destruct (merged_abort_shape m st) as (R & A & ->). simpl. congruence.
  - destruct (allocated _ _); [|congruence].
    destruct (abortThunk_shape t st) as [R ->]. simpl. congruence.
  - destruct (queue st) as [|t rest]; [congruence|].
    revert Hn. dispatch_crush; congruence.
  - destruct (tasks st !! k) as [[t|t ev|t ev]|]; try congruence.
    revert Hn. dispatch_crush; congruence.
  - destruct (tasks st !! k) as [[t|t ev|t ev]|]; try congruence.
    revert Hn. dispatch_crush; congruence.
  - destruct (tasks st !! k) as [[t|t ev'|t ev']|] eqn:Ek; try congruence.
    destruct (wf_tasks _ Hwf _ _ Ek) as (Htid & _ & _). simpl in Htid. subst k.
    revert Hn. dispatch_crush; try congruence.
    intros Hn. destruct (decide (tid t = c)) as [Heq|Hne].
    + subst c. rewrite lookup_insert_eq. intros [= <-]. by exists t, ev'.
    + rewrite lookup_insert_ne by done. congruence.
Qed.

(** X15: a result is resolved once. When the result of a thunk is resolved,
    it stays resolved with the same value along every execution: neither a
    second Complete, nor later notifications, nor an abort change it. *)
Theorem result_is_settled_once `{EventStages} (actions : list Action) (st : State)
    (t : Thunk) (v : ThunkStatusByUrl) :
  result_of t st = Some v → result_of t (run actions st) = Some v.
Proof. apply results_run. Qed.

(** X16: in a state reached from the initial one, the only step that
    resolves the result of a thunk is the Complete notification of its
    broadcaster, and the value is the status mapping the thunk has at that
    moment. *)
Theorem result_only_by_complete `{EventStages} (pre : list Action) (a : Action)
    (t : Thunk) (v : ThunkStatusByUrl) :
  let st := run pre init in
  result_of t st = None → result_of t (step a st) = Some v →
  a = ANotify (tid t) EvComplete
  ∧ v = status_of t st
  ∧ ∃ t' signedEvent, tasks st !! tid t = Some (Sending t' signedEvent).
Proof.
  intros st. unfold result_of. intros Hn Hs.
  destruct (results_step_new a st (tid t) v (wf_reached pre) Hn Hs)
    as (t' & ev & Htid & -> & Ht & ->).
  split_and!; [done| |by eauto]. unfold status_of. by rewrite Htid.
Qed.

(** ** The registry *)

Lemma thunks_step `{EventStages} a st k :
  is_Some (thunks st !! k) →
  (∀ t, a = AAbortThunk t → event_id (thunk_event t) ≠ k) →
  is_Some (thunks (step a st) !! k).
Proof.
  intros Hk Hab. destruct a as [now pk r|now pk rs|t|m|t|signer|c o|c|c ev]; cbn [step].
  - simpl. unfold assoc. apply lookup_insert_is_Some'. by right.
  - unfold publishThunks.
    pose proof (makeThunks_fields now pk rs st) as (_ & _ & E & _).
    destruct (makeThunks now pk rs st) as [ts st1]. simpl in *.
    rewrite publish_member_thunks. destruct (decide _); [by eexists|].
    simpl. by rewrite E.
  - destruct (allocated _ _); [|done].
    by destruct (controller_abort_shape (tid t) st) as [R ->].
  - destruct (_ && _); [|done].
    by destruct (merged_abort_shape m st) as (R & A & ->).
  - destruct (allocated _ _); [|done].
    destruct (abortThunk_shape t st) as [R ->]. simpl.
    rewrite lookup_delete_ne; [done|]. by apply Hab.
  - destruct (queue st) as [|t rest]; [done|].
    revert Hk. dispatch_crush.
  - destruct (tasks st !! c) as [[t|t ev|t ev]|]; try done.
    revert Hk. dispatch_crush.
  - destruct (tasks st !! c) as [[t|t ev|t ev]|]; try done.
    revert Hk. dispatch_crush.
  - destruct (tasks st !! c) as [[t|t ev'|t ev']|]; try done.
    revert Hk. dispatch_crush.
Qed.

(** X17: the registry [thunks] forgets only through [abortThunk]. A key
    that has an entry has one after every execution in which [abortThunk]
    is not called for an event with this id: completion, failure and the
    abort of a controller leave it there. *)
Theorem registry_entries_persist `{EventStages} (actions : list Action) (st : State)
    (k : string) :
  is_Some (thunks st !! k) →
  (∀ t, AAbortThunk t ∈ actions → event_id (thunk_event t) ≠ k) →
  is_Some (thunks (run actions st) !! k).
Proof.
  revert st. induction actions as [|a actions IH]; intros st Hk Hab; [done|].
  simpl. apply IH.
  - apply thunks_step; [done|]. intros t ->. apply Hab. by left.
  - intros t Ht. apply Hab. by right.
Qed.

(** ** The tracker *)

Lemma tracker_step `{EventStages} a st :
  ∃ l, tracker (step a st) = tracker st ++ l ∧ l `sublist_of` reported_successes [a].
Proof.
  assert (∀ st', tracker st' = tracker st →
            ∃ l, tracker st' = tracker st ++ l ∧ l `sublist_of` reported_successes [a]) as Hsame.
  { intros st' ->. exists []. split; [by rewrite app_nil_r|apply sublist_nil_l]. }
  destruct a as [now pk r|now pk rs|t|m|t|signer|c o|c|c ev]; cbn [step].
  - by apply Hsame.
  - apply Hsame. unfold publishThunks.
    pose proof (makeThunks_fields now pk rs st) as (E & _).
    destruct (makeThunks now pk rs st) as [ts st1]. simpl in *.
    destruct (publish_members_fields (mkMerged (next_id st1) ts)
                ts (set_next_id (S (next_id st1)) st1)) as (-> & _).
    done.
  - apply Hsame. destruct (allocated _ _); [|done].
    by destruct (controller_abort_shape (tid t) st) as [R ->].
  - apply Hsame. destruct (_ && _); [|done].
    by destruct (merged_abort_shape m st) as (R & A & ->).
  - apply Hsame. destruct (allocated _ _); [|done].
    by destruct (abortThunk_shape t st) as [R ->].
  - apply Hsame. destruct (queue st) as [|t rest]; [done|]. dispatch_crush.
  - apply Hsame. destruct (tasks st !! c) as [[t|t ev|t ev]|]; try done. dispatch_crush.
  - apply Hsame. destruct (tasks st !! c) as [[t|t ev|t ev]|]; try done. dispatch_crush.
  - destruct (tasks st !! c) as [[t|t ev'|t ev']|]; try by apply Hsame.
    destruct ev as [i msg u|i msg u|u|u|]; try by (apply Hsame; dispatch_crush).
    exists [(i, u)]. split; [done|]. simpl. done.
Qed.

(** X18: the tracker only grows, and only by what the broadcasters report
    as successes: what it holds after an execution is what it held before,
    followed by a subsequence of the (event id, endpoint) pairs of the
    Success notifications, in their order. *)
Theorem tracker_only_grows `{EventStages} (actions : list Action) (st : State) :
  ∃ l, tracker (run actions st) = tracker st ++ l
       ∧ l `sublist_of` reported_successes actions.
Proof.
  revert st. induction actions as [|a actions IH]; intros st.
  - exists []. split; [by rewrite app_nil_r|done].
  - destruct (tracker_step a st) as (l1 & E1 & S1).
    destruct (IH (step a st)) as (l2 & E2 & S2).
    exists (l1 ++ l2). split.
    + simpl. by rewrite E2, E1, app_assoc.
    + change (a :: actions) with ([a] ++ actions).
      unfold reported_successes in *. rewrite omap_app. by apply sublist_app.
Qed.

(** ** The life of a thunk *)

Lemma aborted_step `{EventStages} a st c : c ∈ aborted st → c ∈ aborted (step a st).
Proof.
  intros Hc. destruct a as [now pk r|now pk rs|t|m|t|signer|k o|k|k ev]; cbn [step].
  - done.
  - unfold publishThunks.
    pose proof (makeThunks_fields now pk rs st) as (_ & _ & _ & E & _).
    destruct (makeThunks now pk rs st) as [ts st1]. simpl in *.
    destruct (publish_members_fields (mkMerged (next_id st1) ts)
                ts (set_next_id (S (next_id st1)) st1)) as (_ & _ & ->).
    simpl. by rewrite E.
  - destruct (allocated _ _); [|done]. rewrite controller_abort_aborted. set_solver.
  - destruct (_ && _); [|done]. unfold merged_abort.
    destruct (is_aborted (mid m) st); [done|].
    rewrite foldl_controller_abort_aborted. simpl. set_solver.
  - destruct (allocated _ _); [|done].
    destruct (abortThunk_shape t st) as [R ->]. simpl. set_solver.
  - destruct (queue st) as [|t rest]; [done|]. revert Hc. dispatch_crush.
  - destruct (tasks st !! k) as [[t|t ev|t ev]|]; try done. revert Hc. dispatch_crush.
  - destruct (tasks st !! k) as [[t|t ev|t ev]|]; try done. revert Hc. dispatch_crush.
  - destruct (tasks st !! k) as [[t|t ev'|t ev']|]; try done. revert Hc. dispatch_crush.
Qed.

Lemma aborted_run `{EventStages} actions st c :
  c ∈ aborted st → c ∈ aborted (run actions st).
Proof.
  revert st. induction actions as [|a actions IH]; intros st Hc; [done|].
  simpl. by apply IH, aborted_step.
Qed.

Lemma lifecycle_frame b t st st' :
  statuses st' !! tid t = statuses st !! tid t →
  results st' !! tid t = results st !! tid t →
  tasks st' !! tid t = tasks st !! tid t →
  (t ∈ queue st → t ∈ queue st') →
  (settled (tid t) st → settled (tid t) st') →
  (tid t ∈ aborted st → tid t ∈ aborted st') →
  lifecycle b t st → lifecycle b t st'.
Proof.
  intros Hs Hr Ht Hq Hset Hab [Hin|H1 H2 H3|ev H1 H2 H3|ev s Hb H1 H2 H3 H4|msg s H1 H2 H3 H4|H1 H2 H3 H4].
  - apply lc_queued; auto.
  - apply lc_sign; congruence.
  - apply (lc_delay _ _ _ ev); congruence.
  - apply (lc_sending _ _ _ ev s); [done|congruence|congruence|done|by rewrite Hr].
  - apply (lc_failed _ _ _ msg s); auto; congruence.
  - apply lc_dropped; auto; congruence.
Qed.

Lemma fail_lifecycle b t msg st :
  tid t < next_id st → tid t ∉ tid <$> queue st → tasks st !! tid t = None →
  results st !! tid t = None →
  lifecycle b t (fail t msg st).
Proof.
  intros Hn Hq Ht Hr.
  destruct (statuses (fail t msg st) !! tid t) as [s|] eqn:Es.
  2:{ unfold fail, status_set in Es. simpl in Es. by rewrite lookup_insert_eq in Es. }
  apply (lc_failed _ _ _ msg s); [by split_and!|done| |done].
  intros url. pose proof (fail_status_at t msg url st) as Hf.
  unfold status_at in Hf. by rewrite Es in Hf.
Qed.

Lemma send_lifecycle b t ev st :
  tid t < next_id st → tid t ∉ tid <$> queue st →
  statuses st !! tid t = None → results st !! tid t = None →
  (b = false → tid t ∈ aborted st) →
  lifecycle b t (send t ev st).
Proof.
  intros Hn Hq Hs Hr Hb. destruct (is_aborted (tid t) st) eqn:Ha.
  - unfold send. rewrite Ha. apply lc_dropped; simpl; try done.
    + split_and!; simpl; [done| |done]. apply lookup_delete_eq.
    + by apply bool_decide_eq_true in Ha.
  - assert (b = true) as ->.
    { destruct b; [done|]. apply bool_decide_eq_false in Ha.
      exfalso. apply Ha. by apply Hb. }
    destruct (statuses (send t ev st) !! tid t) as [s|] eqn:Es.
    2:{ unfold send in Es. rewrite Ha in Es. simpl in Es.
        by rewrite lookup_insert_eq in Es. }
    apply (lc_sending _ _ _ ev s); try done.
    + unfold send. rewrite Ha. simpl. apply lookup_insert_eq.
    + intros url Hurl. pose proof (send_status_at t ev url st Ha) as Hf.
      unfold status_at in Hf. rewrite Es in Hf. simpl in Hf.
      rewrite Hf, decide_True by done. by eexists.
    + unfold send. rewrite Ha. simpl. by rewrite Hr.
Qed.

Lemma after_sign_lifecycle b t ev st :
  tid t < next_id st → tid t ∉ tid <$> queue st →
  statuses st !! tid t = None → results st !! tid t = None →
  (b = false → tid t ∈ aborted st) →
  lifecycle b t (after_sign t ev st).
Proof.
  intros Hn Hq Hs Hr Hb. unfold after_sign. destruct (truthy _).
  - apply (lc_delay _ _ _ ev); simpl; [apply lookup_insert_eq|done..].
  - by apply send_lifecycle.
Qed.

Lemma processItem_lifecycle b signer t st :
  tid t < next_id st → tid t ∉ tid <$> queue st →
  statuses st !! tid t = None → results st !! tid t = None →
  tasks st !! tid t = None →
  (b = false → tid t ∈ aborted st) →
  lifecycle b t (processItem signer t st).
Proof.
  intros Hn Hq Hs Hr Ht Hb. unfold processItem.
  destruct (is_aborted (tid t) st) eqn:Ha.
  { apply lc_dropped; [by split_and!|by apply bool_decide_eq_true in Ha|done|done]. }
  cbv zeta. destruct (negb (isSignedEvent _)).
  - destruct (negb signer).
    + by apply fail_lifecycle.
    + apply lc_sign; simpl; [apply lookup_insert_eq|done..].
  - by apply after_sign_lifecycle.
Qed.

Lemma sign_settled_lifecycle b t o st :
  tid t < next_id st → tid t ∉ tid <$> queue st →
  statuses st !! tid t = None → results st !! tid t = None →
  (b = false → tid t ∈ aborted st) →
  lifecycle b t (sign_settled t o st).
Proof.
  intros Hn Hq Hs Hr Hb. unfold sign_settled. cbv zeta. destruct o as [ev|msg].
  - by apply after_sign_lifecycle.
  - apply fail_lifecycle; simpl; [done..| |done]. apply lookup_delete_eq.
Qed.

Lemma on_event_lifecycle b t ev' ev s st :
  b = true →
  tasks st !! tid t = Some (Sending t ev') →
  statuses st !! tid t = Some s → covers t s →
  (∀ r, results st !! tid t = Some r → covers t r) →
  lifecycle b t (on_event t ev st).
Proof.
  intros Hb Ht Hs Hc Hr.
  assert (∀ u x st0, tasks st0 = tasks st → statuses st0 = statuses st →
            results st0 = results st →
            lifecycle b t (status_update t (assoc u x) st0)) as Hup.
  { intros u x st0 E1 E2 E3.
    apply (lc_sending _ _ _ ev' (<[u := x]> s)); simpl; try done.
    - by rewrite E1.
    - rewrite lookup_insert_eq. unfold status_of, assoc. by rewrite E2, Hs.
    - intros url Hurl. apply lookup_insert_is_Some'. right. by apply Hc.
    - by rewrite E3. }
  destruct ev as [i msg u|i msg u|u|u|]; cbn [on_event]; try by apply Hup.
  unfold resolve, status_of. rewrite Hs. simpl.
  destruct (results st !! tid t) as [r|] eqn:Er.
  - apply (lc_sending _ _ _ ev' s); try done. by rewrite Er.
  - apply (lc_sending _ _ _ ev' s); simpl; try done.
    rewrite lookup_insert_eq. by intros r [= <-].
Qed.

Lemma lifecycle_step `{EventStages} b a t st :
  wf st → (b = false → tid t ∈ aborted st) →
  lifecycle b t st → lifecycle b t (step a st).
Proof.
  intros Hwf Hb Hlc.
  assert ((∀ signer t' q, a = ADispatch signer → queue st = t' :: q → tid t' ≠ tid t) →
          (∀ o, a ≠ ASignSettled (tid t) o) → a ≠ ADelayElapsed (tid t) →
          (∀ ev, a ≠ ANotify (tid t) ev) →
          lifecycle b t (step a st)) as Hframe.
  { intros G1 G2 G3 G4.
    destruct (step_frame a (tid t) st Hwf G1 G2 G3 G4) as (F1 & F2 & F3 & F4).
    eapply lifecycle_frame; [done|done|done|by apply F4| |apply aborted_step|done].
    intros Hs. by apply settled_step. }
  assert (step a st = st → lifecycle b t (step a st)) as Hsame by (by intros ->).
  destruct a as [now pk r|now pk rs|t0|m|t0|signer|k o|k|k ev].
  - by apply Hframe.
  - by apply Hframe.
  - by apply Hframe.
  - by apply Hframe.
  - by apply Hframe.
  - destruct (queue st) as [|t' q] eqn:Eq.
    { apply Hsame. simpl. by rewrite Eq. }
    destruct (decide (tid t' = tid t)) as [Heq|Hne].
    2:{ apply Hframe; try done. by intros ? ? ? _ [= <- <-]. }
    destruct (wf_pop t' q st Hwf Eq) as (Hwf' & Hn & Hni).
    assert (∀ task, tasks st !! tid t = Some task → False) as Hno.
    { intros task H1. destruct (wf_tasks _ Hwf _ _ H1) as (_ & _ & Hq). apply Hq.
      rewrite Eq, fmap_cons, Heq. by left. }
    destruct Hlc as [Hin|H1 H2 H3|ev H1 H2 H3|ev s Hs H1 H2 H3 H4|msg s H1 H2 H3 H4|H1 H2 H3 H4].
    + assert (t' = t) as ->.
      { rewrite Eq in Hin. apply elem_of_cons in Hin as [->|Hin]; [done|].
        exfalso. apply Hni. rewrite Heq. apply list_elem_of_fmap. by exists t. }
      destruct (queued_fresh t st Hwf) as (Q1 & Q2 & Q3 & Q4); [rewrite Eq; by left|].
      simpl. rewrite Eq. by apply processItem_lifecycle.
    + by destruct (Hno _ H1).
    + by destruct (Hno _ H1).
    + by destruct (Hno _ H1).
    + destruct (settled_step (ADispatch signer) (tid t) st Hwf H1) as (S1 & S2 & S3).
      apply (lc_failed _ _ _ msg s); [done|congruence|done|congruence].
    + destruct (settled_step (ADispatch signer) (tid t) st Hwf H1) as (S1 & S2 & S3).
      apply lc_dropped; [done|by apply aborted_step|congruence|congruence].
  - destruct (decide (k = tid t)) as [->|Hne].
    2:{ apply Hframe; try done; congruence. }
    destruct Hlc as [Hin|H1 H2 H3|ev H1 H2 H3|ev s Hs H1 H2 H3 H4|msg s H1 H2 H3 H4|H1 H2 H3 H4].
    + destruct (queued_fresh t st Hwf Hin) as (Q1 & Q2 & Q3 & Q4).
      apply Hsame. simpl. by rewrite Q3.
    + destruct (wf_tasks _ Hwf _ _ H1) as (_ & Hn & Hq).
      simpl. rewrite H1. by apply sign_settled_lifecycle.
    + apply Hsame. simpl. by rewrite H1.
    + apply Hsame. simpl. by rewrite H1.
    + destruct H1 as (_ & Hs & _). apply Hsame. simpl. by rewrite Hs.
    + destruct H1 as (_ & Hs & _). apply Hsame. simpl. by rewrite Hs.
  - destruct (decide (k = tid t)) as [->|Hne].
    2:{ apply Hframe; try done; congruence. }
    destruct Hlc as [Hin|H1 H2 H3|ev H1 H2 H3|ev s Hs H1 H2 H3 H4|msg s H1 H2 H3 H4|H1 H2 H3 H4].
    + destruct (queued_fresh t st Hwf Hin) as (Q1 & Q2 & Q3 & Q4).
      apply Hsame. simpl. by rewrite Q3.
    + apply Hsame. simpl. by rewrite H1.
    + destruct (wf_tasks _ Hwf _ _ H1) as (_ & Hn & Hq).
      simpl. rewrite H1. by apply send_lifecycle.
    + apply Hsame. simpl. by rewrite H1.
    + destruct H1 as (_ & Hs & _). apply Hsame. simpl. by rewrite Hs.
    + destruct H1 as (_ & Hs & _). apply Hsame. simpl. by rewrite Hs.
  - destruct (decide (k = tid t)) as [->|Hne].
    2:{ apply Hframe; try done; congruence. }
    destruct Hlc as [Hin|H1 H2 H3|ev' H1 H2 H3|ev' s Hs H1 H2 H3 H4|msg s H1 H2 H3 H4|H1 H2 H3 H4].
    + destruct (queued_fresh t st Hwf Hin) as (Q1 & Q2 & Q3 & Q4).
      apply Hsame. simpl. by rewrite Q3.
    + apply Hsame. simpl. by rewrite H1.
    + apply Hsame. simpl. by rewrite H1.
    + cbn [step]. rewrite H1. by eapply on_event_lifecycle.
    + destruct H1 as (_ & Hs & _). apply Hsame. simpl. by rewrite Hs.
    + destruct H1 as (_ & Hs & _). apply Hsame. simpl. by rewrite Hs.
Qed.

Lemma lifecycle_run `{EventStages} b actions t st :
  wf st → (b = false → tid t ∈ aborted st) →
  lifecycle b t st → lifecycle b t (run actions st).
Proof.
  revert st. induction actions as [|a actions IH]; intros st Hwf Hb Hlc; [done|].
  simpl. apply IH; [by apply wf_step| |by apply lifecycle_step].
  intros Hf. by apply aborted_step, Hb.
Qed.

(** A thunk that has not been handed to the broadcaster is at one of the
    places that do not need [sendable]. *)
Lemma lifecycle_unsent t st :
  lifecycle true t st → (∀ ev, tasks st !! tid t ≠ Some (Sending t ev)) →
  lifecycle false t st.
Proof.
  intros [Hin|H1 H2 H3|ev H1 H2 H3|ev s Hs H1 H2 H3 H4|msg s H1 H2 H3 H4|H1 H2 H3 H4] Hno.
  - by apply lc_queued.
  - by apply lc_sign.
  - by apply (lc_delay _ _ _ ev).
  - by destruct (Hno ev).
  - by apply (lc_failed _ _ _ msg s).
  - by apply lc_dropped.
Qed.


(** X20: the status mapping of a thunk is empty, or it has an entry for
    every relay of the request: no execution leaves a thunk with statuses
    for some of its relays only. *)
Theorem status_all_or_nothing `{EventStages} (pre actions : list Action) (t : Thunk) :
  let st := run pre init in
  t ∈ queue st →
  status_of t (run actions st) = ∅ ∨ covers t (status_of t (run actions st)).
Proof.
  intros st Hq.
  assert (wf (run actions st)) as Hwf by apply wf_run, wf_reached.
  assert (lifecycle true t (run actions st)) as Hlc.
  { apply lifecycle_run; [apply wf_reached|done|by apply lc_queued]. }
  unfold status_of.
  destruct Hlc as [Hin|H1 H2 H3|ev H1 H2 H3|ev s Hs H1 H2 H3 H4|msg s H1 H2 H3 H4|H1 H2 H3 H4].
  - destruct (queued_fresh t _ Hwf Hin) as (_ & -> & _). by left.
  - rewrite H2. by left.
  - rewrite H2. by left.
  - rewrite H2. by right.
  - rewrite H2. right. intros url Hurl. simpl. rewrite H3, decide_True by done. by eexists.
  - rewrite H3. by left.
Qed.

(** X21: a result is resolved only for a thunk that was handed to the
    broadcaster, and the value has an entry for every relay of the request.
    A thunk that failed to sign, or that was dropped, has no result. *)
Theorem result_only_after_send `{EventStages} (pre actions : list Action) (t : Thunk)
    (r : ThunkStatusByUrl) :
  let st := run pre init in
  t ∈ queue st →
  result_of t (run actions st) = Some r →
  covers t r
  ∧ ∃ signedEvent s, tasks (run actions st) !! tid t = Some (Sending t signedEvent)
                     ∧ statuses (run actions st) !! tid t = Some s ∧ covers t s.
Proof.
  intros st Hq Hr. unfold result_of in Hr.
  assert (wf (run actions st)) as Hwf by apply wf_run, wf_reached.
  assert (lifecycle true t (run actions st)) as Hlc.
  { apply lifecycle_run; [apply wf_reached|done|by apply lc_queued]. }
  destruct Hlc as [Hin|H1 H2 H3|ev H1 H2 H3|ev s Hs H1 H2 H3 H4|msg s H1 H2 H3 H4|H1 H2 H3 H4];
    try congruence.
  - destruct (queued_fresh t _ Hwf Hin) as (_ & _ & _ & Q). congruence.
  - split; [by apply H4|]. by exists ev, s.
Qed.

(** X22: an abort before the send is final. If the signal of a thunk is
    set while it is queued, waiting for the signer or waiting for its delay,
    then along every further execution the thunk is not handed to the
    broadcaster, its result is not resolved, and the only status it can come
    to show is Failure, when the signer rejects after the abort. *)
Theorem abort_before_send `{EventStages} (pre acts1 acts2 : list Action) (t : Thunk) :
  let st := run pre init in
  let st1 := run acts1 st in
  let st2 := run acts2 st1 in
  t ∈ queue st →
  tid t ∈ aborted st1 →
  (∀ signedEvent, tasks st1 !! tid t ≠ Some (Sending t signedEvent)) →
  (∀ signedEvent, tasks st2 !! tid t ≠ Some (Sending t signedEvent))
  ∧ (∀ url s, status_of t st2 !! url = Some s → status s = Failure)
  ∧ result_of t st2 = None.
Proof.
  intros st st1 st2 Hq Hab Hno.
  assert (wf st1) as Hwf1 by apply wf_run, wf_reached.
  assert (wf st2) as Hwf2 by by apply wf_run.
  assert (lifecycle false t st2) as Hlc.
  { apply lifecycle_run; [done|done|]. apply lifecycle_unsent; [|done].
    apply lifecycle_run; [apply wf_reached|done|by apply lc_queued]. }
  unfold status_of, result_of.
  destruct Hlc as [Hin|H1 H2 H3|ev H1 H2 H3|ev s Hs H1 H2 H3 H4|msg s H1 H2 H3 H4|H1 H2 H3 H4];
    try done.
  - destruct (queued_fresh t _ Hwf2 Hin) as (_ & Q2 & Q3 & Q4).
    rewrite Q2, Q3, Q4. split_and!; [done| |done]. intros url s. simpl. by rewrite lookup_empty.
  - rewrite H1, H2, H3. split_and!; [intros ev; congruence| |done].
    intros url s. simpl. by rewrite lookup_empty.
  - rewrite H1, H2, H3. split_and!; [intros ev'; congruence| |done].
    intros url s. simpl. by rewrite lookup_empty.
  - destruct H1 as (_ & Ht & _). rewrite Ht, H2, H4. split_and!; [done| |done].
    intros url s0. simpl. rewrite H3. destruct (decide _); [|done]. by intros [= <-].
  - destruct H1 as (_ & Ht & _). rewrite Ht, H3, H4. split_and!; [done| |done].
    intros url s. simpl. by rewrite lookup_empty.
Qed.

(** ** The result of a batch *)

(** X23: the result of a batch, [Promise.all] of the members' results,
    is resolved only when every member was handed to the broadcaster and
    its result is resolved; the values are the members' results in member
    order, each with an entry for every relay of its request. *)
Theorem batch_result_needs_every_member `{EventStages} (pre actions : list Action)
    (now : Z) (pk : string) (requests : list ThunkRequest)
    (rs : list ThunkStatusByUrl) :
  let st := run pre init in
  let m := (publishThunks now pk requests st).1 in
  let st' := run actions (publishThunks now pk requests st).2 in
  merged_result m st' = Some rs →
  length rs = length requests
  ∧ ∀ i t, thunks_of m !! i = Some t →
      ∃ r signedEvent, rs !! i = Some r ∧ result_of t st' = Some r ∧ covers t r
                       ∧ tasks st' !! tid t = Some (Sending t signedEvent).
Proof.
  intros st m st' Hres. unfold merged_result in Hres. apply mapM_Some in Hres.
  pose proof (publishThunks_extends now pk requests st) as Hext.
  pose proof (makeThunks_spec now pk requests st) as (Hreq & _).
  assert (length (thunks_of m) = length requests) as Hlen.
  { subst m. unfold publishThunks. destruct (makeThunks now pk requests st) as [ts st0].
    simpl in *. by rewrite <- Hreq, length_fmap. }
  fold m in Hext. set (st1 := (publishThunks now pk requests st).2) in *.
  assert (wf st1) as Hwf1 by (eapply wf_extends_queue; [apply wf_reached|done]).
  split; [by rewrite <- (Forall2_length _ _ _ Hres)|].
  intros i t Hi.
  destruct (Forall2_lookup_l _ _ _ _ _ Hres Hi) as (r & Hr & Hrt).
  assert (t ∈ queue st1) as Hq.
  { destruct Hext as (_ & _ & _ & _ & _ & -> & _). apply elem_of_app. right.
    by eapply list_elem_of_lookup_2. }
  assert (lifecycle true t st') as Hlc.
  { apply lifecycle_run; [done|done|by apply lc_queued]. }
  assert (wf st') as Hwf' by by apply wf_run.
  unfold result_of in *.
  destruct Hlc as [Hin|H1 H2 H3|ev H1 H2 H3|ev s Hs H1 H2 H3 H4|msg s H1 H2 H3 H4|H1 H2 H3 H4];
    try congruence.
  - destruct (queued_fresh t _ Hwf' Hin) as (_ & _ & _ & Q). congruence.
  - exists r, ev. split_and!; [done|done|by apply H4|done].
Qed.

(** ** Publishing and aborting one thunk *)

(** X24: what [publishThunk] leaves. The thunk carries the completed
    event; it is registered as itself and stored in the repository under
    the id of that event, and queued last; its status is empty, its result
    unresolved and its signal not set; the other entries of the registry
    and of the repository are as before. Aborting its controller then
    removes the event from the repository, and leaves the thunk registered
    and queued. *)
Theorem published_thunk_is_registered `{EventStages} (pre : list Action) (now : Z)
    (pk : string) (request : ThunkRequest) :
  let st := run pre init in
  let t := (publishThunk now pk request st).1 in
  let st' := (publishThunk now pk request st).2 in
  let i := event_id (thunk_event t) in
  thunk_event t = prepEvent now pk (event request)
  ∧ thunks st' !! i = Some (Single t)
  ∧ repository st' !! i = Some (thunk_event t)
  ∧ queue st' = queue st ++ [t]
  ∧ status_of t st' = ∅ ∧ result_of t st' = None ∧ is_aborted (tid t) st' = false
  ∧ (∀ k, k ≠ i → thunks st' !! k = thunks st !! k
                  ∧ repository st' !! k = repository st !! k)
  ∧ repository (controller_abort (tid t) st') !! i = None
  ∧ thunks (controller_abort (tid t) st') !! i = Some (Single t)
  ∧ queue (controller_abort (tid t) st') = queue st'.
Proof.
  intros st t st' i. pose proof (wf_reached pre) as Hwf. fold st in Hwf.
  pose proof (publishThunk_extends now pk request st) as [Hext Ht].
  fold t st' in Hext, Ht.
  assert (wf st') as Hwf' by by eapply wf_extends_queue.
  assert (t ∈ queue st') as Hq.
  { destruct Hext as (_ & _ & _ & _ & _ & -> & _). apply elem_of_app. right. by left. }
  destruct (queued_fresh t st' Hwf' Hq) as (Q1 & Q2 & Q3 & Q4).
  assert (tid t ∉ aborted st') as Hna.
  { destruct Hext as (_ & -> & _). intros Hin. apply (wf_aborted _ Hwf) in Hin.
    rewrite Ht in Hin. simpl in Hin. lia. }
  split_and!.
  - by rewrite Ht.
  - subst st' i t. unfold publishThunk. simpl. unfold assoc. apply lookup_insert_eq.
  - subst st' i t. unfold publishThunk. simpl. apply lookup_insert_eq.
  - by destruct Hext as (_ & _ & _ & _ & _ & -> & _).
  - unfold status_of. by rewrite Q2.
  - done.
  - by apply bool_decide_eq_false_2.
  - intros k Hk. subst st' i t. unfold publishThunk, assoc. simpl in *.
    by rewrite !lookup_insert_ne.
  - unfold controller_abort, is_aborted. rewrite bool_decide_eq_false_2 by done.
    rewrite foldl_removeEvent_lookup, decide_True; [done|].
    subst st' i t. unfold publishThunk. simpl. rewrite lookup_insert_eq. simpl.
    apply elem_of_app. right. by left.
  - destruct (controller_abort_shape (tid t) st') as [R ->]. simpl.
    subst st' i t. unfold publishThunk. simpl. unfold assoc. apply lookup_insert_eq.
  - by destruct (controller_abort_shape (tid t) st') as [R ->].
Qed.

(** X25: [abortThunk] on a member of a batch sets the signal of that
    member only: the signal of the merged thunk and those of the other
    members stay unset. The registry and the repository lose the entry
    under the id of the member's event; members with another event id stay
    registered as the merged thunk, and every member stays queued. *)
Theorem abortThunk_of_member `{EventStages} (pre : list Action) (now : Z) (pk : string)
    (requests : list ThunkRequest) (t : Thunk) :
  let st := run pre init in
  let m := (publishThunks now pk requests st).1 in
  let st1 := (publishThunks now pk requests st).2 in
  let st2 := abortThunk t st1 in
  t ∈ thunks_of m →
  is_aborted (tid t) st2 = true
  ∧ is_aborted (mid m) st2 = false
  ∧ (∀ t', t' ∈ thunks_of m → t' ≠ t → is_aborted (tid t') st2 = false)
  ∧ thunks st2 !! event_id (thunk_event t) = None
  ∧ repository st2 !! event_id (thunk_event t) = None
  ∧ (∀ t', t' ∈ thunks_of m → event_id (thunk_event t') ≠ event_id (thunk_event t) →
       thunks st2 !! event_id (thunk_event t') = Some (Merged m))
  ∧ queue st2 = queue st ++ thunks_of m.
Proof.
  intros st m st1 st2 Ht. pose proof (wf_reached pre) as Hwf. fold st in Hwf.
  pose proof (publishThunks_extends now pk requests st) as Hext.
  pose proof (publishThunks_next_id now pk requests st) as [Hmid Hnext].
  change (mid m = next_id st + length requests) in Hmid.
  change (next_id st1 = S (next_id st + length requests)) in Hnext.
  change (extends_queue (thunks_of m) st st1) in Hext.
  destruct Hext as (E1 & E2 & E3 & E4 & E5 & E6 & E7 & E8).
  destruct (abortThunk_shape t st1) as [R HR].
  assert (aborted st2 = {[tid t]} ∪ aborted st) as Hab.
  { subst st2. rewrite HR. simpl. by rewrite E2. }
  assert (∀ c, next_id st ≤ c → c ≠ tid t → c ∉ aborted st2) as Hfresh.
  { intros c Hc Hne. rewrite Hab. intros Hin. apply elem_of_union in Hin as [Hin|Hin].
    - by apply elem_of_singleton in Hin.
    - apply (wf_aborted _ Hwf) in Hin. lia. }
  assert (∀ t', t' ∈ thunks_of m →
            thunks st1 !! event_id (thunk_event t') = Some (Merged m)) as Hreg.
  { intros t' Ht'. subst st1 m. unfold publishThunks in *.
    destruct (makeThunks now pk requests st) as [ts st0]. simpl in *.
    rewrite publish_member_thunks, decide_True; [done|].
    apply list_elem_of_fmap. by exists t'. }
  assert (∀ t', t' ∈ thunks_of m →
            next_id st ≤ tid t' < next_id st + length requests) as Htid.
  { intros t' Ht'. pose proof (makeThunks_spec now pk requests st) as (_ & M2 & _).
    subst m. unfold publishThunks in *.
    destruct (makeThunks now pk requests st) as [ts st0]. simpl in *.
    assert (tid t' ∈ tid <$> ts) as Hin by (apply list_elem_of_fmap; by exists t').
    rewrite M2, elem_of_seq in Hin. lia. }
  unfold is_aborted. split_and!.
  - apply bool_decide_eq_true_2. rewrite Hab. set_solver.
  - apply bool_decide_eq_false_2. apply Hfresh; [lia|].
    apply Htid in Ht. lia.
  - intros t' Ht' Hne. apply bool_decide_eq_false_2.
    apply Hfresh; [apply Htid in Ht'; lia|].
    intros Heq. apply Hne.
    apply list_elem_of_lookup in Ht as [i Hi]. apply list_elem_of_lookup in Ht' as [j Hj].
    assert (i = j) as ->; [|congruence].
    assert ((tid <$> thunks_of m) !! i = Some (tid t)) as Hi'
      by (by rewrite list_lookup_fmap, Hi).
    assert ((tid <$> thunks_of m) !! j = Some (tid t)) as Hj'
      by (rewrite list_lookup_fmap, Hj; simpl; by rewrite Heq).
    by eapply NoDup_lookup.
  - subst st2. rewrite HR. simpl. apply lookup_delete_eq.
  - subst st2. unfold abortThunk, repository_removeEvent. simpl. apply lookup_delete_eq.
  - intros t' Ht' Hne. subst st2. rewrite HR. simpl.
    rewrite lookup_delete_ne by done. by apply Hreg.
  - subst st2. rewrite HR. simpl. done.
Qed.

(** ** A publish that is under way *)

(** X26: the listeners do not look at the signal. [abortThunk] on a thunk
    that was handed to the broadcaster leaves its statuses, its result and
    its listeners as they are, and every later notification is applied as
    it would have been without the abort. *)
Theorem abort_after_send_is_not_seen (t : Thunk) (signedEvent : Event)
    (ev : PublishEvent) (st : State) :
  let st1 := abortThunk t st in
  tasks st !! tid t = Some (Sending t signedEvent) →
  statuses st1 = statuses st
  ∧ results st1 = results st
  ∧ tasks st1 !! tid t = Some (Sending t signedEvent)
  ∧ status_of t (on_event t ev st1) = status_of t (on_event t ev st)
  ∧ result_of t (on_event t ev st1) = result_of t (on_event t ev st)
  ∧ tracker (on_event t ev st1) = tracker (on_event t ev st).
Proof.
  intros st1 Ht. subst st1. destruct (abortThunk_shape t st) as [R ->].
  split_and!; try done.
  - destruct ev; simpl; unfold status_of, resolve; simpl; try done.
    by destruct (results st !! tid t).
  - destruct ev; simpl; unfold result_of, resolve; simpl; try done.
    by destruct (results st !! tid t).
  - destruct ev; simpl; unfold resolve; simpl; try done.
    by destruct (results st !! tid t).
Qed.

(** ** Events that need no signer *)

(** X27: events that need no signer. When the thunk at the head of the
    queue carries a wrapped event, or a signed one, its dispatch does not
    depend on whether a signer is found. What is handed on is the wrapper,
    or the event itself: with a delay the thunk waits, with no status; with
    none, every relay of the request becomes Pending and the signature is
    copied to the stored event that has the id of what is sent. *)
Theorem signed_or_wrapped_skips_signer `{EventStages} (pre : list Action)
    (signer : bool) (t : Thunk) (rest : list Thunk) (ev : Event) :
  let st := run pre init in
  let st' := step (ADispatch signer) st in
  queue st = t :: rest →
  is_aborted (tid t) st = false →
  (∃ w, wrap (thunk_event t) = Some w ∧ ev = of_signed w)
  ∨ (wrap (thunk_event t) = None ∧ isSignedEvent (thunk_event t) = true
     ∧ ev = thunk_event t) →
  queue st' = rest
  ∧ if truthy (delay (request t))
    then tasks st' !! tid t = Some (AwaitDelay t ev)
         ∧ status_of t st' = ∅
         ∧ repository st' = repository st
    else tasks st' !! tid t = Some (Sending t ev)
         ∧ (∀ url, status_of t st' !! url
                   = if decide (url ∈ relays (request t))
                     then Some (mkStatus "Sending your message..." Pending) else None)
         ∧ repository st' = alter (set_sig (sig ev)) (event_id ev) (repository st).
Proof.
  intros st st' Hq Ha Hev. pose proof (wf_reached pre) as Hwf. fold st in Hwf.
  destruct (queued_fresh t st Hwf) as (Q1 & Q2 & Q3 & Q4); [rewrite Hq; by left|].
  assert (st' = after_sign t ev (set_queue rest st)) as ->.
  { subst st'. cbn [step]. rewrite Hq. unfold processItem.
    change (is_aborted (tid t) (set_queue rest st)) with (is_aborted (tid t) st).
    rewrite Ha. cbv zeta.
    destruct Hev as [(w & Hw & ->)|(Hw & Hs & ->)].
    - unfold isUnwrappedEvent. rewrite Hw. rewrite bool_decide_eq_true_2 by by eexists.
      simpl. done.
    - unfold isUnwrappedEvent. rewrite Hw.
      rewrite bool_decide_eq_false_2 by (by intros [? ?]).
      by rewrite Hs. }
  unfold after_sign. destruct (truthy (delay (request t))).
  - split_and!; simpl; [done|apply lookup_insert_eq| |done].
    unfold status_of. simpl. by rewrite Q2.
  - unfold send.
    change (is_aborted (tid t) (set_queue rest st)) with (is_aborted (tid t) st).
    rewrite Ha. split_and!; simpl; [done|apply lookup_insert_eq| |done].
    intros url. unfold status_of. simpl. rewrite lookup_insert_eq. simpl.
    apply fromPairs_pending_lookup.
Qed.

(** ** The repository during a dispatch *)

Lemma repository_dispatch_step `{EventStages} a st k :
  match a with
  | ADispatch _ | ASignSettled _ _ | ADelayElapsed _ | ANotify _ _ => True
  | _ => False
  end →
  repository (step a st) !! k = repository st !! k
  ∨ ∃ e g, repository st !! k = Some e ∧ repository (step a st) !! k = Some (set_sig g e).
Proof.
  assert (∀ ev st0, repository st0 = repository st →
            alter (set_sig (sig ev)) (event_id ev) (repository st0) !! k
            = repository st !! k
            ∨ ∃ e g, repository st !! k = Some e
                     ∧ alter (set_sig (sig ev)) (event_id ev) (repository st0) !! k
                       = Some (set_sig g e)) as Halter.
  { intros ev st0 ->. destruct (decide (event_id ev = k)) as [->|Hne].
    - rewrite lookup_alter_eq. destruct (repository st !! k) as [e|]; [|by left].
      right. by exists e, (sig ev).
    - left. by rewrite lookup_alter_ne. }
  intros Ha. destruct a as [| | | | |signer|c o|c|c ev]; try done; cbn [step].
  - destruct (queue st) as [|t rest]; [by left|].
    unfold processItem, after_sign, send, fail, status_set, is_aborted.
    repeat (case_match || case_bool_decide); simpl; try (by left); by apply Halter.
  - destruct (tasks st !! c) as [[t|t ev|t ev]|]; try by left.
    unfold sign_settled, after_sign, send, fail, status_set, is_aborted.
    repeat (case_match || case_bool_decide); simpl; try (by left); by apply Halter.
  - destruct (tasks st !! c) as [[t|t ev|t ev]|]; try by left.
    unfold send, status_set, is_aborted.
    repeat (case_match || case_bool_decide); simpl; try (by left); by apply Halter.
  - destruct (tasks st !! c) as [[t|t ev'|t ev']|]; try by left.
    left. dispatch_crush.
Qed.

(** X28: dispatching adds no event to the repository and removes none.
    Along an execution of dispatch, signer, timer and broadcaster steps, an
    id that is absent stays absent, so that an event deleted in between is
    not stored again, and a stored event changes in its signature at most. *)
Theorem dispatch_keeps_repository_keys `{EventStages} (actions : list Action)
    (st : State) (k : string) :
  (∀ a, a ∈ actions →
        match a with
        | ADispatch _ | ASignSettled _ _ | ADelayElapsed _ | ANotify _ _ => True
        | _ => False
        end) →
  (repository st !! k = None → repository (run actions st) !! k = None)
  ∧ (∀ e, repository st !! k = Some e →
          ∃ g, repository (run actions st) !! k = Some (set_sig g e)).
Proof.
  revert st. induction actions as [|a actions IH]; intros st Hall.
  - split; [done|]. intros e He. exists (sig e). simpl. rewrite He. by destruct e.
  - destruct (IH (step a st)) as [IH1 IH2].
    { intros a' Ha'. apply Hall. by right. }
    destruct (repository_dispatch_step a st k) as [E|(e & g & E1 & E2)].
    { apply Hall. by left. }
    + split.
      * intros Hn. simpl. apply IH1. by rewrite E.
      * intros e He. simpl. apply IH2. by rewrite E.
    + split; [congruence|]. intros e0 He0. assert (e0 = e) as -> by congruence.
      destruct (IH2 _ E2) as [g' Hg']. exists g'. simpl. rewrite Hg'. by destruct e.
Qed.

(** ** The examples *)

Import Examples.

Lemma walk_registered_batch_witness :
  ∃ r, thunks batch.2 !! "alice:hello" = Some r
       ∧ request <$> walkThunks [node_of r] = [req_a; req_b].
Proof.
  destruct (@walk_registered_batch stages 1700000000%Z "alice" [req_a; req_b] init
              (mkThunk 0 (@prepEvent stages 1700000000 "alice" note) req_a))
    as (r & H1 & _ & _ & H2).
  - vm_compute. apply list_elem_of_here.
  - exists r. split; [exact H1|exact H2].
Defined.

Lemma mergedStatus_kind_perm_witness :
  status <$> mergedStatus two_statuses !! "wss://a"
  = status <$> mergedStatus (reverse two_statuses) !! "wss://a".
Proof.
  apply (mergedStatus_kind_perm two_statuses (reverse two_statuses) "wss://a").
  apply perm_swap.
Defined.

Lemma prepEvent_keeps_given_fields_witness :
  @prepEvent stages 1 "alice" signed_note = @prepEvent stages 2 "alice" signed_note.
Proof.
  destruct (@prepEvent_keeps_given_fields stages 1 2 "alice" "bob" signed_note) as [H1 _].
  - reflexivity.
  - exact H1.
Defined.

Lemma result_is_settled_once_witness :
  ∃ v, result_of published.1 delivered = Some v
       ∧ result_of published.1 (@run stages [AAbortThunk published.1] delivered) = Some v.
Proof.
  eexists. split.
  - vm_compute. reflexivity.
  - apply (@result_is_settled_once stages). vm_compute. reflexivity.
Defined.

Lemma result_only_by_complete_witness :
  ∃ t' signedEvent,
    tasks (@run stages almost_delivered init) !! 0 = Some (Sending t' signedEvent).
Proof.
  destruct (@result_only_by_complete stages almost_delivered (ANotify 0 EvComplete)
              published.1
              (status_of published.1 (@run stages almost_delivered init)))
    as (_ & _ & Ht).
  - vm_compute. reflexivity.
  - vm_compute. reflexivity.
  - exact Ht.
Defined.

Lemma registry_entries_persist_witness :
  is_Some (thunks (@run stages delivery published.2) !! "alice:hello").
Proof.
  apply (@registry_entries_persist stages).
  - eexists. vm_compute. reflexivity.
  - intros t Hin. unfold delivery in Hin.
    repeat (apply elem_of_cons in Hin as [Hin|Hin]; [discriminate Hin|]).
    by apply elem_of_nil in Hin.
Defined.


Lemma status_all_or_nothing_witness :
  status_of published.1 delivered = ∅ ∨ covers published.1 (status_of published.1 delivered).
Proof.
  apply (@status_all_or_nothing stages [APublishThunk 1700000000 "alice" req_a] delivery
           published.1).
  vm_compute. apply list_elem_of_here.
Defined.

Lemma result_only_after_send_witness :
  ∃ signedEvent, tasks delivered !! 0 = Some (Sending published.1 signedEvent).
Proof.
  destruct (@result_only_after_send stages [APublishThunk 1700000000 "alice" req_a]
              delivery published.1
              (status_of published.1 delivered)) as (_ & ev & s & Ht & _).
  - vm_compute. apply list_elem_of_here.
  - vm_compute. reflexivity.
  - exists ev. exact Ht.
Defined.

Lemma abort_before_send_witness :
  result_of published.1
    (@run stages [ASignSettled 0 (Signed signed_note)]
       (@run stages abort_while_signing published.2)) = None.
Proof.
  destruct (@abort_before_send stages [APublishThunk 1700000000 "alice" req_a]
              abort_while_signing [ASignSettled 0 (Signed signed_note)] published.1)
    as (_ & _ & Hr).
  - vm_compute. apply list_elem_of_here.
  - refine (bool_decide_unpack _ _). vm_compute. exact I.
  - intros ev. vm_compute. discriminate.
  - exact Hr.
Defined.

Lemma batch_result_needs_every_member_witness :
  ∃ rs, merged_result batch.1 (@run stages batch_delivery batch.2) = Some rs
        ∧ length rs = 2.
Proof.
  eexists. split.
  - vm_compute. reflexivity.
  - eapply (@batch_result_needs_every_member stages [] batch_delivery 1700000000%Z
              "alice" [req_a; req_b]).
    vm_compute. reflexivity.
Defined.

Lemma abortThunk_of_member_witness :
  is_aborted 0 (abortThunk (mkThunk 0 (@prepEvent stages 1700000000 "alice" note) req_a)
                  batch.2) = true
  ∧ is_aborted 2 (abortThunk (mkThunk 0 (@prepEvent stages 1700000000 "alice" note) req_a)
                    batch.2) = false.
Proof.
  destruct (@abortThunk_of_member stages [] 1700000000%Z "alice" [req_a; req_b]
              (mkThunk 0 (@prepEvent stages 1700000000 "alice" note) req_a))
    as (H1 & H2 & _).
  - vm_compute. apply list_elem_of_here.
  - split; [exact H1|exact H2].
Defined.

Lemma abort_after_send_is_not_seen_witness :
  status_of published.1
    (on_event published.1 (EvAborted "wss://b") (abortThunk published.1 delivered))
  = status_of published.1 (on_event published.1 (EvAborted "wss://b") delivered).
Proof.
  destruct (abort_after_send_is_not_seen published.1 signed_note (EvAborted "wss://b")
              delivered) as (_ & _ & _ & Hs & _).
  - vm_compute. reflexivity.
  - exact Hs.
Defined.

Lemma signed_or_wrapped_skips_signer_witness :
  tasks (@run stages [APublishThunk 1700000000 "alice" signed_req; ADispatch false] init)
    !! 0
  = Some (Sending (mkThunk 0 signed_note signed_req) signed_note).
Proof.
  destruct (@signed_or_wrapped_skips_signer stages
              [APublishThunk 1700000000 "alice" signed_req] false
              (mkThunk 0 signed_note signed_req) [] signed_note) as (_ & Ht).
  - vm_compute. reflexivity.
  - vm_compute. reflexivity.
  - right. split_and!; vm_compute; reflexivity.
  - change (truthy (delay (request (mkThunk 0 signed_note signed_req)))) with false in Ht.
    destruct Ht as (Ht & _). exact Ht.
Defined.

Lemma dispatch_keeps_repository_keys_witness :
  repository (@run stages delivery published.2) !! "bob:hello" = None.
Proof.
  eapply (@dispatch_keeps_repository_keys stages delivery published.2 "bob:hello").
  - intros a Hin. unfold delivery in Hin.
    repeat (apply elem_of_cons in Hin as [->|Hin]; [exact I|]).
    by apply elem_of_nil in Hin.
  - vm_compute. reflexivity.
Defined.

End ThunkMore.
